(** * Synthetic AB magnitudes of brown-dwarf model spectra

    A shallow embedding of the three functions of
    [notebooks/BD magnitudes.ipynb] -- [load_model], [load_filter] and
    [get_abs_mag] -- together with the library routines they call
    (astropy's unit conversions, [numpy.interp], [numpy.argsort] and
    [scipy.integrate.simps]).

    Floating-point numbers are idealised as real numbers: every statement
    below is about exact arithmetic.  Python exceptions are values of an
    error monad; the files on disk are an explicit argument. *)

From Stdlib Require Import Reals Lra Lia String ZArith Bool List.
From Stdlib Require Import Permutation Sorted.
From Stdlib Require Import Ascii DecimalString DecimalZ.
Import ListNotations.

Open Scope R_scope.

(** ** Exceptions and the error monad *)

Inductive exn : Type :=
| FileNotFoundError        (* open() on a missing path *)
| InconsistentTableError   (* astropy.io.ascii: the text is not a table *)
| KeyError                 (* Table.__getitem__ on an absent column *)
| UnitConversionError      (* Quantity.to between incompatible units *)
| UnitTypeError            (* np.log10 of a dimensional quantity *)
| ValueError               (* np.interp on empty or ill-matched samples *)
| IndexError.              (* y[-1] on an empty array, inside simps *)

Inductive result (A : Type) : Type :=
| Ok (a : A)
| Raise (e : exn).

Arguments Ok {A} a.
Arguments Raise {A} e.

Definition bind {A B : Type} (m : result A) (k : A -> result B) : result B :=
  match m with
  | Ok a => k a
  | Raise e => Raise e
  end.

Notation "x <- m ;; k" := (bind m (fun x => k))
  (at level 61, m at next level, right associativity).
Notation "' p <- m ;; k" := (bind m (fun x => let p := x in k))
  (at level 61, p pattern, m at next level, right associativity).

(** ** Physical units (astropy.units)

    A unit is a scale factor to the SI base units together with the
    exponents of length, mass and time. *)

Record Unit : Type := mkUnit {
  scale : R;
  dim_L : Z;
  dim_M : Z;
  dim_T : Z
}.

Definition unit_mul (a b : Unit) : Unit :=
  mkUnit (scale a * scale b)
         (dim_L a + dim_L b) (dim_M a + dim_M b) (dim_T a + dim_T b).

Definition unit_div (a b : Unit) : Unit :=
  mkUnit (scale a / scale b)
         (dim_L a - dim_L b) (dim_M a - dim_M b) (dim_T a - dim_T b).

Definition unit_pow (a : Unit) (n : nat) : Unit :=
  mkUnit (scale a ^ n)
         (dim_L a * Z.of_nat n) (dim_M a * Z.of_nat n) (dim_T a * Z.of_nat n).

Definition dim_eqb (a b : Unit) : bool :=
  ((dim_L a =? dim_L b) && (dim_M a =? dim_M b) && (dim_T a =? dim_T b))%Z.

Declare Scope unit_scope.
Delimit Scope unit_scope with U.
Infix "*" := unit_mul : unit_scope.
Infix "/" := unit_div : unit_scope.
Infix "^" := unit_pow : unit_scope.

Module u.
Definition dimensionless_unscaled : Unit := mkUnit 1 0 0 0.
Definition m : Unit := mkUnit 1 1 0 0.
Definition micron : Unit := mkUnit 1e-6 1 0 0.
Definition angstrom : Unit := mkUnit 1e-10 1 0 0.
Definition cm : Unit := mkUnit 1e-2 1 0 0.
Definition s : Unit := mkUnit 1 0 0 1.
Definition Hz : Unit := mkUnit 1 0 0 (-1).
Definition erg : Unit := mkUnit 1e-7 2 1 (-2).
Definition Jansky : Unit := mkUnit 1e-26 0 1 (-2).
Definition milliJansky : Unit := mkUnit 1e-29 0 1 (-2).
End u.

(** [astropy.constants.c], in m/s. *)
Definition c_SI : R := 299792458.

(** The two flux-density conventions of [u.spectral_density]. *)
Definition f_nu_unit : Unit := (u.erg / u.Hz / u.cm ^ 2 / u.s)%U.
Definition f_la_unit : Unit := (u.erg / u.angstrom / u.cm ^ 2 / u.s)%U.

(** ** Quantities: a value (scalar or array) with a unit *)

Record Quantity (A : Type) : Type := mkQ {
  value : A;
  unit : Unit
}.

Arguments mkQ {A} value unit.
Arguments value {A} q.
Arguments unit {A} q.

Definition QArray : Type := Quantity (list R).
Definition QScalar : Type := Quantity R.

(** [column * unit] *)
Definition with_unit {A : Type} (v : A) (un : Unit) : Quantity A := mkQ v un.

(** [Unit._to]: the scale factor between two units of the same dimension. *)
Definition unit_to (src dst : Unit) : result R :=
  if dim_eqb src dst then Ok (scale src / scale dst)
  else Raise UnitConversionError.

(** [Quantity.to(unit)] without equivalencies. *)
Definition to (q : QArray) (dst : Unit) : result QArray :=
  k <- unit_to (unit q) dst ;;
  Ok (mkQ (map (fun v => v * k) (value q)) dst).

(** [Quantity.to(unit, u.spectral())], for the length/frequency pair
    [(si.m, si.Hz, lambda x: c / x)] of the equivalency list: a plain
    rescaling is tried first, then the pair in its forward and in its
    backward direction. *)
Definition to_spectral (q : QArray) (dst : Unit) : result QArray :=
  match unit_to (unit q) dst with
  | Ok k => Ok (mkQ (map (fun v => v * k) (value q)) dst)
  | Raise _ =>
    match unit_to (unit q) u.m, unit_to u.Hz dst with
    | Ok ratio_in, Ok ratio_out =>
        Ok (mkQ (map (fun v => ratio_out * (c_SI / (v * ratio_in))) (value q)) dst)
    | _, _ =>
      match unit_to (unit q) u.Hz, unit_to u.m dst with
      | Ok ratio_in, Ok ratio_out =>
          Ok (mkQ (map (fun v => ratio_out * (c_SI / (v * ratio_in))) (value q)) dst)
      | _, _ => Raise UnitConversionError
      end
    end
  end.

(** Element-wise combination of two arrays (of the same length wherever the
    code combines two). *)
Fixpoint map2 {A B C : Type} (f : A -> B -> C) (l1 : list A) (l2 : list B)
  : list C :=
  match l1, l2 with
  | a :: l1', b :: l2' => f a b :: map2 f l1' l2'
  | _, _ => []
  end.

(** [Quantity.to(unit, u.spectral_density(wav))], for the pair
    [(f_la, f_nu, converter, iconverter)] that heads the equivalency list;
    [c_Aps] is the speed of light in angstrom per second and [wav] is taken
    in angstrom, sample by sample. *)
Definition c_Aps : R := c_SI * 1e10.

Definition to_spectral_density (q : QArray) (dst : Unit) (wav : QArray)
  : result QArray :=
  match unit_to (unit q) dst with
  | Ok k => Ok (mkQ (map (fun v => v * k) (value q)) dst)
  | Raise _ =>
    wavA <- to_spectral wav u.angstrom ;;
    match unit_to (unit q) f_la_unit, unit_to f_nu_unit dst with
    | Ok ratio_in, Ok ratio_out =>
        Ok (mkQ (map2 (fun v w => ratio_out * (v * ratio_in * (w ^ 2 / c_Aps)))
                      (value q) (value wavA)) dst)
    | _, _ =>
      match unit_to (unit q) f_nu_unit, unit_to f_la_unit dst with
      | Ok ratio_in, Ok ratio_out =>
          Ok (mkQ (map2 (fun v w => ratio_out * (v * ratio_in / (w ^ 2 / c_Aps)))
                        (value q) (value wavA)) dst)
      | _, _ => Raise UnitConversionError
      end
    end
  end.

(** ** Tables (astropy.table.Table) and the reader

    A table is a list of named numeric columns, in file order.  The files on
    disk, as the reader tokenises them, are a map from paths to tables; a
    missing path raises [FileNotFoundError], text that is not a table raises
    [InconsistentTableError]. *)

Definition Table : Type := list (string * list R).
Definition FileSystem : Type := string -> result Table.

(** [ascii.read(path)] and [ascii.read(path, names=[...])]: with [names], the
    columns are renamed by position and their number must match. *)
Definition ascii_read (fs : FileSystem) (path : string)
           (names : option (list string)) : result Table :=
  t <- fs path ;;
  match names with
  | None => Ok t
  | Some ns =>
      if Nat.eqb (length ns) (length t) then Ok (combine ns (map snd t))
      else Raise InconsistentTableError
  end.

(** [table[name]] *)
Fixpoint getitem (t : Table) (name : string) : result (list R) :=
  match t with
  | [] => Raise KeyError
  | (n, col) :: t' => if String.eqb n name then Ok col else getitem t' name
  end.

(** ** The loaders *)

Section Loaders.

Variable fs : FileSystem.

Open Scope string_scope.

Definition load_model (model_spec_file : string) (lambda_ : bool)
  : result (QArray * QArray) :=
  model_spec <- ascii_read fs model_spec_file None ;;
  lam <- getitem model_spec "LAMBDA(mic)" ;;
  model_wvln <- to (with_unit lam u.micron) u.angstrom ;;
  model_nu <- to_spectral model_wvln u.Hz ;;
  fdet <- getitem model_spec "FDET(milliJ)" ;;
  model_fnu <- to (with_unit fdet u.milliJansky)
                  (u.erg / u.s / u.cm ^ 2 / u.Hz)%U ;;
  if lambda_ then
    model_fla <- to_spectral_density model_fnu
                   (u.erg / u.s / u.cm ^ 2 / u.angstrom)%U model_wvln ;;
    Ok (model_wvln, model_fla)
  else
    Ok (model_nu, model_fnu).

Definition load_filter (filter_file : string) (lambda_ : bool)
  : result (QArray * list R) :=
  filter_resp <- ascii_read fs filter_file (Some ["wavelength"; "response"]) ;;
  wl <- getitem filter_resp "wavelength" ;;
  let filter_wvln := with_unit wl u.angstrom in
  filter_nu <- to_spectral filter_wvln u.Hz ;;
  filter_resp <- getitem filter_resp "response" ;;
  if lambda_ then Ok (filter_wvln, filter_resp)
  else Ok (filter_nu, filter_resp).

End Loaders.

(** ** Comparisons on reals, as booleans *)

Definition Rltb (x y : R) : bool := if Rlt_dec x y then true else false.
Definition Rleb (x y : R) : bool := if Rle_dec x y then true else false.
Definition Reqb (x y : R) : bool := if Req_dec_T x y then true else false.

(** ** numpy.interp

    [binary_search_with_guess] and the loop of [arr_interp] are transcribed
    from numpy's [compiled_base.c]: the two range tests come first, arrays of
    at most four points are scanned linearly, longer ones are bisected
    around the index found for the previous abscissa. *)

Definition aref (arr : list R) (i : Z) : R := nth (Z.to_nat i) arr 0.

Definition LIKELY_IN_CACHE_SIZE : Z := 8.

Open Scope Z_scope.

(** [for (i = i0; i < len && key >= arr[i]; i++); return i - 1;] *)
Fixpoint linear_search (fuel : nat) (key : R) (arr : list R) (len i : Z) : Z :=
  match fuel with
  | O => i - 1
  | S fuel' =>
      if (i <? len) && Rleb (aref arr i) key
      then linear_search fuel' key arr len (i + 1)
      else i - 1
  end.

(** [while (imin < imax) { imid = imin + ((imax - imin) >> 1); ... }] *)
Fixpoint bisect (fuel : nat) (key : R) (arr : list R) (imin imax : Z) : Z :=
  match fuel with
  | O => imin - 1
  | S fuel' =>
      if imin <? imax then
        let imid := imin + Z.shiftr (imax - imin) 1 in
        if Rleb (aref arr imid) key
        then bisect fuel' key arr (imid + 1) imax
        else bisect fuel' key arr imin imid
      else imin - 1
  end.

Definition binary_search_with_guess (key : R) (arr : list R) (len guess : Z)
  : Z :=
  if Rltb (aref arr (len - 1)) key then len
  else if Rltb key (aref arr 0) then -1
  else if len <=? 4 then linear_search (Z.to_nat len) key arr len 1
  else
    let guess := if guess >? len - 3 then len - 3 else guess in
    let guess := if guess <? 1 then 1 else guess in
    if Rltb key (aref arr guess) then
      if Rltb key (aref arr (guess - 1)) then
        let imax := guess - 1 in
        let imin :=
          if (guess >? LIKELY_IN_CACHE_SIZE)
             && Rleb (aref arr (guess - LIKELY_IN_CACHE_SIZE)) key
          then guess - LIKELY_IN_CACHE_SIZE else 0 in
        bisect (Z.to_nat len) key arr imin imax
      else guess - 1
    else if Rltb key (aref arr (guess + 1)) then guess
    else if Rltb key (aref arr (guess + 2)) then guess + 1
    else
      let imin := guess + 2 in
      let imax :=
        if (guess <? len - LIKELY_IN_CACHE_SIZE - 1)
           && Rltb key (aref arr (guess + LIKELY_IN_CACHE_SIZE))
        then guess + LIKELY_IN_CACHE_SIZE else len in
      bisect (Z.to_nat len) key arr imin imax.

(** The value stored for one abscissa, once its index [j] is known;
    [left] and [right] default to [fp[0]] and [fp[-1]]. *)
Definition interp_value (xp fp : list R) (lenxp : Z) (x : R) (j : Z) : R :=
  if j =? -1 then aref fp 0
  else if j =? lenxp then aref fp (lenxp - 1)
  else if j =? lenxp - 1 then aref fp j
  else if Reqb (aref xp j) x then aref fp j
  else
    let slope := ((aref fp (j + 1) - aref fp j) / (aref xp (j + 1) - aref xp j))%R in
    (slope * (x - aref xp j) + aref fp j)%R.

Fixpoint interp_loop (xp fp : list R) (lenxp : Z) (xs : list R) (j : Z)
  : list R :=
  match xs with
  | [] => []
  | x :: xs' =>
      let j' := binary_search_with_guess x xp lenxp j in
      interp_value xp fp lenxp x j' :: interp_loop xp fp lenxp xs' j'
  end.

Definition np_interp (x xp fp : list R) : result (list R) :=
  let lenxp := Z.of_nat (length xp) in
  if lenxp =? 0 then Raise ValueError
  else if negb (Z.of_nat (length fp) =? lenxp) then Raise ValueError
  else if lenxp =? 1 then
    Ok (map (fun x_val =>
               if Rltb x_val (aref xp 0) then aref fp 0
               else if Rltb (aref xp 0) x_val then aref fp (lenxp - 1)
               else aref fp 0) x)
  else Ok (interp_loop xp fp lenxp x 0).

Close Scope Z_scope.

(** ** numpy.argsort and fancy indexing

    The permutation is built by stable insertion.  numpy's default sort is
    not stable, so the order of equal keys is implementation-defined there;
    on pairwise distinct keys every sorting algorithm returns the same
    permutation. *)

Fixpoint insert_idx (a : list R) (i : nat) (l : list nat) : list nat :=
  match l with
  | [] => [i]
  | j :: l' =>
      if Rleb (nth i a 0) (nth j a 0) then i :: l
      else j :: insert_idx a i l'
  end.

Definition argsort (a : list R) : list nat :=
  fold_right (insert_idx a) [] (seq 0 (length a)).

(** [a[idx]] for an index array [idx]. *)
Definition take (a : list R) (idx : list nat) : list R :=
  map (fun i => nth i a 0) idx.

Definition qtake (q : QArray) (idx : list nat) : QArray :=
  mkQ (take (value q) idx) (unit q).

(** [quantity * ndarray], element by element. *)
Definition qmul_array (q : QArray) (a : list R) : QArray :=
  mkQ (map2 Rmult (value q) a) (unit q).

(** ** scipy.integrate.simps (with abscissae, [even='avg'])

    [simps_panel] is one summand of [_basic_simps] for unequal spacings.
    [basic_simps start y x] is [_basic_simps(y, start, stop, x, dx, axis)]
    for the three [stop] values [simps] passes, each of which selects all the
    whole panels that fit from [start] on. *)

Definition simps_panel (x0 y0 x1 y1 x2 y2 : R) : R :=
  let h0 := x1 - x0 in
  let h1 := x2 - x1 in
  let hsum := h0 + h1 in
  let hprod := h0 * h1 in
  let h0divh1 := h0 / h1 in
  hsum / 6 * (y0 * (2 - 1 / h0divh1) + y1 * hsum * hsum / hprod
              + y2 * (2 - h0divh1)).

Fixpoint panels (pts : list (R * R)) : R :=
  match pts with
  | (x0, y0) :: ((x1, y1) :: ((x2, y2) :: _) as rest) =>
      simps_panel x0 y0 x1 y1 x2 y2 + panels rest
  | _ => 0
  end.

Definition basic_simps (start : nat) (y x : list R) : R :=
  panels (skipn start (combine x y)).

Definition simps (y x : list R) : result R :=
  let N := length y in
  if Nat.eqb N 0 then Raise IndexError
  else if Nat.even N then
    let last_dx := nth (N - 1) x 0 - nth (N - 2) x 0 in
    let val1 := 0.5 * last_dx * (nth (N - 1) y 0 + nth (N - 2) y 0) in
    let result1 := basic_simps 0 y x in
    let first_dx := nth 1 x 0 - nth 0 x 0 in
    let val2 := val1 + 0.5 * first_dx * (nth 1 y 0 + nth 0 y 0) in
    let result2 := result1 + basic_simps 1 y x in
    Ok (result2 / 2 + val2 / 2)
  else Ok (basic_simps 0 y x).

(** ** Scalar quantities *)

Definition qscale (k : R) (q : QScalar) : QScalar := mkQ (k * value q) (unit q).
Definition qtimes (q : QScalar) (k : R) : QScalar := mkQ (value q * k) (unit q).
Definition qmul_unit (q : QScalar) (un : Unit) : QScalar :=
  mkQ (value q) (unit q * un)%U.
Definition qdiv (a b : QScalar) : QScalar :=
  mkQ (value a / value b) (unit a / unit b)%U.

Definition log10 (x : R) : R := ln x / ln 10.

(** [np.log10] of a quantity: the argument is first expressed as a pure
    number; a dimensional argument is refused. *)
Definition np_log10 (q : QScalar) : result QScalar :=
  match unit_to (unit q) u.dimensionless_unscaled with
  | Ok k => Ok (mkQ (log10 (value q * k)) u.dimensionless_unscaled)
  | Raise _ => Raise UnitTypeError
  end.

(** ** The synthetic magnitude *)

Section Magnitude.

Variable fs : FileSystem.

Definition get_abs_mag (model_spec_file filter_resp_file : string)
  : result QScalar :=
  '(model_nu, model_fnu) <- load_model fs model_spec_file false ;;
  '(filter_nu, filter_resp) <- load_filter fs filter_resp_file false ;;
  filter_resp_model <- np_interp (value model_nu) (value filter_nu) filter_resp ;;
  s1 <- simps (value (qtake (qmul_array model_fnu filter_resp_model)
                            (argsort (value model_nu))))
              (value (qtake model_nu (argsort (value model_nu)))) ;;
  let fnu1 := qmul_unit (with_unit s1 (unit model_fnu)) u.Hz in
  s2 <- simps (take filter_resp_model (argsort (value model_nu)))
              (value (qtake model_nu (argsort (value model_nu)))) ;;
  let fnu2 := qmul_unit (qtimes (with_unit s2 u.Hz) 3631) u.Jansky in
  l <- np_log10 (qdiv fnu1 fnu2) ;;
  Ok (qscale (-2.5) l).

End Magnitude.

(** ** Closed forms and sample data *)

(** Closed forms of the conversions the loaders perform. *)
Definition angstrom_of_micron (l : R) : R := l * 1e4.
Definition Hz_of_angstrom (w : R) : R := c_SI / (w * 1e-10).
Definition cgs_of_mJy (f : R) : R := f * 1e-26.
(** The factor from flux density per hertz to flux density per angstrom at
    wavelength [w] (in angstrom). *)
Definition fla_factor (w : R) : R := / (w ^ 2 / c_Aps).

(** A model file in the layout of the Burrows spectra (rows in ascending
    wavelength, hence descending frequency), the same rows in the opposite
    order, a filter file in ascending wavelength and a filter file with a
    uniform response. *)
Definition sample_model : Table :=
  [("LAMBDA(mic)"%string, [0.25; 0.5; 1; 2]);
   ("FDET(milliJ)"%string, [3; 6; 9; 12])].

Definition sample_model_reversed : Table :=
  [("LAMBDA(mic)"%string, [2; 1; 0.5; 0.25]);
   ("FDET(milliJ)"%string, [12; 9; 6; 3])].

(** A flat spectrum, and the same spectrum twice as bright. *)
Definition sample_flat_model : Table :=
  [("LAMBDA(mic)"%string, [0.25; 0.5; 1; 2]);
   ("FDET(milliJ)"%string, [5; 5; 5; 5])].

Definition sample_flat_model_doubled : Table :=
  [("LAMBDA(mic)"%string, [0.25; 0.5; 1; 2]);
   ("FDET(milliJ)"%string, map (fun f => 2 * f) [5; 5; 5; 5])].

Definition sample_filter : Table :=
  [("col1"%string, [4000; 10000; 25000]); ("col2"%string, [0.2; 0.8; 0.1])].

Definition sample_flat_filter : Table :=
  [("col1"%string, [4000; 10000; 25000]); ("col2"%string, [0.7; 0.7; 0.7])].

Definition sample_fs : FileSystem := fun path =>
  if String.eqb path "T1800_g50_d2f0.c100" then Ok sample_model
  else if String.eqb path "T1800_reversed.c100" then Ok sample_model_reversed
  else if String.eqb path "flat.c100" then Ok sample_flat_model
  else if String.eqb path "hsc_r.dat" then Ok sample_filter
  else if String.eqb path "flat.dat" then Ok sample_flat_filter
  else Raise FileNotFoundError.

(** The frequency grids [get_abs_mag] works on. *)
Definition model_nu_values (lam : list R) : list R :=
  map (fun l => Hz_of_angstrom (angstrom_of_micron l)) lam.
Definition filter_nu_values (wl : list R) : list R := map Hz_of_angstrom wl.

(** Simpson integral of [flux * resp], and of [resp], over the grid [nu]
    put in ascending order. *)
Definition weighted_flux (flux nu resp : list R) : result R :=
  simps (take (map2 Rmult flux resp) (argsort nu)) (take nu (argsort nu)).
Definition filter_norm (nu resp : list R) : result R :=
  simps (take resp (argsort nu)) (take nu (argsort nu)).

(** The magnitude in the words of the specification: flux densities in
    jansky, the filter response resampled on the model grid, numerator and
    denominator integrated over the ascending grid, the denominator scaled
    by the AB zero point. *)
Definition Jy_of_mJy (f : R) : R := f / 1000.
Definition AB_zero_point_Jy : R := 3631.

Definition flux_ratio (lam fdet wl resp : list R) : result R :=
  resampled <- np_interp (model_nu_values lam) (filter_nu_values wl) resp ;;
  numerator <- weighted_flux (map Jy_of_mJy fdet) (model_nu_values lam) resampled ;;
  norm <- filter_norm (model_nu_values lam) resampled ;;
  Ok (numerator / (norm * AB_zero_point_Jy)).

Definition spec_magnitude (lam fdet wl resp : list R) : result R :=
  ratio <- flux_ratio lam fdet wl resp ;;
  Ok (-2.5 * log10 ratio).

(** The files on disk with one file replaced. *)
Definition fs_update (fs : FileSystem) (path : string) (t : Table) : FileSystem :=
  fun p => if String.eqb p path then Ok t else fs p.

(** Orderings used to state that [argsort] sorts. *)
Definition key_le (a : list R) (i j : nat) : Prop := nth i a 0 <= nth j a 0.
Definition fst_le (p q : R * R) : Prop := fst p <= fst q.
Definition fst_lt (p q : R * R) : Prop := fst p < fst q.

(** The rows [(a[i], b[i])] selected by an index array. *)
Definition take_rows (a b : list R) (idx : list nat) : list (R * R) :=
  map (fun i => (nth i a 0, nth i b 0)) idx.

(** Monotone grids, by index. *)
Definition nondecreasing (arr : list R) : Prop :=
  forall i j : Z, (0 <= i <= j)%Z -> (j < Z.of_nat (length arr))%Z ->
                  aref arr i <= aref arr j.
Definition nonincreasing (arr : list R) : Prop :=
  forall i j : Z, (0 <= i <= j)%Z -> (j < Z.of_nat (length arr))%Z ->
                  aref arr j <= aref arr i.
Definition monotone_grid (arr : list R) : Prop :=
  nondecreasing arr \/ nonincreasing arr.

(** [j] is the last index whose abscissa does not exceed [key]. *)
Definition is_cut (key : R) (arr : list R) (j : Z) : Prop :=
  (-1 <= j < Z.of_nat (length arr))%Z
  /\ (forall i : Z, (0 <= i <= j)%Z -> aref arr i <= key)
  /\ (forall i : Z, (j < i < Z.of_nat (length arr))%Z -> key < aref arr i).

(** [np.interp] at one abscissa, when the index search starts afresh. *)
Definition interp1 (xp fp : list R) (x : R) : R :=
  let lenxp := Z.of_nat (length xp) in
  if (lenxp =? 1)%Z then
    if Rltb x (aref xp 0) then aref fp 0
    else if Rltb (aref xp 0) x then aref fp (lenxp - 1)
    else aref fp 0
  else interp_value xp fp lenxp x (binary_search_with_guess x xp lenxp 0).

(** The mean flux density over the band: the Simpson integral of the flux
    over the ascending grid, divided by the width of the grid. *)
Definition band_mean_flux (flux nu : list R) : result R :=
  let grid := take nu (argsort nu) in
  s <- simps (take flux (argsort nu)) grid ;;
  Ok (s / (nth (length nu - 1) grid 0 - nth 0 grid 0)).

(** ** Tactics for runs on concrete data *)

(** Pairwise distinctness of a list of numerals. *)
Ltac nodup_reals :=
  repeat (constructor; [simpl; intuition lra|]); constructor.

(** Decides the comparisons between numerals. *)
Ltac decide_cmp :=
  unfold Rltb, Rleb, Reqb;
  repeat match goal with
  | |- context [Rlt_dec ?a ?b] => destruct (Rlt_dec a b); try (exfalso; lra)
  | |- context [Rle_dec ?a ?b] => destruct (Rle_dec a b); try (exfalso; lra)
  | |- context [Req_dec_T ?a ?b] => destruct (Req_dec_T a b); try (exfalso; lra)
  end.

(** Reads array elements at closed indices. *)
Ltac eval_aref :=
  repeat match goal with
  | |- context [aref ?l ?i] =>
      let n := eval lazy in (Z.to_nat i) in
      change (aref l i) with (nth n l 0); cbn [nth]
  end.

(** Evaluates comparisons between closed integers and the fuel of the
    loops. *)
Ltac eval_Zcmp :=
  repeat match goal with
  | |- context [Z.ltb ?a ?b] =>
      let v := eval lazy in (Z.ltb a b) in change (Z.ltb a b) with v
  | |- context [Z.leb ?a ?b] =>
      let v := eval lazy in (Z.leb a b) in change (Z.leb a b) with v
  | |- context [Z.gtb ?a ?b] =>
      let v := eval lazy in (Z.gtb a b) in change (Z.gtb a b) with v
  | |- context [Z.eqb ?a ?b] =>
      let v := eval lazy in (Z.eqb a b) in change (Z.eqb a b) with v
  | |- context [bisect (Z.to_nat ?n) ?k ?a ?lo ?hi] =>
      let v := eval lazy in (Z.to_nat n) in
      change (bisect (Z.to_nat n) k a lo hi) with (bisect v k a lo hi)
  | |- context [linear_search (Z.to_nat ?n) ?k ?a ?len ?i] =>
      let v := eval lazy in (Z.to_nat n) in
      change (linear_search (Z.to_nat n) k a len i)
        with (linear_search v k a len i)
  end.

(** Runs the index search of [np.interp] on concrete data. *)
Ltac run_search :=
  unfold binary_search_with_guess, LIKELY_IN_CACHE_SIZE;
  cbn [length Z.of_nat Pos.of_succ_nat Pos.succ];
  repeat (progress (eval_Zcmp; cbn [andb negb bisect linear_search]; cbv zeta;
                    eval_aref; decide_cmp)).

(** * The rest of the notebook

    The cells around the three functions: the pattern that extracts a filter
    identifier from a file name, the loop that tabulates magnitudes over
    filters and temperatures, the detection distances, and the preparation
    of the spectrum plot.  The list of files [glob.glob] returns is an
    argument; a plot is the list of curves handed to [ax.plot]. *)

(** ** [pattr = re.compile('hsc_([0-9a-zA-Z]+).dat')]

    [pattr_search] is [pattr.search(s)] followed by [.groups()[0]] when
    there is a match: the leftmost position where the pattern matches, the
    group taken as long as possible.  The dot of the pattern is any
    character but a newline. *)

Definition is_alnum (c : ascii) : bool :=
  let n := nat_of_ascii c in
  ((48 <=? n) && (n <=? 57) || (65 <=? n) && (n <=? 90)
   || (97 <=? n) && (n <=? 122))%nat.

Definition is_newline (c : ascii) : bool := Ascii.eqb c "010"%char.

(** [.dat] at the head of [s]. *)
Definition tail_match (s : string) : bool :=
  match s with
  | String c (String "d" (String "a" (String "t" _))) => negb (is_newline c)
  | _ => false
  end.

(** [([0-9a-zA-Z]+).dat] at the head of [s]: the longest group first, then
    shorter ones. *)
Fixpoint group_match (s : string) : option string :=
  match s with
  | EmptyString => None
  | String c s' =>
      if is_alnum c then
        match group_match s' with
        | Some g => Some (String c g)
        | None => if tail_match s' then Some (String c EmptyString) else None
        end
      else None
  end.

Definition match_here (s : string) : option string :=
  match s with
  | String "h" (String "s" (String "c" (String "_" rest))) => group_match rest
  | _ => None
  end.

Fixpoint pattr_search (s : string) : option string :=
  match match_here s with
  | Some g => Some g
  | None =>
      match s with
      | EmptyString => None
      | String _ s' => pattr_search s'
      end
  end.

(** ** Exceptions of the cells

    [AttributeError] is what [.groups()] on a failed search ([None]) and
    [.append] on an array raise; the exceptions of the three functions pass
    through unchanged. *)

Inductive cell_exn : Type :=
| Lib (e : exn)
| AttributeError.

Inductive outcome (A : Type) : Type :=
| Done (a : A)
| Abort (e : cell_exn).

Arguments Done {A} a.
Arguments Abort {A} e.

Definition obind {A B : Type} (m : outcome A) (k : A -> outcome B) : outcome B :=
  match m with
  | Done a => k a
  | Abort e => Abort e
  end.

Definition lift {A : Type} (m : result A) : outcome A :=
  match m with
  | Ok a => Done a
  | Raise e => Abort (Lib e)
  end.

Notation "x <~ m ;; k" := (obind m (fun x => k))
  (at level 61, m at next level, right associativity).
Notation "' p <~ m ;; k" := (obind m (fun x => let p := x in k))
  (at level 61, p pattern, m at next level, right associativity).

(** ** The magnitude table (cell "Loop over all filters")

    [tbl_data] is a Python dictionary from column names to a list of
    magnitudes or to the temperature array.  It is kept as an association
    list with unique keys; the order of the keys carries no meaning (the
    notebook runs on Python 3.5). *)

Inductive column : Type :=
| PyList (l : list R)
| NdArray (l : list Z).

Definition dict : Type := list (string * column).

Fixpoint dict_get (d : dict) (k : string) : option column :=
  match d with
  | [] => None
  | (k', v) :: d' => if String.eqb k' k then Some v else dict_get d' k
  end.

(** [d[k] = v] *)
Fixpoint dict_set (d : dict) (k : string) (v : column) : dict :=
  match d with
  | [] => [(k, v)]
  | (k', v') :: d' =>
      if String.eqb k' k then (k', v) :: d' else (k', v') :: dict_set d' k v
  end.

Definition column_length (c : column) : nat :=
  match c with
  | PyList l => length l
  | NdArray l => length l
  end.

(** [np.arange(start, stop, step)] on integers, for a positive step. *)
Definition arange (start stop step : Z) : list Z :=
  map (fun i => (start + Z.of_nat i * step)%Z)
      (seq 0 (Z.to_nat ((stop - start + step - 1) / step))).

Definition Ts : list Z := arange 700 (1800 + 1) 100.

(** ["{0:d}".format(T)] *)
Definition format_d (T : Z) : string := NilZero.string_of_int (Z.to_int T).

Definition model_fname (T : Z) : string :=
  ("../data/non.hubeny.burrows/c100_neq/T" ++ format_d T ++ "_g50_d2f2.c100")%string.

Section Cells.

Variable fs : FileSystem.

(** The inner loop, [for T in Ts: ...], on the dictionary. *)
Fixpoint append_mags (filter_fname filter_name : string) (ts : list Z)
         (tbl_data : dict) : outcome dict :=
  match ts with
  | [] => Done tbl_data
  | T :: ts' =>
      mag <~ lift (get_abs_mag fs (model_fname T) filter_fname) ;;
      match dict_get tbl_data filter_name with
      | None => Abort (Lib KeyError)
      | Some (NdArray _) => Abort AttributeError
      | Some (PyList l) =>
          append_mags filter_fname filter_name ts'
                      (dict_set tbl_data filter_name (PyList (l ++ [value mag])))
      end
  end.

(** The outer loop, [for filter_fname in glob.glob(...): ...]. *)
Fixpoint fill_table (filter_fnames : list string) (tbl_data : dict)
  : outcome dict :=
  match filter_fnames with
  | [] => Done tbl_data
  | filter_fname :: rest =>
      match pattr_search filter_fname with
      | None => Abort AttributeError
      | Some filter_name =>
          tbl_data' <~ append_mags filter_fname filter_name Ts
                         (dict_set tbl_data filter_name (PyList [])) ;;
          fill_table rest tbl_data'
      end
  end.

(** [Table(tbl_data)]: the columns must have one length.  The table keeps
    the columns and the units set on them. *)
Record AstroTable : Type := mkTable {
  columns : dict;
  units : list (string * string)
}.

Definition same_lengths (d : dict) : bool :=
  match d with
  | [] => true
  | (_, c) :: d' =>
      forallb (fun kc => Nat.eqb (column_length (snd kc)) (column_length c)) d'
  end.

Definition Table_of_dict (d : dict) : outcome AstroTable :=
  if same_lengths d then Done (mkTable d []) else Abort (Lib ValueError).

(** [tbl[name].unit = unit] *)
Definition set_unit (tbl : AstroTable) (name unit_name : string)
  : outcome AstroTable :=
  match dict_get (columns tbl) name with
  | None => Abort (Lib KeyError)
  | Some _ => Done (mkTable (columns tbl) ((name, unit_name) :: units tbl))
  end.

(** The whole cell. *)
Definition build_table (filter_fnames : list string) : outcome AstroTable :=
  tbl_data <~ fill_table filter_fnames [] ;;
  let tbl_data := dict_set tbl_data "T" (NdArray Ts) in
  tbl <~ Table_of_dict tbl_data ;;
  set_unit tbl "T" "K".

End Cells.

(** [tbl[name]] as numbers. *)
Definition column_values (c : column) : list R :=
  match c with
  | PyList l => l
  | NdArray l => map IZR l
  end.

Definition tbl_getitem (tbl : AstroTable) (name : string) : result (list R) :=
  match dict_get (columns tbl) name with
  | Some c => Ok (column_values c)
  | None => Raise KeyError
  end.

(** ** Magnitudes at 100 pc and detection distances (the last two plots) *)

(** [m_lim = dict(g=27, r=26.5, i=26., z=25.5, y=24.7)] *)
Definition m_lim : list (string * R) :=
  [("g"%string, 27); ("r"%string, 26.5); ("i"%string, 26);
   ("z"%string, 25.5); ("y"%string, 24.7)].

Fixpoint m_lim_getitem (d : list (string * R)) (k : string) : result R :=
  match d with
  | [] => Raise KeyError
  | (k', v) :: d' => if String.eqb k' k then Ok v else m_lim_getitem d' k
  end.

(** A curve handed to [ax.plot]: the label, where one is given, the
    abscissae and the ordinates. *)
Record Curve : Type := mkCurve {
  label : option string;
  xdata : list R;
  ydata : list R
}.

(** ['${0}$'.format(fil)] *)
Definition band_label (fil : string) : string := ("$" ++ fil ++ "$")%string.

(** [zip('rizy', colors)]: four bands. *)
Definition rizy : list string := ["r"; "i"; "z"; "y"]%string.

(** [10**((m_lim[fil] - 0.5 - M)/5) * 10.] for one magnitude [M]. *)
Definition d_lim_of (ml M : R) : R := Rpower 10 ((ml - 0.5 - M) / 5) * 10.

Definition d_lim (tbl : AstroTable) (fil : string) : result (list R) :=
  ml <- m_lim_getitem m_lim fil ;;
  M <- tbl_getitem tbl fil ;;
  Ok (map (d_lim_of ml) M).

Fixpoint plot_each (body : string -> result Curve) (fils : list string)
  : result (list Curve) :=
  match fils with
  | [] => Ok []
  | fil :: rest =>
      c <- body fil ;;
      cs <- plot_each body rest ;;
      Ok (c :: cs)
  end.

(** The curves of "brown dwarfs in HSC". *)
Definition plot_distance_limits (tbl : AstroTable) : result (list Curve) :=
  plot_each (fun fil =>
               d <- d_lim tbl fil ;;
               T <- tbl_getitem tbl "T" ;;
               Ok (mkCurve (Some (band_label fil)) T d)) rizy.

(** The curves of "brown dwarfs at 100 pc": [tbl[fil] + 5]. *)
Definition plot_magnitudes_100pc (tbl : AstroTable) : result (list Curve) :=
  plot_each (fun fil =>
               T <- tbl_getitem tbl "T" ;;
               M <- tbl_getitem tbl fil ;;
               Ok (mkCurve (Some (band_label fil)) T (map (fun m => m + 5) M))) rizy.

(** ** The spectrum plot (cell "Plot spectrum, filter curves") *)

(** [quantity > v * unit], element by element, after conversion of the
    right-hand side to the unit of the array. *)
Definition q_gt (q : QArray) (v : R) (un : Unit) : result (list bool) :=
  k <- unit_to un (unit q) ;;
  Ok (map (fun x => Rltb (v * k) x) (value q)).

Definition q_lt (q : QArray) (v : R) (un : Unit) : result (list bool) :=
  k <- unit_to un (unit q) ;;
  Ok (map (fun x => Rltb x (v * k)) (value q)).

(** [a[mask]] for a boolean mask of the length of [a]. *)
Fixpoint compress (a : list R) (mask : list bool) : list R :=
  match a, mask with
  | x :: a', b :: mask' => if b then x :: compress a' mask' else compress a' mask'
  | _, _ => []
  end.

Definition bool_index (q : QArray) (mask : list bool) : result QArray :=
  if Nat.eqb (length (value q)) (length mask)
  then Ok (mkQ (compress (value q) mask) (unit q))
  else Raise IndexError.

(** [a.max()] *)
Definition array_max (a : list R) : result R :=
  match a with
  | [] => Raise ValueError
  | x :: a' => Ok (fold_left Rmax a' x)
  end.

(** [q / q.max()] *)
Definition normalise (q : QArray) : result QArray :=
  m <- array_max (value q) ;;
  Ok (mkQ (map (fun x => x / m) (value q)) (unit q / unit q)%U).

Section SpectrumPlot.

Variable fs : FileSystem.

(** The window [3800 A < lam < 11000 A] cut out of the model.  The two
    comparisons are made on exact numbers: what is stated of this function
    is stated for wavelengths that are [clear_of_window_edges], where the
    comparisons of the code on rounded values have the same outcome. *)
Definition select_window (model_spec_file : string) : result (QArray * QArray) :=
  '(lam, f_lam) <- load_model fs model_spec_file true ;;
  above <- q_gt lam 3800 u.angstrom ;;
  below <- q_lt lam 11000 u.angstrom ;;
  let _idx := map2 andb above below in
  lam' <- bool_index lam _idx ;;
  f_lam' <- bool_index f_lam _idx ;;
  Ok (lam', f_lam').

(** The loop over the filter files: narrow-band filters are skipped. *)
Fixpoint plot_filters (filter_fnames : list string) : outcome (list Curve) :=
  match filter_fnames with
  | [] => Done []
  | filter_fname :: rest =>
      match pattr_search filter_fname with
      | None => Abort AttributeError
      | Some filter_name =>
          if String.prefix "nb" filter_name then plot_filters rest
          else
            '(filter_lam, filter_resp) <~ lift (load_filter fs filter_fname true) ;;
            cs <~ plot_filters rest ;;
            Done (mkCurve None (value filter_lam) filter_resp :: cs)
      end
  end.

(** The whole cell: the filter curves, then the normalised spectrum. *)
Definition plot_spectrum (model_spec_file : string)
           (filter_fnames : list string) : outcome (list Curve) :=
  '(lam, f_lam) <~ lift (select_window model_spec_file) ;;
  cs <~ plot_filters filter_fnames ;;
  f_norm <~ lift (normalise f_lam) ;;
  Done (cs ++ [mkCurve None (value lam) (value f_norm)]).

End SpectrumPlot.

(** ** Auxiliary notions for the statements about the cells *)

Fixpoint all_alnum (s : string) : bool :=
  match s with
  | EmptyString => true
  | String c s' => is_alnum c && all_alnum s'
  end.

(** The magnitudes of one filter over a list of temperatures, in order. *)
Fixpoint magnitudes (fs : FileSystem) (filter_fname : string) (ts : list Z)
  : outcome (list R) :=
  match ts with
  | [] => Done []
  | T :: ts' =>
      mag <~ lift (get_abs_mag fs (model_fname T) filter_fname) ;;
      rest <~ magnitudes fs filter_fname ts' ;;
      Done (value mag :: rest)
  end.

(** The files whose curve the spectrum plot draws. *)
Definition is_plotted (filter_fname : string) : bool :=
  match pattr_search filter_fname with
  | Some filter_name => negb (String.prefix "nb" filter_name)
  | None => false
  end.

(** The window of the spectrum plot, in the unit of the model file. *)
Definition in_window_micron (l : R) : bool := Rltb 0.38 l && Rltb l 1.1.

(** A wavelength (in micron) that does not lie within [window_margin] of an
    edge of the window.  The code compares values that were converted and
    rounded in double precision, [select_window] compares exact numbers;
    the two decide alike on such wavelengths (the rounding of the
    conversion is below 1e-15 of the value), and may differ at an edge
    itself. *)
Definition window_margin : R := 1e-9.

Definition clear_of_window_edges (l : R) : Prop :=
  (l <= 0.38 - window_margin \/ 0.38 + window_margin <= l)
  /\ (l <= 1.1 - window_margin \/ 1.1 + window_margin <= l).

(** A file system for the cells: every file of the filter directory responds
    uniformly, every other file holds the flat spectrum. *)
Definition sample_cell_fs : FileSystem := fun path =>
  if String.prefix "../data/hsc_responses_v1/" path then Ok sample_flat_filter
  else Ok sample_flat_model.

(** The magnitude of the flat 5 mJy spectrum, and the table the driver cell
    builds over [sample_cell_fs] from the files of the five broad bands. *)
Definition sample_magnitude : R := -2.5 * log10 (0.005 / 3631).

Definition sample_filter_fnames : list string :=
  ["../data/hsc_responses_v1/hsc_g.dat"; "../data/hsc_responses_v1/hsc_r.dat";
   "../data/hsc_responses_v1/hsc_i.dat"; "../data/hsc_responses_v1/hsc_z.dat";
   "../data/hsc_responses_v1/hsc_y.dat"]%string.

Definition sample_table : AstroTable :=
  mkTable [("g"%string, PyList (map (fun _ => sample_magnitude) Ts));
           ("r"%string, PyList (map (fun _ => sample_magnitude) Ts));
           ("i"%string, PyList (map (fun _ => sample_magnitude) Ts));
           ("z"%string, PyList (map (fun _ => sample_magnitude) Ts));
           ("y"%string, PyList (map (fun _ => sample_magnitude) Ts));
           ("T"%string, NdArray Ts)]
          [("T"%string, "K"%string)].

(** The rows of [sample_model] in another order, a model that lies wholly
    in the infrared, and a filter file in descending wavelength. *)
Definition sample_model_shuffled : Table :=
  [("LAMBDA(mic)"%string, [0.5; 2; 0.25; 1]);
   ("FDET(milliJ)"%string, [6; 12; 3; 9])].

Definition sample_infrared_model : Table :=
  [("LAMBDA(mic)"%string, [2; 4]); ("FDET(milliJ)"%string, [3; 6])].

Definition sample_filter_descending : Table :=
  [("col1"%string, [25000; 10000; 4000]); ("col2"%string, [0.1; 0.8; 0.2])].





Definition sample_steep_model : Table :=
  [("LAMBDA(mic)"%string, [1; 0.5; 0.125]);
   ("FDET(milliJ)"%string, [100; 1; 1])].

Definition sample_steep_model_doubled : Table :=
  [("LAMBDA(mic)"%string, [1; 0.5; 0.125]);
   ("FDET(milliJ)"%string, map (fun f => 2 * f) [100; 1; 1])].

(** * Properties of the loaders *)

Lemma map2_map {A B C A' B' : Type} (f : A -> B -> C) (g : A' -> A)
      (h : B' -> B) (l1 : list A') (l2 : list B') :
  map2 f (map g l1) (map h l2) = map2 (fun a b => f (g a) (h b)) l1 l2.
Proof.
  revert l2; induction l1 as [|a l1 IH]; intros [|b l2]; simpl; auto.
  now rewrite IH.
Qed.

Lemma map2_ext {A B C : Type} (f g : A -> B -> C) (l1 : list A) (l2 : list B) :
  (forall a b, f a b = g a b) -> map2 f l1 l2 = map2 g l1 l2.
Proof.
  intros E; revert l2; induction l1 as [|a l1 IH]; intros [|b l2]; simpl; auto.
  now rewrite E, IH.
Qed.

Lemma map2_length {A B C : Type} (f : A -> B -> C) (l1 : list A) (l2 : list B) :
  length l1 = length l2 -> length (map2 f l1 l2) = length l1.
Proof.
  revert l2; induction l1 as [|a l1 IH]; intros [|b l2] E; simpl in *;
    try discriminate; auto.
Qed.

Lemma c_SI_pos : 0 < c_SI.
Proof. unfold c_SI; lra. Qed.

Lemma c_Aps_pos : 0 < c_Aps.
Proof. unfold c_Aps, c_SI; lra. Qed.

Section LoaderFacts.

Variable fs : FileSystem.

Open Scope string_scope.

(** [load_model] on the frequency axis, in closed form. *)
Lemma load_model_nu_eq path t lam fdet :
  fs path = Ok t ->
  getitem t "LAMBDA(mic)" = Ok lam ->
  getitem t "FDET(milliJ)" = Ok fdet ->
  load_model fs path false =
  Ok (mkQ (map (fun l => Hz_of_angstrom (angstrom_of_micron l)) lam) u.Hz,
      mkQ (map cgs_of_mJy fdet) (u.erg / u.s / u.cm ^ 2 / u.Hz)%U).
Proof.
  intros Hfs Hl Hf.
  unfold load_model, ascii_read. rewrite Hfs. simpl bind. rewrite Hl. simpl bind.
  unfold to, with_unit. simpl unit. unfold unit_to. simpl dim_eqb. simpl bind.
  unfold to_spectral. simpl unit. unfold unit_to. simpl dim_eqb. cbv iota.
  simpl scale. rewrite Hf. simpl bind.
  unfold to. simpl unit. unfold unit_to. simpl dim_eqb. simpl bind. simpl scale.
  apply f_equal, f_equal2; apply (f_equal2 mkQ); try reflexivity.
  - rewrite map_map. apply map_ext; intros l.
    unfold Hz_of_angstrom, angstrom_of_micron.
    replace (l * (1e-6 / 1e-10) * (1e-10 / 1)) with (l * 1e4 * 1e-10) by lra.
    lra.
  - apply map_ext; intros f. unfold cgs_of_mJy. lra.
Qed.

(** [load_model] on the wavelength axis, in closed form. *)
Lemma load_model_lambda_eq path t lam fdet :
  fs path = Ok t ->
  getitem t "LAMBDA(mic)" = Ok lam ->
  getitem t "FDET(milliJ)" = Ok fdet ->
  load_model fs path true =
  Ok (mkQ (map angstrom_of_micron lam) u.angstrom,
      mkQ (map2 (fun f l => cgs_of_mJy f * fla_factor (angstrom_of_micron l))
                fdet lam)
          (u.erg / u.s / u.cm ^ 2 / u.angstrom)%U).
Proof.
  intros Hfs Hl Hf.
  unfold load_model, ascii_read. rewrite Hfs. simpl bind. rewrite Hl. simpl bind.
  unfold to, with_unit. simpl unit. unfold unit_to. simpl dim_eqb. simpl bind.
  unfold to_spectral. simpl unit. unfold unit_to. simpl dim_eqb. cbv iota.
  simpl scale. rewrite Hf. simpl bind.
  unfold to. simpl unit. unfold unit_to. simpl dim_eqb. simpl bind. simpl scale.
  unfold to_spectral_density. simpl unit. unfold unit_to. simpl dim_eqb.
  cbv iota. unfold to_spectral. simpl unit. unfold unit_to. simpl dim_eqb.
  cbv iota. cbn [bind value]. simpl scale.
  apply f_equal, f_equal2; apply (f_equal2 mkQ); try reflexivity.
  - apply map_ext; intros l. unfold angstrom_of_micron. lra.
  - rewrite map_map, map2_map. apply map2_ext; intros f l.
    unfold cgs_of_mJy, fla_factor, angstrom_of_micron.
    replace (l * (1e-6 / 1e-10) * (1e-10 / 1e-10)) with (l * 1e4) by lra.
    simpl pow. lra.
Qed.

(** The per-wavelength conversion factor differs from sample to sample. *)
Lemma fla_factor_injective (w1 w2 : R) :
  0 < w1 -> 0 < w2 -> fla_factor w1 = fla_factor w2 -> w1 = w2.
Proof.
  intros H1 H2 E. unfold fla_factor in E.
  apply (f_equal Rinv) in E. rewrite !Rinv_inv in E.
  pose proof c_Aps_pos as Hc.
  assert (E2 : w1 ^ 2 = w2 ^ 2).
  { unfold Rdiv in E. apply Rmult_eq_reg_r in E; auto.
    apply Rinv_neq_0_compat; lra. }
  simpl in E2. nra.
Qed.

(** [load_filter], in closed form: the raw table must have two columns,
    which are taken by position. *)
Lemma load_filter_eq path n1 c1 n2 c2 (lambda_ : bool) :
  fs path = Ok [(n1, c1); (n2, c2)] ->
  load_filter fs path lambda_ =
  Ok (if lambda_ then mkQ c1 u.angstrom
      else mkQ (map Hz_of_angstrom c1) u.Hz, c2).
Proof.
  intros Hfs. unfold load_filter, ascii_read. rewrite Hfs. simpl.
  unfold to_spectral, with_unit. simpl unit. unfold unit_to. simpl dim_eqb.
  cbv iota. simpl bind. simpl scale. destruct lambda_; auto.
  apply f_equal, f_equal2; try reflexivity. apply (f_equal2 mkQ); try reflexivity.
  apply map_ext; intros w. unfold Hz_of_angstrom.
  replace (w * (1e-10 / 1)) with (w * 1e-10) by lra. lra.
Qed.

Lemma load_filter_inv path lambda_ ax resp :
  load_filter fs path lambda_ = Ok (ax, resp) ->
  exists n1 c1 n2, fs path = Ok [(n1, c1); (n2, resp)].
Proof.
  unfold load_filter, ascii_read. destruct (fs path) as [t|e]; simpl; try discriminate.
  destruct t as [|[n1 c1] [|[n2 c2] [|? ?]]]; simpl; try discriminate.
  unfold to_spectral, with_unit. simpl unit. unfold unit_to. simpl dim_eqb.
  cbv iota. simpl bind. destruct lambda_; intros E; injection E as _ E; subst;
    eauto.
Qed.

End LoaderFacts.

(** * The loaders: claims *)

Section LoaderClaims.

Open Scope string_scope.

(** C7. With the wavelength flag set, [load_model] returns the wavelength
    array (in angstrom) and the flux density per unit wavelength, each
    sample multiplied by the factor of its own wavelength, and that factor
    differs between any two distinct positive wavelengths; with the flag
    unset it returns the frequency array (in hertz) and the flux density per
    unit frequency. *)
Theorem load_model_axis_flag (fs : FileSystem) path t lam fdet :
  fs path = Ok t ->
  getitem t "LAMBDA(mic)" = Ok lam ->
  getitem t "FDET(milliJ)" = Ok fdet ->
  load_model fs path true =
    Ok (mkQ (map angstrom_of_micron lam) u.angstrom,
        mkQ (map2 (fun f l => cgs_of_mJy f * fla_factor (angstrom_of_micron l))
                  fdet lam)
            (u.erg / u.s / u.cm ^ 2 / u.angstrom)%U)
  /\ load_model fs path false =
    Ok (mkQ (map (fun l => Hz_of_angstrom (angstrom_of_micron l)) lam) u.Hz,
        mkQ (map cgs_of_mJy fdet) (u.erg / u.s / u.cm ^ 2 / u.Hz)%U)
  /\ (forall l1 l2, 0 < l1 -> 0 < l2 -> l1 <> l2 ->
       fla_factor (angstrom_of_micron l1) <> fla_factor (angstrom_of_micron l2)).
Proof.
  intros Hfs Hl Hf. split; [|split].
  - now apply load_model_lambda_eq with (t := t).
  - now apply load_model_nu_eq with (t := t).
  - intros l1 l2 H1 H2 Hne E. apply fla_factor_injective in E;
      unfold angstrom_of_micron in *; lra.
Qed.

Lemma load_model_axis_flag_witness :
  load_model sample_fs "T1800_g50_d2f0.c100" true =
    Ok (mkQ (map angstrom_of_micron [0.25; 0.5; 1; 2]) u.angstrom,
        mkQ (map2 (fun f l => cgs_of_mJy f * fla_factor (angstrom_of_micron l))
                  [3; 6; 9; 12] [0.25; 0.5; 1; 2])
            (u.erg / u.s / u.cm ^ 2 / u.angstrom)%U).
Proof.
  apply (load_model_axis_flag sample_fs "T1800_g50_d2f0.c100" sample_model
           [0.25; 0.5; 1; 2] [3; 6; 9; 12]); reflexivity.
Defined.

(** C8. For a model file whose wavelengths are non-zero, the frequency axis
    of [load_model] is in hertz and holds, sample by sample, the speed of
    light over the wavelength (in metres); converted back by the inverse
    relation it is the wavelength column of the file (in micron) and the
    wavelength axis [load_model] itself returns (in angstrom). *)
Theorem frequency_wavelength_round_trip (fs : FileSystem) path t lam fdet :
  fs path = Ok t ->
  getitem t "LAMBDA(mic)" = Ok lam ->
  getitem t "FDET(milliJ)" = Ok fdet ->
  Forall (fun l => l <> 0) lam ->
  exists nu fnu wv fla,
    load_model fs path false = Ok (nu, fnu)
    /\ load_model fs path true = Ok (wv, fla)
    /\ unit nu = u.Hz
    /\ value nu = map (fun l => c_SI / (l * 1e-6)) lam
    /\ wv = mkQ (map (fun l => l * 1e4) lam) u.angstrom
    /\ to_spectral nu u.micron = Ok (with_unit lam u.micron)
    /\ to_spectral nu u.angstrom = Ok wv.
Proof.
  intros Hfs Hl Hf Hnz.
  do 4 eexists. split; [|split; [|split; [|split; [|split; [|split]]]]].
  - eapply load_model_nu_eq; eassumption.
  - eapply load_model_lambda_eq; eassumption.
  - reflexivity.
  - cbn [value]. apply map_ext; intros l.
    unfold Hz_of_angstrom, angstrom_of_micron. f_equal. lra.
  - reflexivity.
  - unfold to_spectral, with_unit. simpl unit. unfold unit_to. simpl dim_eqb.
    cbv iota. cbn [value]. simpl scale. apply f_equal, (f_equal2 mkQ); auto.
    rewrite map_map. rewrite <- (map_id lam) at 2.
    apply map_ext_in; intros l Hin. rewrite Forall_forall in Hnz.
    specialize (Hnz l Hin). unfold Hz_of_angstrom, angstrom_of_micron, c_SI.
    field. lra.
  - unfold to_spectral, with_unit. simpl unit. unfold unit_to. simpl dim_eqb.
    cbv iota. cbn [value]. simpl scale. apply f_equal, (f_equal2 mkQ); auto.
    rewrite map_map.
    apply map_ext_in; intros l Hin. rewrite Forall_forall in Hnz.
    specialize (Hnz l Hin). unfold Hz_of_angstrom, angstrom_of_micron, c_SI.
    field. lra.
Qed.

Lemma frequency_wavelength_round_trip_witness :
  exists nu fnu wv fla,
    load_model sample_fs "T1800_g50_d2f0.c100" false = Ok (nu, fnu)
    /\ load_model sample_fs "T1800_g50_d2f0.c100" true = Ok (wv, fla)
    /\ unit nu = u.Hz
    /\ value nu = map (fun l => c_SI / (l * 1e-6)) [0.25; 0.5; 1; 2]
    /\ wv = mkQ (map (fun l => l * 1e4) [0.25; 0.5; 1; 2]) u.angstrom
    /\ to_spectral nu u.micron = Ok (with_unit [0.25; 0.5; 1; 2] u.micron)
    /\ to_spectral nu u.angstrom = Ok wv.
Proof.
  apply (frequency_wavelength_round_trip sample_fs "T1800_g50_d2f0.c100"
           sample_model [0.25; 0.5; 1; 2] [3; 6; 9; 12]); try reflexivity.
  repeat constructor; lra.
Defined.

(** C10. [load_filter] succeeds exactly on two-column files, and in both
    axis modes the response array it returns is the second column of the
    file, unchanged; the flag selects only the first component, the
    tabulated wavelength or the frequency derived from it. *)
Theorem load_filter_response_unchanged (fs : FileSystem) path lambda_ ax resp :
  load_filter fs path lambda_ = Ok (ax, resp) <->
  exists n1 c1 n2,
    fs path = Ok [(n1, c1); (n2, resp)]
    /\ ax = (if lambda_ then mkQ c1 u.angstrom
             else mkQ (map Hz_of_angstrom c1) u.Hz).
Proof.
  split.
  - intros H. destruct (load_filter_inv fs _ _ _ _ H) as (n1 & c1 & n2 & Hfs).
    exists n1, c1, n2. split; auto.
    rewrite (load_filter_eq fs _ _ _ _ _ _ Hfs) in H. now injection H as <-.
  - intros (n1 & c1 & n2 & Hfs & ->). now apply load_filter_eq with (n1 := n1) (n2 := n2).
Qed.

End LoaderClaims.

(** * The integrator: arithmetic of the library routines *)

(** Induction over the points of a grid, one panel (two intervals) at a
    time. *)
Lemma panel_ind {A : Type} (P : list A -> Prop) :
  P [] -> (forall p, P [p]) -> (forall p q, P [p; q]) ->
  (forall p q r rest, P (r :: rest) -> P (p :: q :: r :: rest)) ->
  forall l, P l.
Proof.
  intros H0 H1 H2 H3.
  refine (fix IH (l : list A) : P l :=
            match l with
            | [] => H0
            | p :: l1 =>
                match l1 with
                | [] => H1 p
                | q :: l2 =>
                    match l2 as l' return P l' -> P (p :: q :: l') with
                    | [] => fun _ => H2 p q
                    | r :: rest => fun X => H3 p q r rest X
                    end (IH l2)
                end
            end).
Qed.

Lemma nth_map_zero (f : R -> R) (l : list R) (i : nat) :
  f 0 = 0 -> nth i (map f l) 0 = f (nth i l 0).
Proof. intros E. rewrite <- E at 1. apply map_nth. Qed.

Lemma aref_map_zero (f : R -> R) (l : list R) (i : Z) :
  f 0 = 0 -> aref (map f l) i = f (aref l i).
Proof. intros E. unfold aref. now apply nth_map_zero. Qed.

Lemma take_map_zero (f : R -> R) (a : list R) (idx : list nat) :
  f 0 = 0 -> take (map f a) idx = map f (take a idx).
Proof.
  intros E. unfold take. rewrite map_map. apply map_ext; intros i.
  now apply nth_map_zero.
Qed.

Lemma take_length (a : list R) (idx : list nat) : length (take a idx) = length idx.
Proof. unfold take. now rewrite length_map. Qed.

Lemma map2_Rmult_scale_l (k : R) (a b : list R) :
  map2 Rmult (map (fun v => v * k) a) b = map (fun v => v * k) (map2 Rmult a b).
Proof.
  revert b; induction a as [|x a IH]; intros [|y b]; simpl; auto.
  rewrite IH. f_equal. lra.
Qed.

Lemma map2_Rmult_scale_r (k : R) (a b : list R) :
  map2 Rmult a (map (fun v => v * k) b) = map (fun v => v * k) (map2 Rmult a b).
Proof.
  revert b; induction a as [|x a IH]; intros [|y b]; simpl; auto.
  rewrite IH. f_equal. lra.
Qed.

(** Simpson's rule is linear in the ordinates. *)
Lemma simps_panel_scale (k x0 y0 x1 y1 x2 y2 : R) :
  simps_panel x0 (y0 * k) x1 (y1 * k) x2 (y2 * k)
  = simps_panel x0 y0 x1 y1 x2 y2 * k.
Proof. unfold simps_panel. cbv zeta. unfold Rdiv. ring. Qed.

Lemma panels_scale (k : R) (pts : list (R * R)) :
  panels (map (fun p => (fst p, snd p * k)) pts) = panels pts * k.
Proof.
  induction pts as [| [x0 y0] | [x0 y0] [x1 y1]
                   | [x0 y0] [x1 y1] [x2 y2] rest IH] using panel_ind;
    try (simpl; lra).
  change (panels (map (fun p => (fst p, snd p * k))
                      ((x0, y0) :: (x1, y1) :: (x2, y2) :: rest)))
    with (simps_panel x0 (y0 * k) x1 (y1 * k) x2 (y2 * k)
          + panels (map (fun p => (fst p, snd p * k)) ((x2, y2) :: rest))).
  rewrite IH, simps_panel_scale.
  change (panels ((x0, y0) :: (x1, y1) :: (x2, y2) :: rest))
    with (simps_panel x0 y0 x1 y1 x2 y2 + panels ((x2, y2) :: rest)).
  ring.
Qed.

Lemma combine_map_r {A B C : Type} (f : B -> C) (l1 : list A) (l2 : list B) :
  combine l1 (map f l2) = map (fun p => (fst p, f (snd p))) (combine l1 l2).
Proof.
  revert l2; induction l1 as [|a l1 IH]; intros [|b l2]; simpl; auto.
  now rewrite IH.
Qed.

Lemma basic_simps_scale (k : R) (start : nat) (y x : list R) :
  basic_simps start (map (fun v => v * k) y) x = basic_simps start y x * k.
Proof.
  unfold basic_simps. rewrite combine_map_r, skipn_map. apply panels_scale.
Qed.

Lemma simps_scale (k : R) (y x : list R) :
  simps (map (fun v => v * k) y) x = (s <- simps y x ;; Ok (s * k)).
Proof.
  unfold simps. rewrite length_map.
  destruct (Nat.eqb (length y) 0); [reflexivity|].
  destruct (Nat.even (length y)); cbn [bind].
  - rewrite !basic_simps_scale.
    rewrite !(nth_map_zero (fun v => v * k)) by lra.
    f_equal. lra.
  - now rewrite basic_simps_scale.
Qed.

Lemma weighted_flux_scale_flux (k : R) (flux nu resp : list R) :
  weighted_flux (map (fun v => v * k) flux) nu resp
  = (s <- weighted_flux flux nu resp ;; Ok (s * k)).
Proof.
  unfold weighted_flux.
  rewrite map2_Rmult_scale_l, (take_map_zero (fun v => v * k)) by lra.
  apply simps_scale.
Qed.

Lemma weighted_flux_scale_resp (k : R) (flux nu resp : list R) :
  weighted_flux flux nu (map (fun v => v * k) resp)
  = (s <- weighted_flux flux nu resp ;; Ok (s * k)).
Proof.
  unfold weighted_flux.
  rewrite map2_Rmult_scale_r, (take_map_zero (fun v => v * k)) by lra.
  apply simps_scale.
Qed.

Lemma filter_norm_scale (k : R) (nu resp : list R) :
  filter_norm nu (map (fun v => v * k) resp)
  = (s <- filter_norm nu resp ;; Ok (s * k)).
Proof.
  unfold filter_norm.
  rewrite (take_map_zero (fun v => v * k)) by lra.
  apply simps_scale.
Qed.

(** [np.interp] is linear in the tabulated ordinates. *)
Lemma interp_value_scale (k : R) (xp fp : list R) (lenxp : Z) (x : R) (j : Z) :
  interp_value xp (map (fun v => v * k) fp) lenxp x j
  = interp_value xp fp lenxp x j * k.
Proof.
  unfold interp_value.
  rewrite !(aref_map_zero (fun v => v * k)) by lra.
  destruct (j =? -1)%Z; auto.
  destruct (j =? lenxp)%Z; auto.
  destruct (j =? lenxp - 1)%Z; auto.
  destruct (Reqb (aref xp j) x); auto.
  unfold Rdiv. ring.
Qed.

Lemma interp_loop_scale (k : R) (xp fp : list R) (lenxp : Z) (xs : list R) (j : Z) :
  interp_loop xp (map (fun v => v * k) fp) lenxp xs j
  = map (fun v => v * k) (interp_loop xp fp lenxp xs j).
Proof.
  revert j; induction xs as [|x xs IH]; intros j; simpl; auto.
  now rewrite IH, interp_value_scale.
Qed.

Lemma np_interp_scale (k : R) (x xp fp : list R) :
  np_interp x xp (map (fun v => v * k) fp)
  = (r <- np_interp x xp fp ;; Ok (map (fun v => v * k) r)).
Proof.
  unfold np_interp. rewrite length_map.
  destruct (Z.of_nat (length xp) =? 0)%Z; auto.
  destruct (negb (Z.of_nat (length fp) =? Z.of_nat (length xp))%Z); auto.
  destruct (Z.of_nat (length xp) =? 1)%Z; cbn [bind].
  - f_equal. rewrite map_map. apply map_ext; intros v.
    rewrite !(aref_map_zero (fun v => v * k)) by lra.
    destruct (Rltb v (aref xp 0)); auto.
    destruct (Rltb (aref xp 0) v); auto.
  - now rewrite interp_loop_scale.
Qed.

(** * The integrator in closed form *)

Section MagnitudeFacts.

Variable fs : FileSystem.

Open Scope string_scope.

(** [get_abs_mag] computes the magnitude the specification describes: the
    unit bookkeeping of the code amounts to expressing the model flux in
    jansky. *)
Lemma get_abs_mag_eq p1 p2 t lam fdet n1 wl n2 resp :
  fs p1 = Ok t ->
  getitem t "LAMBDA(mic)" = Ok lam ->
  getitem t "FDET(milliJ)" = Ok fdet ->
  fs p2 = Ok [(n1, wl); (n2, resp)] ->
  get_abs_mag fs p1 p2 =
  (m <- spec_magnitude lam fdet wl resp ;; Ok (mkQ m u.dimensionless_unscaled)).
Proof.
  intros Hfs Hl Hf Hfs2.
  unfold get_abs_mag, spec_magnitude, flux_ratio.
  rewrite (load_model_nu_eq fs _ _ _ _ Hfs Hl Hf).
  rewrite (load_filter_eq fs _ _ _ _ _ false Hfs2).
  cbn [bind value unit qtake qmul_array].
  fold (model_nu_values lam). fold (filter_nu_values wl).
  destruct (np_interp (model_nu_values lam) (filter_nu_values wl) resp)
    as [rm|e]; cbn [bind]; auto.
  fold (weighted_flux (map cgs_of_mJy fdet) (model_nu_values lam) rm).
  fold (filter_norm (model_nu_values lam) rm).
  change (map cgs_of_mJy fdet) with (map (fun v => v * 1e-26) fdet).
  change (map Jy_of_mJy fdet) with (map (fun v => v * / 1000) fdet).
  rewrite !weighted_flux_scale_flux.
  destruct (weighted_flux fdet (model_nu_values lam) rm) as [S1|e];
    cbn [bind]; auto.
  destruct (filter_norm (model_nu_values lam) rm) as [S2|e]; cbn [bind]; auto.
  unfold np_log10, qdiv, qmul_unit, qtimes, with_unit. cbn [unit value].
  unfold unit_to.
  match goal with
  | |- context [dim_eqb ?a ?b] => change (dim_eqb a b) with true
  end.
  cbv iota. cbn [bind]. unfold qscale.
  cbn [value unit]. do 2 f_equal. f_equal. f_equal.
  simpl scale. unfold AB_zero_point_Jy. lra.
Qed.

End MagnitudeFacts.

(** * [argsort] sorts *)

Lemma Rleb_true (x y : R) : Rleb x y = true <-> x <= y.
Proof. unfold Rleb. destruct (Rle_dec x y); split; auto; discriminate. Qed.

Lemma Rleb_false (x y : R) : Rleb x y = false <-> y < x.
Proof.
  unfold Rleb. destruct (Rle_dec x y); split; auto; try discriminate; lra.
Qed.

Lemma Rltb_true (x y : R) : Rltb x y = true <-> x < y.
Proof. unfold Rltb. destruct (Rlt_dec x y); split; auto; discriminate. Qed.

Lemma Rltb_false (x y : R) : Rltb x y = false <-> y <= x.
Proof.
  unfold Rltb. destruct (Rlt_dec x y); split; auto; try discriminate; lra.
Qed.

Lemma Reqb_true (x y : R) : Reqb x y = true <-> x = y.
Proof. unfold Reqb. destruct (Req_dec_T x y); split; auto; discriminate. Qed.

Lemma insert_idx_perm (a : list R) (i : nat) (l : list nat) :
  Permutation (insert_idx a i l) (i :: l).
Proof.
  induction l as [|j l IH]; simpl; auto.
  destruct (Rleb (nth i a 0) (nth j a 0)); auto.
  rewrite IH. apply perm_swap.
Qed.

Lemma argsort_perm (a : list R) : Permutation (argsort a) (seq 0 (length a)).
Proof.
  unfold argsort. induction (seq 0 (length a)) as [|i l IH]; simpl; auto.
  rewrite insert_idx_perm. now constructor.
Qed.

Lemma argsort_length (a : list R) : length (argsort a) = length a.
Proof. rewrite (Permutation_length (argsort_perm a)). apply length_seq. Qed.

Lemma insert_idx_sorted (a : list R) (i : nat) (l : list nat) :
  Sorted (key_le a) l -> Sorted (key_le a) (insert_idx a i l).
Proof.
  induction l as [|j l IH]; intros Hs; simpl.
  - repeat constructor.
  - destruct (Rleb (nth i a 0) (nth j a 0)) eqn:E.
    + constructor; auto. constructor. now apply Rleb_true.
    + apply Rleb_false in E. inversion Hs as [|? ? Hs' Hhd]; subst.
      constructor; auto.
      destruct l as [|j' l]; simpl.
      * constructor. unfold key_le. lra.
      * destruct (Rleb (nth i a 0) (nth j' a 0)); constructor.
        -- unfold key_le. lra.
        -- now inversion Hhd.
Qed.

Lemma argsort_sorted (a : list R) : Sorted (key_le a) (argsort a).
Proof.
  unfold argsort. induction (seq 0 (length a)) as [|i l IH]; simpl.
  - constructor.
  - now apply insert_idx_sorted.
Qed.

Lemma key_le_trans (a : list R) : Relations_1.Transitive (key_le a).
Proof. intros i j k. unfold key_le. lra. Qed.

Lemma take_rows_sorted (a b : list R) (idx : list nat) :
  StronglySorted (key_le a) idx -> StronglySorted fst_le (take_rows a b idx).
Proof.
  induction 1 as [|i idx Hs IH Hall]; simpl; constructor; auto.
  unfold take_rows. rewrite Forall_map. eapply Forall_impl; [|exact Hall].
  intros j Hj. exact Hj.
Qed.

Lemma nth_map_in {A B : Type} (f : A -> B) (l : list A) (n : nat) (d : B) (d' : A) :
  (n < length l)%nat -> nth n (map f l) d = f (nth n l d').
Proof.
  revert n; induction l as [|x l IH]; intros [|n] H; simpl in *; try lia; auto.
  apply IH. lia.
Qed.

Lemma seq_rows (a b : list R) :
  length a = length b -> take_rows a b (seq 0 (length a)) = combine a b.
Proof.
  intros E. apply (nth_ext _ _ (0, 0) (0, 0)).
  - unfold take_rows. rewrite length_map, length_seq, length_combine. lia.
  - unfold take_rows. rewrite length_map, length_seq. intros n Hn.
    rewrite (nth_map_in _ _ _ _ 0%nat) by (rewrite length_seq; lia).
    rewrite seq_nth by lia. simpl. now rewrite combine_nth.
Qed.

Lemma take_rows_perm (a b : list R) :
  length a = length b ->
  Permutation (take_rows a b (argsort a)) (combine a b).
Proof.
  intros E. rewrite <- (seq_rows a b E). unfold take_rows.
  apply Permutation_map, argsort_perm.
Qed.

Lemma take_rows_fst (a b : list R) (idx : list nat) :
  map fst (take_rows a b idx) = take a idx.
Proof. unfold take_rows, take. rewrite map_map. reflexivity. Qed.

Lemma take_rows_snd (a b : list R) (idx : list nat) :
  map snd (take_rows a b idx) = take b idx.
Proof. unfold take_rows, take. rewrite map_map. reflexivity. Qed.

Lemma map_fst_combine (a b : list R) :
  length a = length b -> map fst (combine a b) = a.
Proof.
  revert b; induction a as [|x a IH]; intros [|y b] E; simpl in *;
    try discriminate; auto.
  f_equal. apply IH. lia.
Qed.

Lemma strict_of_nodup (l : list (R * R)) :
  StronglySorted fst_le l -> NoDup (map fst l) -> StronglySorted fst_lt l.
Proof.
  induction 1 as [|p l Hs IH Hall]; intros Hnd; constructor.
  - apply IH. now inversion Hnd.
  - inversion Hnd as [|? ? Hnotin _]; subst.
    rewrite Forall_forall in *. intros q Hq.
    specialize (Hall q Hq). unfold fst_le, fst_lt in *.
    destruct (Req_dec_T (fst p) (fst q)) as [E|N]; [|lra].
    exfalso. apply Hnotin. rewrite E. now apply in_map.
Qed.

(** Two strictly sorted arrangements of the same rows are equal. *)
Lemma strict_sorted_unique (l1 l2 : list (R * R)) :
  Permutation l1 l2 ->
  StronglySorted fst_lt l1 -> StronglySorted fst_lt l2 -> l1 = l2.
Proof.
  revert l2. induction l1 as [|p l1 IH]; intros l2 Hp H1 H2.
  - apply Permutation_nil in Hp. now subst.
  - destruct l2 as [|q l2].
    + apply Permutation_sym, Permutation_nil in Hp. discriminate.
    + assert (Epq : p = q).
      { inversion H1 as [|? ? _ Hall1]; inversion H2 as [|? ? _ Hall2]; subst.
        rewrite Forall_forall in Hall1, Hall2.
        assert (Hin1 : In p (q :: l2))
          by (eapply Permutation_in; [exact Hp|now left]).
        assert (Hin2 : In q (p :: l1))
          by (eapply Permutation_in; [apply Permutation_sym; exact Hp|now left]).
        destruct Hin1 as [E|Hin1]; auto.
        destruct Hin2 as [E|Hin2]; auto.
        specialize (Hall1 q Hin2). specialize (Hall2 p Hin1).
        unfold fst_lt in *. lra. }
      subst q. f_equal. apply IH.
      * now apply Permutation_cons_inv in Hp.
      * now inversion H1.
      * now inversion H2.
Qed.

Lemma argsort_rows_strict (a b : list R) :
  length a = length b -> NoDup a ->
  StronglySorted fst_lt (take_rows a b (argsort a)).
Proof.
  intros E Hnd. apply strict_of_nodup.
  - apply take_rows_sorted, Sorted_StronglySorted.
    + apply key_le_trans.
    + apply argsort_sorted.
  - eapply Permutation_NoDup.
    + apply Permutation_sym, Permutation_map, take_rows_perm, E.
    + now rewrite map_fst_combine.
Qed.

(** On pairwise distinct keys, the sorted rows depend only on the set of
    rows, not on the order they are given in. *)
Lemma argsort_rows_order_free (a b a' b' : list R) :
  length a = length b -> length a' = length b' -> NoDup a ->
  Permutation (combine a b) (combine a' b') ->
  take_rows a b (argsort a) = take_rows a' b' (argsort a').
Proof.
  intros E E' Hnd Hp.
  assert (Hnd' : NoDup a').
  { rewrite <- (map_fst_combine a' b' E').
    eapply Permutation_NoDup; [apply Permutation_map, Hp|].
    now rewrite map_fst_combine. }
  apply strict_sorted_unique.
  - rewrite (take_rows_perm a b E), (take_rows_perm a' b' E'). exact Hp.
  - now apply argsort_rows_strict.
  - now apply argsort_rows_strict.
Qed.

Lemma take_sorted (a : list R) : Sorted Rle (take a (argsort a)).
Proof.
  unfold take. pose proof (argsort_sorted a) as Hs.
  induction Hs as [|i idx Hs IH Hhd]; simpl; constructor; auto.
  destruct Hhd; simpl; constructor; auto.
Qed.

Lemma log10_mult (x y : R) : 0 < x -> 0 < y -> log10 (x * y) = log10 x + log10 y.
Proof.
  intros Hx Hy. unfold log10. rewrite ln_mult by assumption.
  unfold Rdiv. ring.
Qed.

Lemma ratio_cancel (k a b z : R) : k <> 0 -> a * k / (b * k * z) = a / (b * z).
Proof.
  intros Hk. unfold Rdiv. rewrite !Rinv_mult.
  generalize (/ b) (/ z); intros ib iz. field. exact Hk.
Qed.

Lemma fs_update_same (fs : FileSystem) (p : string) (t : Table) :
  fs_update fs p t p = Ok t.
Proof. unfold fs_update. now rewrite String.eqb_refl. Qed.

Lemma fs_update_other (fs : FileSystem) (p q : string) (t : Table) :
  q <> p -> fs_update fs p t q = fs q.
Proof.
  intros N. unfold fs_update. destruct (String.eqb_spec q p); congruence.
Qed.

(** * The integrator: claims about scaling *)

Section ScalingClaims.

Open Scope string_scope.


(** C4. Multiplying every filter response value by a positive constant [c]
    multiplies the resampled response, the numerator integral and the
    denominator integral by [c], and leaves the result of [get_abs_mag]
    unchanged. *)
Theorem magnitude_invariant_under_response_rescaling
        (fs : FileSystem) p1 p2 t lam fdet n1 wl n2 resp (c : R) :
  fs p1 = Ok t ->
  getitem t "LAMBDA(mic)" = Ok lam ->
  getitem t "FDET(milliJ)" = Ok fdet ->
  fs p2 = Ok [(n1, wl); (n2, resp)] ->
  p1 <> p2 ->
  0 < c ->
  (forall x xp, np_interp x xp (map (fun r => r * c) resp)
                = (rm <- np_interp x xp resp ;; Ok (map (fun r => r * c) rm)))
  /\ (forall flux nu rm, weighted_flux flux nu (map (fun r => r * c) rm)
                         = (s <- weighted_flux flux nu rm ;; Ok (s * c)))
  /\ (forall nu rm, filter_norm nu (map (fun r => r * c) rm)
                    = (s <- filter_norm nu rm ;; Ok (s * c)))
  /\ get_abs_mag (fs_update fs p2 [(n1, wl); (n2, map (fun r => r * c) resp)]) p1 p2
     = get_abs_mag fs p1 p2.
Proof.
  intros Hfs Hl Hf Hfs2 Hne Hc.
  split; [|split; [|split]].
  - intros x xp. apply np_interp_scale.
  - intros. apply weighted_flux_scale_resp.
  - intros. apply filter_norm_scale.
  - rewrite (get_abs_mag_eq fs _ _ _ _ _ _ _ _ _ Hfs Hl Hf Hfs2).
    rewrite (get_abs_mag_eq _ p1 p2 t lam fdet n1 wl n2 (map (fun r => r * c) resp));
      auto.
    + unfold spec_magnitude, flux_ratio. rewrite np_interp_scale.
      destruct (np_interp _ _ _) as [rm|e]; cbn [bind]; auto.
      rewrite weighted_flux_scale_resp, filter_norm_scale.
      destruct (weighted_flux _ _ _) as [S1|e]; cbn [bind]; auto.
      destruct (filter_norm _ _) as [S2|e]; cbn [bind]; auto.
      rewrite ratio_cancel by lra. reflexivity.
    + rewrite fs_update_other; auto.
    + apply fs_update_same.
Qed.

(** C6. Multiplying every model flux density by a positive constant [c]
    shifts the magnitude by [-2.5 * log10 c], wherever the magnitude is
    defined, that is, wherever the flux ratio inside the logarithm is
    positive. *)
Theorem magnitude_shift_under_flux_scaling
        (fs : FileSystem) p1 p2 t t' lam fdet n1 wl n2 resp (c r : R) :
  fs p1 = Ok t ->
  getitem t "LAMBDA(mic)" = Ok lam ->
  getitem t "FDET(milliJ)" = Ok fdet ->
  fs p2 = Ok [(n1, wl); (n2, resp)] ->
  p1 <> p2 ->
  getitem t' "LAMBDA(mic)" = Ok lam ->
  getitem t' "FDET(milliJ)" = Ok (map (fun f => c * f) fdet) ->
  0 < c ->
  flux_ratio lam fdet wl resp = Ok r ->
  0 < r ->
  exists m m',
    get_abs_mag fs p1 p2 = Ok (mkQ m u.dimensionless_unscaled)
    /\ get_abs_mag (fs_update fs p1 t') p1 p2 = Ok (mkQ m' u.dimensionless_unscaled)
    /\ m' = m - 2.5 * log10 c.
Proof.
  intros Hfs Hl Hf Hfs2 Hne Hl' Hf' Hc Hr Hrpos.
  exists (-2.5 * log10 r), (-2.5 * log10 (r * c)).
  split; [|split].
  - rewrite (get_abs_mag_eq fs _ _ _ _ _ _ _ _ _ Hfs Hl Hf Hfs2).
    unfold spec_magnitude. now rewrite Hr.
  - rewrite (get_abs_mag_eq _ p1 p2 t' lam (map (fun f => c * f) fdet) n1 wl n2 resp);
      auto.
    + unfold spec_magnitude.
      assert (Hr' : flux_ratio lam (map (fun f => c * f) fdet) wl resp = Ok (r * c)).
      { revert Hr. unfold flux_ratio.
        destruct (np_interp _ _ _) as [rm|e]; cbn [bind]; try discriminate.
        replace (map Jy_of_mJy (map (fun f => c * f) fdet))
          with (map (fun v => v * c) (map Jy_of_mJy fdet)).
        2:{ rewrite !map_map. apply map_ext; intros f. unfold Jy_of_mJy. lra. }
        rewrite weighted_flux_scale_flux.
        destruct (weighted_flux _ _ _) as [S1|e]; cbn [bind]; try discriminate.
        destruct (filter_norm _ _) as [S2|e]; cbn [bind]; try discriminate.
        intros E; injection E as <-. f_equal. unfold Rdiv. ring. }
      now rewrite Hr'.
    + apply fs_update_same.
    + rewrite fs_update_other; auto.
  - rewrite log10_mult by assumption. lra.
Qed.

End ScalingClaims.

(** * The index search of [np.interp] *)

Open Scope Z_scope.

Lemma shiftr1_bounds (d : Z) :
  0 < d -> 0 <= Z.shiftr d 1 < d.
Proof.
  intros Hd. rewrite Z.shiftr_div_pow2 by lia. change (2 ^ 1) with 2.
  pose proof (Z.div_mod d 2 ltac:(lia)). pose proof (Z.mod_pos_bound d 2 ltac:(lia)).
  lia.
Qed.

(** The searches stay within the index range, on any array. *)
Lemma linear_search_range (fuel : nat) (key : R) (arr : list R) (len i : Z) :
  i <= len -> i - 1 <= linear_search fuel key arr len i <= len - 1.
Proof.
  revert i; induction fuel as [|fuel IH]; intros i Hi; simpl; [lia|].
  destruct (i <? len) eqn:E; simpl; [|lia].
  apply Z.ltb_lt in E.
  destruct (Rleb (aref arr i) key); [|lia].
  specialize (IH (i + 1) ltac:(lia)). lia.
Qed.

Lemma bisect_range (fuel : nat) (key : R) (arr : list R) (imin imax : Z) :
  imin <= imax -> imin - 1 <= bisect fuel key arr imin imax <= imax - 1.
Proof.
  revert imin imax; induction fuel as [|fuel IH]; intros imin imax H; simpl; [lia|].
  destruct (imin <? imax) eqn:E; [|lia].
  apply Z.ltb_lt in E. pose proof (shiftr1_bounds (imax - imin) ltac:(lia)) as Hs.
  destruct (Rleb _ key).
  - specialize (IH (imin + Z.shiftr (imax - imin) 1 + 1) imax ltac:(lia)). lia.
  - specialize (IH imin (imin + Z.shiftr (imax - imin) 1) ltac:(lia)). lia.
Qed.

(** The loops end before their fuel does: any fuel that covers the range
    gives the same index. *)
Lemma linear_search_fuel (fuel fuel' : nat) (key : R) (arr : list R) (len i : Z) :
  len - i < Z.of_nat fuel -> len - i < Z.of_nat fuel' ->
  linear_search fuel key arr len i = linear_search fuel' key arr len i.
Proof.
  revert fuel' i; induction fuel as [|fuel IH]; intros [|fuel'] i H H';
    simpl; auto; destruct (i <? len) eqn:E; simpl; auto;
    apply Z.ltb_lt in E; try lia.
  destruct (Rleb (aref arr i) key); auto.
  apply IH; lia.
Qed.

Lemma bisect_fuel (fuel fuel' : nat) (key : R) (arr : list R) (imin imax : Z) :
  imax - imin <= Z.of_nat fuel -> imax - imin <= Z.of_nat fuel' ->
  bisect fuel key arr imin imax = bisect fuel' key arr imin imax.
Proof.
  revert fuel' imin imax; induction fuel as [|fuel IH];
    intros [|fuel'] imin imax H H'; simpl; auto.
  - destruct (imin <? imax) eqn:E; auto. apply Z.ltb_lt in E. lia.
  - destruct (imin <? imax) eqn:E; auto. apply Z.ltb_lt in E. lia.
  - destruct (imin <? imax) eqn:E; auto. apply Z.ltb_lt in E.
    pose proof (shiftr1_bounds (imax - imin) ltac:(lia)) as Hs.
    destruct (Rleb _ key); apply IH; lia.
Qed.

Lemma binary_search_range (key : R) (arr : list R) (len guess : Z) :
  1 <= len -> -1 <= binary_search_with_guess key arr len guess <= len.
Proof.
  intros Hlen. unfold binary_search_with_guess, LIKELY_IN_CACHE_SIZE.
  destruct (Rltb (aref arr (len - 1)) key); [lia|].
  destruct (Rltb key (aref arr 0)); [lia|].
  destruct (len <=? 4) eqn:E4.
  { pose proof (linear_search_range (Z.to_nat len) key arr len 1 ltac:(lia)). lia. }
  apply Z.leb_gt in E4.
  set (g1 := if guess >? len - 3 then len - 3 else guess).
  set (g := if g1 <? 1 then 1 else g1).
  assert (Hg : 1 <= g <= len - 3).
  { subst g g1. destruct (guess >? len - 3) eqn:Ea.
    - destruct (len - 3 <? 1) eqn:Eb; [apply Z.ltb_lt in Eb|]; lia.
    - rewrite Z.gtb_ltb in Ea. apply Z.ltb_ge in Ea.
      destruct (guess <? 1) eqn:Eb; [|apply Z.ltb_ge in Eb]; lia. }
  clearbody g. clear g1.
  destruct (Rltb key (aref arr g)).
  - destruct (Rltb key (aref arr (g - 1))); [|lia].
    match goal with
    | |- _ <= bisect ?f _ _ ?a ?b <= _ =>
        assert (Hab : 0 <= a /\ a <= b)
    end.
    { destruct ((g >? 8) && Rleb (aref arr (g - 8)) key) eqn:Ec; [|lia].
      apply andb_prop in Ec. destruct Ec as [Ec _]. rewrite Z.gtb_ltb in Ec.
      apply Z.ltb_lt in Ec. lia. }
    match goal with
    | |- _ <= bisect ?f _ _ ?a ?b <= _ =>
        pose proof (bisect_range f key arr a b (proj2 Hab))
    end. lia.
  - destruct (Rltb key (aref arr (g + 1))); [lia|].
    destruct (Rltb key (aref arr (g + 2))); [lia|].
    match goal with
    | |- _ <= bisect ?f _ _ ?a ?b <= _ =>
        assert (Hab : a <= b /\ b <= len)
    end.
    { destruct ((g <? len - 8 - 1) && Rltb key (aref arr (g + 8))) eqn:Ec; [|lia].
      apply andb_prop in Ec. destruct Ec as [Ec _]. apply Z.ltb_lt in Ec. lia. }
    match goal with
    | |- _ <= bisect ?f _ _ ?a ?b <= _ =>
        pose proof (bisect_range f key arr a b (proj1 Hab))
    end. lia.
Qed.

Close Scope Z_scope.

(** ** The search on a non-decreasing grid *)

Open Scope Z_scope.

Lemma is_cut_unique (key : R) (arr : list R) (j j' : Z) :
  is_cut key arr j -> is_cut key arr j' -> j = j'.
Proof.
  intros (Hr & Hle & Hgt) (Hr' & Hle' & Hgt').
  destruct (Z.lt_trichotomy j j') as [H|[H|H]]; auto; exfalso.
  - specialize (Hgt j' ltac:(lia)). specialize (Hle' j' ltac:(lia)). lra.
  - specialize (Hgt' j ltac:(lia)). specialize (Hle j ltac:(lia)). lra.
Qed.

Lemma linear_search_cut (key : R) (arr : list R) (fuel : nat) (i : Z) :
  nondecreasing arr ->
  1 <= i <= Z.of_nat (length arr) ->
  Z.of_nat (length arr) - i <= Z.of_nat fuel ->
  (forall i', 0 <= i' < i -> (aref arr i' <= key)%R) ->
  is_cut key arr (linear_search fuel key arr (Z.of_nat (length arr)) i).
Proof.
  intros Hs. revert i. induction fuel as [|fuel IH]; intros i Hi Hf Hlow; simpl.
  - split; [lia|split]; intros i' Hi'; [apply Hlow|]; lia.
  - destruct (i <? Z.of_nat (length arr)) eqn:E; simpl.
    + apply Z.ltb_lt in E. destruct (Rleb (aref arr i) key) eqn:Ek.
      * apply Rleb_true in Ek. apply IH; try lia.
        intros i' Hi'. destruct (Z.eq_dec i' i) as [->|N]; auto.
        apply Hlow. lia.
      * apply Rleb_false in Ek. split; [lia|split].
        -- intros i' Hi'. apply Hlow. lia.
        -- intros i' Hi'. pose proof (Hs i i' ltac:(lia) ltac:(lia)). lra.
    + apply Z.ltb_ge in E. split; [lia|split]; intros i' Hi'; [apply Hlow|]; lia.
Qed.

Lemma bisect_cut (key : R) (arr : list R) (fuel : nat) (imin imax : Z) :
  nondecreasing arr ->
  0 <= imin <= imax -> imax <= Z.of_nat (length arr) ->
  imax - imin <= Z.of_nat fuel ->
  (forall i, 0 <= i < imin -> (aref arr i <= key)%R) ->
  (forall i, imax <= i < Z.of_nat (length arr) -> (key < aref arr i)%R) ->
  is_cut key arr (bisect fuel key arr imin imax).
Proof.
  intros Hs. revert imin imax.
  induction fuel as [|fuel IH]; intros imin imax Hi Hmax Hf Hlow Hhigh; simpl.
  - assert (imin = imax) by lia. subst.
    split; [lia|split]; intros i' Hi'; [apply Hlow|apply Hhigh]; lia.
  - destruct (imin <? imax) eqn:E.
    + apply Z.ltb_lt in E.
      pose proof (shiftr1_bounds (imax - imin) ltac:(lia)) as Hsh.
      set (imid := imin + Z.shiftr (imax - imin) 1) in *.
      destruct (Rleb (aref arr imid) key) eqn:Ek.
      * apply Rleb_true in Ek. apply IH; try lia; auto.
        intros i' Hi'. pose proof (Hs i' imid ltac:(lia) ltac:(lia)). lra.
      * apply Rleb_false in Ek. apply IH; try lia; auto.
        intros i' Hi'. pose proof (Hs imid i' ltac:(lia) ltac:(lia)). lra.
    + apply Z.ltb_ge in E. assert (imin = imax) by lia. subst.
      split; [lia|split]; intros i' Hi'; [apply Hlow|apply Hhigh]; lia.
Qed.

(** Between the two range tests, the search returns the cut index, whatever
    the guess. *)
Lemma binary_search_cut (key : R) (arr : list R) (guess : Z) :
  nondecreasing arr ->
  1 <= Z.of_nat (length arr) ->
  Rltb (aref arr (Z.of_nat (length arr) - 1)) key = false ->
  Rltb key (aref arr 0) = false ->
  is_cut key arr (binary_search_with_guess key arr (Z.of_nat (length arr)) guess).
Proof.
  intros Hs Hlen Hhi Hlo. unfold binary_search_with_guess, LIKELY_IN_CACHE_SIZE.
  rewrite Hhi, Hlo. apply Rltb_false in Hhi, Hlo.
  set (len := Z.of_nat (length arr)) in *.
  destruct (len <=? 4) eqn:E4.
  { apply linear_search_cut; auto; fold len; try lia.
    intros i' Hi'. assert (i' = 0) by lia. now subst. }
  apply Z.leb_gt in E4.
  set (g1 := if guess >? len - 3 then len - 3 else guess).
  set (g := if g1 <? 1 then 1 else g1).
  assert (Hg : 1 <= g <= len - 3).
  { subst g g1. destruct (guess >? len - 3) eqn:Ea.
    - destruct (len - 3 <? 1) eqn:Eb; [apply Z.ltb_lt in Eb|]; lia.
    - rewrite Z.gtb_ltb in Ea. apply Z.ltb_ge in Ea.
      destruct (guess <? 1) eqn:Eb; [|apply Z.ltb_ge in Eb]; lia. }
  clearbody g. clear g1.
  destruct (Rltb key (aref arr g)) eqn:K0.
  - apply Rltb_true in K0.
    destruct (Rltb key (aref arr (g - 1))) eqn:K1.
    + apply Rltb_true in K1.
      destruct ((g >? 8) && Rleb (aref arr (g - 8)) key) eqn:Ec.
      * apply andb_prop in Ec. destruct Ec as [Ec Ek].
        rewrite Z.gtb_ltb in Ec. apply Z.ltb_lt in Ec. apply Rleb_true in Ek.
        apply bisect_cut; auto; fold len; try lia.
        -- intros i Hi. pose proof (Hs i (g - 8) ltac:(lia) ltac:(fold len; lia)). lra.
        -- intros i Hi. pose proof (Hs (g - 1) i ltac:(lia) ltac:(fold len; lia)). lra.
      * apply bisect_cut; auto; fold len; try lia.
        intros i Hi. pose proof (Hs (g - 1) i ltac:(lia) ltac:(fold len; lia)). lra.
    + apply Rltb_false in K1. split; [fold len; lia|split]; fold len.
      * intros i Hi. pose proof (Hs i (g - 1) ltac:(lia) ltac:(fold len; lia)). lra.
      * intros i Hi. pose proof (Hs g i ltac:(lia) ltac:(fold len; lia)). lra.
  - apply Rltb_false in K0.
    destruct (Rltb key (aref arr (g + 1))) eqn:K1.
    { apply Rltb_true in K1. split; [fold len; lia|split]; fold len.
      - intros i Hi. pose proof (Hs i g ltac:(lia) ltac:(fold len; lia)). lra.
      - intros i Hi. pose proof (Hs (g + 1) i ltac:(lia) ltac:(fold len; lia)). lra. }
    apply Rltb_false in K1.
    destruct (Rltb key (aref arr (g + 2))) eqn:K2.
    { apply Rltb_true in K2. split; [fold len; lia|split]; fold len.
      - intros i Hi. pose proof (Hs i (g + 1) ltac:(lia) ltac:(fold len; lia)). lra.
      - intros i Hi. pose proof (Hs (g + 2) i ltac:(lia) ltac:(fold len; lia)). lra. }
    apply Rltb_false in K2.
    destruct ((g <? len - 8 - 1) && Rltb key (aref arr (g + 8))) eqn:Ec.
    + apply andb_prop in Ec. destruct Ec as [Ec Ek].
      apply Z.ltb_lt in Ec. apply Rltb_true in Ek.
      apply bisect_cut; auto; fold len; try lia.
      * intros i Hi. pose proof (Hs i (g + 2) ltac:(lia) ltac:(fold len; lia)). lra.
      * intros i Hi. pose proof (Hs (g + 8) i ltac:(lia) ltac:(fold len; lia)). lra.
    + apply bisect_cut; auto; fold len; try lia.
      intros i Hi. pose proof (Hs i (g + 2) ltac:(lia) ltac:(fold len; lia)). lra.
Qed.

Lemma constant_of_both (arr : list R) :
  nonincreasing arr ->
  aref arr 0 = aref arr (Z.of_nat (length arr) - 1) ->
  nondecreasing arr.
Proof.
  intros Hd E i j Hij Hj.
  pose proof (Hd 0 i ltac:(lia) ltac:(lia)).
  pose proof (Hd j (Z.of_nat (length arr) - 1) ltac:(lia) ltac:(lia)).
  lra.
Qed.

(** On a monotone grid the index found does not depend on the guess. *)
Lemma binary_search_guess_free (key : R) (arr : list R) (g g' : Z) :
  monotone_grid arr ->
  1 <= Z.of_nat (length arr) ->
  binary_search_with_guess key arr (Z.of_nat (length arr)) g
  = binary_search_with_guess key arr (Z.of_nat (length arr)) g'.
Proof.
  intros Hm Hlen.
  destruct (Rltb (aref arr (Z.of_nat (length arr) - 1)) key) eqn:Hhi.
  { unfold binary_search_with_guess. now rewrite Hhi. }
  destruct (Rltb key (aref arr 0)) eqn:Hlo.
  { unfold binary_search_with_guess. now rewrite Hhi, Hlo. }
  assert (Hs : nondecreasing arr).
  { destruct Hm as [Hs|Hd]; auto. apply constant_of_both; auto.
    apply Rltb_false in Hhi, Hlo.
    pose proof (Hd 0 (Z.of_nat (length arr) - 1) ltac:(lia) ltac:(lia)). lra. }
  apply (is_cut_unique key arr); now apply binary_search_cut.
Qed.

Close Scope Z_scope.

(** * [np.interp] on monotone grids and on constant tables *)

Lemma interp_loop_pointwise (xp fp xs : list R) (j : Z) :
  monotone_grid xp ->
  (1 <= Z.of_nat (length xp))%Z ->
  interp_loop xp fp (Z.of_nat (length xp)) xs j
  = map (fun x => interp_value xp fp (Z.of_nat (length xp)) x
                    (binary_search_with_guess x xp (Z.of_nat (length xp)) 0)) xs.
Proof.
  intros Hm Hlen. revert j. induction xs as [|x xs IH]; intros j; simpl; auto.
  rewrite IH. now rewrite (binary_search_guess_free x xp j 0).
Qed.

(** On a monotone grid [np.interp] acts on each abscissa separately. *)
Lemma np_interp_monotone (x xp fp : list R) :
  monotone_grid xp ->
  np_interp x xp fp =
  if (Z.of_nat (length xp) =? 0)%Z then Raise ValueError
  else if negb (Z.of_nat (length fp) =? Z.of_nat (length xp))%Z then Raise ValueError
  else Ok (map (interp1 xp fp) x).
Proof.
  intros Hm. unfold np_interp.
  destruct (Z.of_nat (length xp) =? 0)%Z eqn:E0; auto.
  destruct (negb _); auto.
  unfold interp1.
  destruct (Z.of_nat (length xp) =? 1)%Z eqn:E1; auto.
  rewrite interp_loop_pointwise; auto.
  apply Z.eqb_neq in E0. lia.
Qed.

Lemma interp_value_const (k : R) (xp fp : list R) (x : R) (j : Z) :
  (forall i, (0 <= i < Z.of_nat (length xp))%Z -> aref fp i = k) ->
  (1 <= Z.of_nat (length xp))%Z ->
  (-1 <= j <= Z.of_nat (length xp))%Z ->
  interp_value xp fp (Z.of_nat (length xp)) x j = k.
Proof.
  intros Hk Hlen Hj. unfold interp_value.
  destruct (j =? -1)%Z eqn:E1; [apply Hk; lia|]. apply Z.eqb_neq in E1.
  destruct (j =? Z.of_nat (length xp))%Z eqn:E2; [apply Hk; lia|].
  apply Z.eqb_neq in E2.
  destruct (j =? Z.of_nat (length xp) - 1)%Z eqn:E3; [apply Hk; lia|].
  apply Z.eqb_neq in E3.
  destruct (Reqb (aref xp j) x); [apply Hk; lia|].
  rewrite !Hk by lia. unfold Rdiv. ring.
Qed.

Lemma interp_loop_const (k : R) (xp fp xs : list R) (j : Z) :
  (forall i, (0 <= i < Z.of_nat (length xp))%Z -> aref fp i = k) ->
  (1 <= Z.of_nat (length xp))%Z ->
  interp_loop xp fp (Z.of_nat (length xp)) xs j = map (fun _ => k) xs.
Proof.
  intros Hk Hlen. revert j. induction xs as [|x xs IH]; intros j; simpl; auto.
  rewrite IH, (interp_value_const k); auto.
  now apply binary_search_range.
Qed.

Lemma aref_map_const {A : Type} (k : R) (l : list A) (i : Z) :
  (0 <= i < Z.of_nat (length l))%Z -> aref (map (fun _ => k) l) i = k.
Proof.
  intros Hi. unfold aref.
  destruct l as [|a l]; [simpl in Hi; lia|].
  rewrite (nth_map_in _ _ _ _ a); auto. lia.
Qed.

(** A table whose response is the single value [k] resamples to [k] on
    every abscissa, whatever the grids. *)
Lemma np_interp_const (k : R) (x xp : list R) :
  xp <> [] ->
  np_interp x xp (map (fun _ => k) xp) = Ok (map (fun _ => k) x).
Proof.
  intros Hne. unfold np_interp. rewrite length_map, Z.eqb_refl. cbn [negb].
  assert (Hlen : (1 <= Z.of_nat (length xp))%Z)
    by (destruct xp; [congruence|simpl length; lia]).
  destruct (Z.of_nat (length xp) =? 0)%Z eqn:E0; [apply Z.eqb_eq in E0; lia|].
  destruct (Z.of_nat (length xp) =? 1)%Z eqn:E1.
  - f_equal. apply map_ext; intros v.
    rewrite !aref_map_const by lia.
    destruct (Rltb v (aref xp 0)); auto. destruct (Rltb (aref xp 0) v); auto.
  - f_equal. apply interp_loop_const; auto.
    intros i Hi. now apply aref_map_const.
Qed.

(** On a non-decreasing grid [np.interp] clamps to the nearest edge value
    outside the tabulated range and interpolates linearly between the two
    neighbouring tabulated points inside it. *)
Lemma interp1_sorted_spec (xp fp : list R) (x : R) :
  nondecreasing xp ->
  (1 <= Z.of_nat (length xp))%Z ->
  (x < aref xp 0 /\ interp1 xp fp x = aref fp 0)
  \/ (aref xp (Z.of_nat (length xp) - 1) < x
      /\ interp1 xp fp x = aref fp (Z.of_nat (length xp) - 1))
  \/ (exists j, is_cut x xp j /\ (0 <= j)%Z
      /\ ((j = Z.of_nat (length xp) - 1)%Z /\ interp1 xp fp x = aref fp j
          \/ (j < Z.of_nat (length xp) - 1)%Z
             /\ aref xp j <= x < aref xp (j + 1)
             /\ interp1 xp fp x
                = aref fp j + (aref fp (j + 1) - aref fp j)
                              / (aref xp (j + 1) - aref xp j) * (x - aref xp j))).
Proof.
  intros Hs Hlen. unfold interp1.
  destruct (Z.of_nat (length xp) =? 1)%Z eqn:E1.
  - apply Z.eqb_eq in E1. rewrite E1. simpl (1 - 1)%Z.
    destruct (Rltb x (aref xp 0)) eqn:Ka; [apply Rltb_true in Ka; auto|].
    destruct (Rltb (aref xp 0) x) eqn:Kb; [apply Rltb_true in Kb; auto|].
    apply Rltb_false in Ka, Kb. right; right. exists 0%Z.
    split; [|split]; try lia; auto.
    split; [lia|split]; intros i Hi.
    + assert (i = 0)%Z by lia. now subst.
    + lia.
  - apply Z.eqb_neq in E1.
    destruct (Rltb (aref xp (Z.of_nat (length xp) - 1)) x) eqn:Hhi.
    { right; left. apply Rltb_true in Hhi as Hhi'. split; auto.
      unfold binary_search_with_guess. rewrite Hhi. unfold interp_value.
      rewrite Z.eqb_refl.
      destruct (Z.of_nat (length xp) =? -1)%Z eqn:E; auto.
      apply Z.eqb_eq in E. lia. }
    destruct (Rltb x (aref xp 0)) eqn:Hlo.
    { left. apply Rltb_true in Hlo as Hlo'. split; auto.
      unfold binary_search_with_guess. now rewrite Hhi, Hlo. }
    right; right.
    pose proof (binary_search_cut x xp 0 Hs Hlen Hhi Hlo) as Hcut.
    set (j := binary_search_with_guess x xp (Z.of_nat (length xp)) 0) in *.
    apply Rltb_false in Hhi, Hlo.
    assert (Hj0 : (0 <= j)%Z).
    { destruct Hcut as (Hr & _ & Hgt).
      destruct (Z_lt_le_dec j 0) as [Hneg|]; auto.
      specialize (Hgt 0%Z ltac:(lia)). lra. }
    exists j. split; [|split]; auto.
    unfold interp_value.
    destruct (j =? -1)%Z eqn:Ea; [apply Z.eqb_eq in Ea; lia|].
    destruct Hcut as (Hr & Hle & Hgt).
    destruct (j =? Z.of_nat (length xp))%Z eqn:Eb; [apply Z.eqb_eq in Eb; lia|].
    destruct (j =? Z.of_nat (length xp) - 1)%Z eqn:Ec.
    { apply Z.eqb_eq in Ec. left; auto. }
    apply Z.eqb_neq in Ec. right. split; [lia|].
    split; [split; [apply Hle; lia|apply Hgt; lia]|].
    destruct (Reqb (aref xp j) x) eqn:Ed; [|lra].
    apply Reqb_true in Ed. rewrite Ed. lra.
Qed.

(** * Simpson's rule integrates a constant exactly *)

Lemma simps_panel_ones (x0 x1 x2 : R) :
  x0 < x1 -> x1 < x2 -> simps_panel x0 1 x1 1 x2 1 = x2 - x0.
Proof. intros H0 H1. unfold simps_panel. cbv zeta. field. lra. Qed.

Lemma combine_map_const {A : Type} (k : R) (xs : list A) :
  combine xs (map (fun _ => k) xs) = map (fun x => (x, k)) xs.
Proof. induction xs as [|x xs IH]; simpl; auto. now rewrite IH. Qed.

Lemma panels_ones (xs : list R) :
  StronglySorted Rlt xs ->
  panels (map (fun x => (x, 1)) xs)
  = nth (length xs - (if Nat.even (length xs) then 2 else 1)) xs 0 - nth 0 xs 0.
Proof.
  induction xs as [| x0 | x0 x1 | x0 x1 x2 rest IH] using panel_ind; intros Hs;
    try (simpl; lra).
  assert (H01 : x0 < x1 /\ x1 < x2).
  { inversion Hs as [|? ? Hs1 Hall0]; subst. inversion Hs1 as [|? ? _ Hall1]; subst.
    inversion Hall0; inversion Hall1; subst. auto. }
  assert (Hs2 : StronglySorted Rlt (x2 :: rest)).
  { inversion Hs as [|? ? Hs1 _]; subst. now inversion Hs1. }
  change (panels (map (fun x => (x, 1)) (x0 :: x1 :: x2 :: rest)))
    with (simps_panel x0 1 x1 1 x2 1 + panels (map (fun x => (x, 1)) (x2 :: rest))).
  rewrite (IH Hs2), simps_panel_ones by tauto.
  change (length (x0 :: x1 :: x2 :: rest)) with (S (S (length (x2 :: rest)))).
  change (Nat.even (S (S (length (x2 :: rest)))))
    with (Nat.even (length (x2 :: rest))).
  destruct (Nat.even (length (x2 :: rest))) eqn:Ev.
  - destruct rest as [|x3 rest]; [discriminate|].
    simpl length. replace (S (S (S (S (length rest))) - 2))%nat
      with (S (S (length rest))) by lia.
    replace (S (S (length rest)) - 2)%nat with (length rest) by lia.
    simpl. lra.
  - simpl length. replace (S (S (S (length rest))) - 1)%nat
      with (S (S (length rest))) by lia.
    replace (S (length rest) - 1)%nat with (length rest) by lia.
    simpl. lra.
Qed.

Lemma simps_ones (xs : list R) :
  StronglySorted Rlt xs -> xs <> [] ->
  simps (map (fun _ => 1) xs) xs = Ok (nth (length xs - 1) xs 0 - nth 0 xs 0).
Proof.
  intros Hs Hne. unfold simps, basic_simps. rewrite length_map.
  destruct xs as [|x0 xs]; [congruence|]. clear Hne.
  cbn [Nat.eqb length]. rewrite combine_map_const.
  destruct (Nat.even (S (length xs))) eqn:Ev.
  - destruct xs as [|x1 xs]; [discriminate|].
    cbn [skipn map].
    assert (Hs1 : StronglySorted Rlt (x1 :: xs)) by now inversion Hs.
    pose proof (panels_ones _ Hs) as P0. pose proof (panels_ones _ Hs1) as P1.
    cbn [map] in P0, P1. rewrite P0, P1.
    change (length (x0 :: x1 :: xs)) with (S (S (length xs))) in *.
    change (length (x1 :: xs)) with (S (length xs)) in *.
    rewrite Ev. change (Nat.even (S (S (length xs)))) with (Nat.even (length xs)) in Ev.
    assert (Ev1 : Nat.even (S (length xs)) = false).
    { rewrite Nat.even_succ, <- Nat.negb_even, Ev. reflexivity. }
    rewrite Ev1.
    replace (S (S (length xs)) - 2)%nat with (length xs) by lia.
    replace (S (S (length xs)) - 1)%nat with (S (length xs)) by lia.
    replace (S (length xs) - 1)%nat with (length xs) by lia.
    change (1 :: 1 :: map (fun _ : R => 1) xs)
      with (map (fun _ : R => 1) (x0 :: x1 :: xs)).
    rewrite !(nth_map_in (fun _ => 1) _ _ 0 0) by (simpl; lia).
    f_equal. simpl. lra.
  - cbn [skipn]. rewrite (panels_ones _ Hs).
    change (length (x0 :: xs)) with (S (length xs)). rewrite Ev. reflexivity.
Qed.

(** * A uniform response *)

Lemma Hz_of_angstrom_injective (w1 w2 : R) :
  0 < w1 -> 0 < w2 -> Hz_of_angstrom w1 = Hz_of_angstrom w2 -> w1 = w2.
Proof.
  intros H1 H2 E. unfold Hz_of_angstrom in E. pose proof c_SI_pos as Hc.
  unfold Rdiv in E. apply Rmult_eq_reg_l in E; [|lra].
  apply (f_equal Rinv) in E. rewrite !Rinv_inv in E. lra.
Qed.

Lemma model_nu_nodup (lam : list R) :
  Forall (fun l => 0 < l) lam -> NoDup lam -> NoDup (model_nu_values lam).
Proof.
  intros Hpos Hnd. unfold model_nu_values.
  apply NoDup_map_NoDup_ForallPairs; auto.
  intros l1 l2 H1 H2 E. rewrite Forall_forall in Hpos.
  pose proof (Hpos l1 H1). pose proof (Hpos l2 H2).
  apply Hz_of_angstrom_injective in E; unfold angstrom_of_micron in *; lra.
Qed.

Lemma argsort_in_range (a : list R) (i : nat) :
  In i (argsort a) -> (i < length a)%nat.
Proof.
  intros Hin. apply (Permutation_in _ (argsort_perm a)) in Hin.
  apply in_seq in Hin. lia.
Qed.

Lemma take_map_in (f : R -> R) (a : list R) (idx : list nat) :
  (forall i, In i idx -> (i < length a)%nat) ->
  take (map f a) idx = map f (take a idx).
Proof.
  intros Hr. unfold take. rewrite map_map. apply map_ext_in; intros i Hi.
  apply nth_map_in. auto.
Qed.

Lemma map_fst_strict (l : list (R * R)) :
  StronglySorted fst_lt l -> StronglySorted Rlt (map fst l).
Proof.
  induction 1 as [|p l Hs IH Hall]; simpl; constructor; auto.
  rewrite Forall_map. exact Hall.
Qed.

(** The integration grid is strictly ascending when the frequencies are
    pairwise distinct. *)
Lemma grid_strict (nu : list R) :
  NoDup nu -> StronglySorted Rlt (take nu (argsort nu)).
Proof.
  intros Hnd. rewrite <- (take_rows_fst nu nu).
  apply map_fst_strict, argsort_rows_strict; auto.
Qed.

Lemma map2_Rmult_const (k : R) (a : list R) {B : Type} (b : list B) :
  length a = length b ->
  map2 Rmult a (map (fun _ => k) b) = map (fun v => v * k) a.
Proof.
  revert b; induction a as [|x a IH]; intros [|y b] E; simpl in *;
    try discriminate; auto.
  f_equal. apply IH. lia.
Qed.

Lemma filter_norm_const (k : R) (nu : list R) :
  NoDup nu -> nu <> [] ->
  filter_norm nu (map (fun _ => k) nu)
  = Ok ((nth (length nu - 1) (take nu (argsort nu)) 0
         - nth 0 (take nu (argsort nu)) 0) * k).
Proof.
  intros Hnd Hne. unfold filter_norm.
  rewrite take_map_in by apply argsort_in_range.
  replace (map (fun _ => k) (take nu (argsort nu)))
    with (map (fun v => v * k) (map (fun _ => 1) (take nu (argsort nu))))
    by (rewrite map_map; apply map_ext; intros; lra).
  rewrite simps_scale, simps_ones.
  - cbn [bind]. now rewrite take_length, argsort_length.
  - now apply grid_strict.
  - intros E. apply (f_equal (@length R)) in E.
    rewrite take_length, argsort_length in E. destruct nu; [congruence|discriminate].
Qed.

Lemma weighted_flux_const (k : R) (flux nu : list R) :
  length flux = length nu ->
  weighted_flux flux nu (map (fun _ => k) nu)
  = (s <- simps (take flux (argsort nu)) (take nu (argsort nu)) ;; Ok (s * k)).
Proof.
  intros E. unfold weighted_flux.
  rewrite map2_Rmult_const by assumption.
  rewrite (take_map_zero (fun v => v * k)) by lra.
  apply simps_scale.
Qed.

Lemma simps_succeeds (y x : list R) : y <> [] -> exists s, simps y x = Ok s.
Proof.
  intros Hne. unfold simps. destruct y as [|y0 y]; [congruence|].
  cbn [length Nat.eqb]. destruct (Nat.even (S (length y))); eauto.
Qed.

Lemma grid_width_pos (nu : list R) :
  NoDup nu -> (2 <= length nu)%nat ->
  nth 0 (take nu (argsort nu)) 0 < nth (length nu - 1) (take nu (argsort nu)) 0.
Proof.
  intros Hnd Hlen. pose proof (grid_strict nu Hnd) as Hs.
  pose proof (take_length nu (argsort nu)) as Hl. rewrite argsort_length in Hl.
  destruct (take nu (argsort nu)) as [|g0 grid]; [simpl in Hl; lia|].
  simpl in Hl. replace (length nu - 1)%nat with (S (length grid - 1)) by lia.
  inversion Hs as [|? ? _ Hall]; subst. rewrite Forall_forall in Hall.
  apply Hall. simpl. apply nth_In. lia.
Qed.

(** The flux ratio of a uniformly responding filter is the band mean of the
    flux over the AB zero point. *)
Lemma flux_ratio_uniform (k : R) (lam fdet wl resp : list R) :
  length lam = length fdet ->
  (2 <= length lam)%nat ->
  Forall (fun l => 0 < l) lam -> NoDup lam ->
  np_interp (model_nu_values lam) (filter_nu_values wl) resp
  = Ok (map (fun _ => k) (model_nu_values lam)) ->
  k <> 0 ->
  exists mean,
    band_mean_flux (map Jy_of_mJy fdet) (model_nu_values lam) = Ok mean
    /\ flux_ratio lam fdet wl resp = Ok (mean / AB_zero_point_Jy).
Proof.
  intros Elen Hlen Hpos Hnd Hinterp Hk.
  pose proof (model_nu_nodup lam Hpos Hnd) as Hnu.
  assert (Hnl : length (model_nu_values lam) = length lam)
    by (unfold model_nu_values; apply length_map).
  assert (Hne : model_nu_values lam <> [])
    by (intros E; rewrite E in Hnl; simpl in Hnl; lia).
  destruct (simps_succeeds
              (take (map Jy_of_mJy fdet) (argsort (model_nu_values lam)))
              (take (model_nu_values lam) (argsort (model_nu_values lam))))
    as [S1 HS1].
  { intros E. apply (f_equal (@length R)) in E.
    rewrite take_length, argsort_length in E. simpl in E. lia. }
  unfold band_mean_flux, flux_ratio. rewrite Hinterp, HS1. cbn [bind].
  rewrite weighted_flux_const by (rewrite length_map; lia).
  rewrite HS1. cbn [bind]. rewrite filter_norm_const by assumption. cbn [bind].
  eexists; split; [reflexivity|]. f_equal.
  rewrite ratio_cancel by assumption.
  unfold Rdiv. rewrite Rinv_mult. ring.
Qed.

Lemma band_mean_flat (F : R) (nu : list R) :
  NoDup nu -> (2 <= length nu)%nat ->
  band_mean_flux (map (fun _ => F) nu) nu = Ok F.
Proof.
  intros Hnd Hlen. unfold band_mean_flux.
  assert (Hne : nu <> []) by (intros E; rewrite E in Hlen; simpl in Hlen; lia).
  pose proof (filter_norm_const F nu Hnd Hne) as Hn. unfold filter_norm in Hn.
  rewrite Hn. cbn [bind]. f_equal.
  pose proof (grid_width_pos nu Hnd Hlen). field. lra.
Qed.

(** A flat spectrum of [F] mJy seen through a uniformly responding filter:
    the flux ratio is [F] in jansky over the AB zero point. *)
Lemma flux_ratio_flat_uniform (k F : R) (lam wl resp : list R) :
  (2 <= length lam)%nat ->
  Forall (fun l => 0 < l) lam -> NoDup lam ->
  np_interp (model_nu_values lam) (filter_nu_values wl) resp
  = Ok (map (fun _ => k) (model_nu_values lam)) ->
  k <> 0 ->
  flux_ratio lam (map (fun _ => F) lam) wl resp
  = Ok (Jy_of_mJy F / AB_zero_point_Jy).
Proof.
  intros Hlen Hpos Hnd Hinterp Hk.
  destruct (flux_ratio_uniform k lam (map (fun _ => F) lam) wl resp)
    as (mean & Hmean & Hr); auto.
  { now rewrite length_map. }
  rewrite Hr. f_equal. f_equal.
  assert (Hnl : length (model_nu_values lam) = length lam)
    by (unfold model_nu_values; apply length_map).
  replace (map Jy_of_mJy (map (fun _ => F) lam))
    with (map (fun _ => Jy_of_mJy F) (model_nu_values lam)) in Hmean.
  2:{ unfold model_nu_values. now rewrite !map_map. }
  rewrite band_mean_flat in Hmean.
  - now injection Hmean.
  - now apply model_nu_nodup.
  - lia.
Qed.

(** * The order of the rows of the model file *)

Lemma nth_map2 (f : R -> R -> R) (a b : list R) (i : nat) :
  length a = length b -> (i < length a)%nat ->
  nth i (map2 f a b) 0 = f (nth i a 0) (nth i b 0).
Proof.
  revert b i; induction a as [|x a IH]; intros [|y b] [|i] E Hi; simpl in *;
    try lia; auto.
  apply IH; lia.
Qed.



Lemma take_as_rows (nu fdet : list R) (g : R -> R -> R) (idx : list nat) :
  length nu = length fdet ->
  (forall i, In i idx -> (i < length nu)%nat) ->
  take (map2 g fdet nu) idx
  = map (fun p => g (snd p) (fst p)) (take_rows nu fdet idx).
Proof.
  intros E Hr. unfold take, take_rows. rewrite map_map.
  apply map_ext_in; intros i Hi. cbn [fst snd].
  apply nth_map2; [lia|]. rewrite <- E. auto.
Qed.

Lemma map2_map_r (f : R -> R -> R) (g : R -> R) (a b : list R) :
  map2 f a (map g b) = map2 (fun x y => f x (g y)) a b.
Proof.
  revert b; induction a as [|x a IH]; intros [|y b]; simpl; auto.
  now rewrite IH.
Qed.

Lemma map2_map_l (f : R -> R -> R) (g : R -> R) (a b : list R) :
  map2 f (map g a) b = map2 (fun x y => f (g x) y) a b.
Proof.
  revert b; induction a as [|x a IH]; intros [|y b]; simpl; auto.
  now rewrite IH.
Qed.

Lemma map2_snd (g : R -> R) (a b : list R) :
  length a = length b -> map2 (fun _ y => g y) a b = map g b.
Proof.
  revert b; induction a as [|x a IH]; intros [|y b] E; simpl in *;
    try discriminate; auto.
  f_equal. apply IH. lia.
Qed.

(** Both integrals depend on the rows [(nu, flux)] of the model only
    through the rows in ascending order. *)
Lemma integrals_from_rows (g : R -> R) (nu fdet : list R) :
  length nu = length fdet ->
  weighted_flux (map Jy_of_mJy fdet) nu (map g nu)
  = simps (map (fun p => Jy_of_mJy (snd p) * g (fst p))
               (take_rows nu fdet (argsort nu)))
          (map fst (take_rows nu fdet (argsort nu)))
  /\ filter_norm nu (map g nu)
     = simps (map (fun p => g (fst p)) (take_rows nu fdet (argsort nu)))
             (map fst (take_rows nu fdet (argsort nu))).
Proof.
  intros E. unfold weighted_flux, filter_norm. rewrite take_rows_fst. split.
  - rewrite map2_map_l, map2_map_r.
    rewrite (take_as_rows nu fdet (fun x y => Jy_of_mJy x * g y)); auto.
    apply argsort_in_range.
  - rewrite <- (map2_snd g fdet nu) by lia.
    rewrite (take_as_rows nu fdet (fun _ y => g y)); auto.
    apply argsort_in_range.
Qed.

Lemma combine_map_l {A B C : Type} (f : A -> C) (l1 : list A) (l2 : list B) :
  combine (map f l1) l2 = map (fun p => (f (fst p), snd p)) (combine l1 l2).
Proof.
  revert l2; induction l1 as [|a l1 IH]; intros [|b l2]; simpl; auto.
  now rewrite IH.
Qed.

(** On pairwise distinct positive wavelengths and a monotone filter grid,
    the flux ratio does not depend on the order of the rows of the model. *)
Lemma flux_ratio_order_free (lam fdet lam' fdet' wl resp : list R) :
  length lam = length fdet -> length lam' = length fdet' ->
  Forall (fun l => 0 < l) lam -> NoDup lam ->
  Permutation (combine lam fdet) (combine lam' fdet') ->
  monotone_grid (filter_nu_values wl) ->
  flux_ratio lam' fdet' wl resp = flux_ratio lam fdet wl resp
  /\ take (model_nu_values lam') (argsort (model_nu_values lam'))
     = take (model_nu_values lam) (argsort (model_nu_values lam)).
Proof.
  intros E E' Hpos Hnd Hp Hm.
  assert (Hnl : length (model_nu_values lam) = length fdet)
    by (unfold model_nu_values; rewrite length_map; lia).
  assert (Hnl' : length (model_nu_values lam') = length fdet')
    by (unfold model_nu_values; rewrite length_map; lia).
  assert (Hrows : take_rows (model_nu_values lam) fdet (argsort (model_nu_values lam))
                  = take_rows (model_nu_values lam') fdet'
                              (argsort (model_nu_values lam'))).
  { apply argsort_rows_order_free; auto.
    - now apply model_nu_nodup.
    - unfold model_nu_values. rewrite !combine_map_l. now apply Permutation_map. }
  split.
  - unfold flux_ratio. rewrite !np_interp_monotone by assumption.
    destruct (Z.of_nat (length (filter_nu_values wl)) =? 0)%Z; auto.
    destruct (negb _); auto. cbn [bind].
    destruct (integrals_from_rows (interp1 (filter_nu_values wl) resp)
                (model_nu_values lam) fdet Hnl) as [-> ->].
    destruct (integrals_from_rows (interp1 (filter_nu_values wl) resp)
                (model_nu_values lam') fdet' Hnl') as [-> ->].
    now rewrite Hrows.
  - rewrite <- (take_rows_fst (model_nu_values lam) fdet).
    rewrite <- (take_rows_fst (model_nu_values lam') fdet').
    now rewrite Hrows.
Qed.

Lemma Hz_antitone (l1 l2 : R) :
  0 < l2 -> l2 < l1 ->
  Hz_of_angstrom (angstrom_of_micron l1) < Hz_of_angstrom (angstrom_of_micron l2).
Proof.
  intros H2 H12. unfold Hz_of_angstrom, angstrom_of_micron.
  pose proof c_SI_pos. unfold Rdiv. apply Rmult_lt_compat_l; auto.
  apply Rinv_lt_contravar; nra.
Qed.

Lemma model_nu_ascending (lam : list R) :
  Forall (fun l => 0 < l) lam -> StronglySorted Rgt lam ->
  StronglySorted Rlt (model_nu_values lam).
Proof.
  intros Hpos Hs. induction Hs as [|l lam Hs IH Hall]; simpl; constructor.
  - apply IH. now inversion Hpos.
  - unfold model_nu_values. rewrite Forall_map.
    inversion Hpos as [|? ? Hl Hrest]; subst.
    rewrite Forall_forall in *. intros l' Hin.
    apply Hz_antitone; auto. apply Hall; auto.
Qed.


(** A strictly ascending grid is its own sorted arrangement. *)
Lemma take_argsort_ascending (nu : list R) :
  StronglySorted Rlt nu -> take nu (argsort nu) = nu.
Proof.
  intros Hs. rewrite <- (take_rows_fst nu nu).
  assert (Hnd : NoDup nu).
  { clear -Hs. induction Hs as [|x l Hs IH Hall]; constructor; auto.
    intros Hin. rewrite Forall_forall in Hall. specialize (Hall x Hin). lra. }
  rewrite (strict_sorted_unique (take_rows nu nu (argsort nu)) (combine nu nu)).
  - now apply map_fst_combine.
  - now apply take_rows_perm.
  - now apply argsort_rows_strict.
  - clear -Hs. induction Hs as [|x l Hs IH Hall]; simpl; constructor; auto.
    rewrite Forall_forall in *. intros [a b] Hin. unfold fst_lt. simpl.
    apply Hall. now apply in_combine_l in Hin.
Qed.

Lemma StronglySorted_nth (Rel : R -> R -> Prop) (l : list R) :
  StronglySorted Rel l ->
  forall i j, (i < j < length l)%nat -> Rel (nth i l 0) (nth j l 0).
Proof.
  induction 1 as [|x l Hs IH Hall]; intros i j Hij; simpl in *; [lia|].
  destruct j as [|j]; [lia|]. destruct i as [|i].
  - rewrite Forall_forall in Hall. apply Hall, nth_In. lia.
  - apply IH. lia.
Qed.

Lemma Hz_of_angstrom_antitone (w1 w2 : R) :
  0 < w1 -> w1 < w2 -> Hz_of_angstrom w2 < Hz_of_angstrom w1.
Proof.
  intros H1 H12. unfold Hz_of_angstrom.
  pose proof c_SI_pos. unfold Rdiv. apply Rmult_lt_compat_l; auto.
  apply Rinv_lt_contravar; nra.
Qed.

(** A filter file in ascending wavelength has a descending frequency grid,
    and conversely. *)
Lemma filter_grid_descending (wl : list R) :
  Forall (fun w => 0 < w) wl -> StronglySorted Rlt wl ->
  nonincreasing (filter_nu_values wl).
Proof.
  intros Hpos Hs i j Hij Hj. unfold filter_nu_values in *.
  rewrite length_map in Hj. unfold aref.
  destruct (Z.eq_dec i j) as [->|N]; [lra|].
  rewrite !(nth_map_in Hz_of_angstrom _ _ 0 0) by lia.
  apply Rlt_le, Hz_of_angstrom_antitone.
  - rewrite Forall_forall in Hpos. apply Hpos, nth_In. lia.
  - apply (StronglySorted_nth Rlt); auto. lia.
Qed.

Lemma filter_grid_ascending (wl : list R) :
  Forall (fun w => 0 < w) wl -> StronglySorted Rgt wl ->
  nondecreasing (filter_nu_values wl).
Proof.
  intros Hpos Hs i j Hij Hj. unfold filter_nu_values in *.
  rewrite length_map in Hj. unfold aref.
  destruct (Z.eq_dec i j) as [->|N]; [lra|].
  rewrite !(nth_map_in Hz_of_angstrom _ _ 0 0) by lia.
  apply Rlt_le, Hz_of_angstrom_antitone.
  - rewrite Forall_forall in Hpos. apply Hpos, nth_In. lia.
  - apply (StronglySorted_nth Rgt); auto. lia.
Qed.

(** * The integrator: claims about ordering and uniform response *)


Lemma map_snd_combine (a b : list R) :
  length a = length b -> map snd (combine a b) = b.
Proof.
  revert b; induction a as [|x a IH]; intros [|y b] E; simpl in *;
    try discriminate; auto.
  f_equal. apply IH. lia.
Qed.

Lemma argsort_rows_ascending (nu b : list R) :
  length nu = length b -> StronglySorted Rlt nu ->
  take_rows nu b (argsort nu) = combine nu b.
Proof.
  intros E Hs.
  assert (Hnd : NoDup nu).
  { clear -Hs. induction Hs as [|x l Hs IH Hall]; constructor; auto.
    intros Hin. rewrite Forall_forall in Hall. specialize (Hall x Hin). lra. }
  apply strict_sorted_unique.
  - now apply take_rows_perm.
  - now apply argsort_rows_strict.
  - clear -Hs. revert b. induction Hs as [|x l Hs IH Hall]; intros [|y b];
      simpl; constructor; auto.
    rewrite Forall_forall in *. intros [c d] Hin. unfold fst_lt. simpl.
    apply Hall. now apply in_combine_l in Hin.
Qed.

Lemma take_ascending (nu b : list R) :
  length nu = length b -> StronglySorted Rlt nu -> take b (argsort nu) = b.
Proof.
  intros E Hs. rewrite <- (take_rows_snd nu b), argsort_rows_ascending by auto.
  now apply map_snd_combine.
Qed.


Section OrderingClaims.

Open Scope string_scope.




End OrderingClaims.

(** * Witnesses on the sample files *)

Section SampleWitnesses.

Open Scope string_scope.


Lemma magnitude_invariant_under_response_rescaling_witness :
  get_abs_mag (fs_update sample_fs "hsc_r.dat"
                 [("col1", [4000; 10000; 25000]);
                  ("col2", map (fun r => r * 3) [0.2; 0.8; 0.1])])
              "T1800_g50_d2f0.c100" "hsc_r.dat"
  = get_abs_mag sample_fs "T1800_g50_d2f0.c100" "hsc_r.dat".
Proof.
  apply (magnitude_invariant_under_response_rescaling sample_fs
           "T1800_g50_d2f0.c100" "hsc_r.dat"
           sample_model [0.25; 0.5; 1; 2] [3; 6; 9; 12]
           "col1" [4000; 10000; 25000] "col2" [0.2; 0.8; 0.1] 3);
    try reflexivity.
  - discriminate.
  - lra.
Defined.

Lemma sample_uniform_resampling :
  np_interp (model_nu_values [0.25; 0.5; 1; 2])
            (filter_nu_values [4000; 10000; 25000]) [0.7; 0.7; 0.7]
  = Ok (map (fun _ => 0.7) (model_nu_values [0.25; 0.5; 1; 2])).
Proof.
  apply (np_interp_const 0.7 (model_nu_values [0.25; 0.5; 1; 2])
           (filter_nu_values [4000; 10000; 25000])).
  discriminate.
Qed.


Lemma magnitude_shift_under_flux_scaling_witness :
  exists m m',
    get_abs_mag sample_fs "flat.c100" "flat.dat"
    = Ok (mkQ m u.dimensionless_unscaled)
    /\ get_abs_mag (fs_update sample_fs "flat.c100" sample_flat_model_doubled)
                   "flat.c100" "flat.dat"
       = Ok (mkQ m' u.dimensionless_unscaled)
    /\ m' = m - 2.5 * log10 2.
Proof.
  apply (magnitude_shift_under_flux_scaling sample_fs "flat.c100" "flat.dat"
           sample_flat_model sample_flat_model_doubled
           [0.25; 0.5; 1; 2] [5; 5; 5; 5]
           "col1" [4000; 10000; 25000] "col2" [0.7; 0.7; 0.7]
           2 (Jy_of_mJy 5 / AB_zero_point_Jy)); try reflexivity.
  - discriminate.
  - lra.
  - apply (flux_ratio_flat_uniform 0.7 5 [0.25; 0.5; 1; 2]
             [4000; 10000; 25000] [0.7; 0.7; 0.7]).
    + simpl; lia.
    + repeat constructor; lra.
    + nodup_reals.
    + exact sample_uniform_resampling.
    + lra.
  - unfold Jy_of_mJy, AB_zero_point_Jy. lra.
Defined.

Lemma load_filter_response_unchanged_witness :
  load_filter sample_fs "hsc_r.dat" true
  = Ok (mkQ [4000; 10000; 25000] u.angstrom, [0.2; 0.8; 0.1]).
Proof.
  apply (load_filter_response_unchanged sample_fs "hsc_r.dat" true).
  exists "col1", [4000; 10000; 25000], "col2". split; reflexivity.
Defined.

End SampleWitnesses.

(** * Resampling on a descending frequency grid *)

(** Whatever the grid, an abscissa above the last tabulated one receives
    the last tabulated ordinate: the first test of the index search. *)
Lemma interp_loop_above_last (xp fp xs : list R) (j : Z) :
  Forall (fun x => aref xp (Z.of_nat (length xp) - 1) < x) xs ->
  interp_loop xp fp (Z.of_nat (length xp)) xs j
  = map (fun _ => aref fp (Z.of_nat (length xp) - 1)) xs.
Proof.
  intros Hall. revert j. induction Hall as [|x xs Hx Hall IH]; intros j; simpl; auto.
  assert (Hj : binary_search_with_guess x xp (Z.of_nat (length xp)) j
               = Z.of_nat (length xp)).
  { unfold binary_search_with_guess.
    apply Rltb_true in Hx. now rewrite Hx. }
  rewrite Hj, IH. f_equal. unfold interp_value. rewrite Z.eqb_refl.
  destruct (Z.of_nat (length xp) =? -1)%Z eqn:E; auto.
  apply Z.eqb_eq in E. lia.
Qed.

Lemma np_interp_above_last (x xp fp : list R) :
  (2 <= length xp)%nat -> length fp = length xp ->
  Forall (fun v => aref xp (Z.of_nat (length xp) - 1) < v) x ->
  np_interp x xp fp = Ok (map (fun _ => aref fp (Z.of_nat (length xp) - 1)) x).
Proof.
  intros Hlen Efp Hall. unfold np_interp.
  destruct (Z.of_nat (length xp) =? 0)%Z eqn:E0; [apply Z.eqb_eq in E0; lia|].
  rewrite Efp, Z.eqb_refl. cbn [negb].
  destruct (Z.of_nat (length xp) =? 1)%Z eqn:E1; [apply Z.eqb_eq in E1; lia|].
  now rewrite interp_loop_above_last.
Qed.

(** For a filter file whose last row holds its longest wavelength, every
    model wavelength shorter than that one is resampled to the response of
    the last row. *)
Lemma np_interp_below_longest_wavelength (lam wl resp : list R) :
  (2 <= length wl)%nat -> length resp = length wl ->
  Forall (fun l => 0 < l /\ angstrom_of_micron l < nth (length wl - 1) wl 0) lam ->
  np_interp (model_nu_values lam) (filter_nu_values wl) resp
  = Ok (map (fun _ => nth (length wl - 1) resp 0) lam).
Proof.
  intros Hlen Eresp Hall.
  assert (Hl : length (filter_nu_values wl) = length wl)
    by (unfold filter_nu_values; apply length_map).
  rewrite np_interp_above_last; rewrite ?Hl; auto.
  - unfold model_nu_values. rewrite map_map. f_equal. unfold aref.
    apply map_ext; intros _. f_equal. lia.
  - unfold model_nu_values. rewrite Forall_map.
    eapply Forall_impl; [|exact Hall]. intros l [Hpos Hlt]. cbv beta.
    unfold aref, filter_nu_values.
    rewrite (nth_map_in Hz_of_angstrom _ _ 0 0) by lia.
    replace (Z.to_nat (Z.of_nat (length wl) - 1)) with (length wl - 1)%nat by lia.
    apply Hz_of_angstrom_antitone; auto. unfold angstrom_of_micron in *. lra.
Qed.

Section ResamplingClaim.

Open Scope string_scope.

(** C2, evaluated on a filter file in ascending wavelength.  The filter is
    tabulated at 4000, 10000 and 25000 angstrom with responses 0.2, 0.8 and
    0.1, so its frequency grid is descending.  The model has samples at
    2500 angstrom (outside the tabulated range, nearest tabulated response
    0.2), at 5000 angstrom (between the first two points), at 10000 angstrom
    (a tabulated point, response 0.8) and at 20000 angstrom: all four are
    resampled to 0.1, the response of the last row of the file. *)
Theorem resampling_on_ascending_wavelength_filter :
  exists model_nu model_fnu filter_nu filter_resp,
    load_model sample_fs "T1800_g50_d2f0.c100" false = Ok (model_nu, model_fnu)
    /\ load_filter sample_fs "hsc_r.dat" false = Ok (filter_nu, filter_resp)
    /\ filter_resp = [0.2; 0.8; 0.1]
    /\ nth 0 (value filter_nu) 0 < nth 0 (value model_nu) 0
    /\ nth 2 (value model_nu) 0 = nth 1 (value filter_nu) 0
    /\ np_interp (value model_nu) (value filter_nu) filter_resp
       = Ok [0.1; 0.1; 0.1; 0.1].
Proof.
  do 4 eexists. split; [|split; [|split; [|split; [|split]]]].
  - apply (load_model_nu_eq sample_fs "T1800_g50_d2f0.c100" sample_model
             [0.25; 0.5; 1; 2] [3; 6; 9; 12]); reflexivity.
  - apply (load_filter_eq sample_fs "hsc_r.dat" "col1" [4000; 10000; 25000]
             "col2" [0.2; 0.8; 0.1] false). reflexivity.
  - reflexivity.
  - cbn [value map nth]. apply Hz_of_angstrom_antitone;
      unfold angstrom_of_micron; lra.
  - cbn [value map nth]. unfold angstrom_of_micron. f_equal. lra.
  - cbn [value]. rewrite np_interp_above_last.
    + reflexivity.
    + simpl; lia.
    + reflexivity.
    + repeat constructor; cbn; apply Hz_of_angstrom_antitone;
        unfold angstrom_of_micron; lra.
Qed.

End ResamplingClaim.

(** * Failures *)

Lemma getitem_raise (t : Table) (name : string) (e : exn) :
  getitem t name = Raise e -> e = KeyError.
Proof.
  induction t as [|[n col] t IH]; simpl.
  - intros E. now injection E.
  - destruct (String.eqb n name); [discriminate|exact IH].
Qed.

Lemma load_model_raise_iff (fs : FileSystem) (path : string) (lambda_ : bool)
      (e : exn) :
  load_model fs path lambda_ = Raise e <->
  fs path = Raise e
  \/ exists t, fs path = Ok t /\ e = KeyError
                /\ (getitem t "LAMBDA(mic)" = Raise KeyError
                    \/ getitem t "FDET(milliJ)" = Raise KeyError).
Proof.
  destruct (fs path) as [t|e0] eqn:Hfs.
  - destruct (getitem t "LAMBDA(mic)") as [lam|e1] eqn:Hl.
    + destruct (getitem t "FDET(milliJ)") as [fdet|e2] eqn:Hf.
      * split.
        -- destruct lambda_.
           ++ rewrite (load_model_lambda_eq fs _ _ _ _ Hfs Hl Hf). discriminate.
           ++ rewrite (load_model_nu_eq fs _ _ _ _ Hfs Hl Hf). discriminate.
        -- intros [E|(t' & E & _ & [E'|E'])]; try discriminate;
             injection E as <-; congruence.
      * pose proof (getitem_raise _ _ _ Hf) as ->.
        assert (Hload : load_model fs path lambda_ = Raise KeyError).
        { unfold load_model, ascii_read. rewrite Hfs. cbn [bind]. rewrite Hl.
          cbn [bind]. unfold to, with_unit. cbn [unit]. unfold unit_to.
          simpl dim_eqb. cbn [bind]. unfold to_spectral. cbn [unit].
          unfold unit_to. simpl dim_eqb. cbv iota. cbn [bind]. rewrite Hf.
          reflexivity. }
        rewrite Hload. split.
        -- intros E; injection E as <-. right. exists t. auto.
        -- intros [E|(t' & _ & -> & _)]; [discriminate|reflexivity].
    + pose proof (getitem_raise _ _ _ Hl) as ->.
      assert (Hload : load_model fs path lambda_ = Raise KeyError).
      { unfold load_model, ascii_read. rewrite Hfs. cbn [bind]. rewrite Hl.
        reflexivity. }
      rewrite Hload. split.
      * intros E; injection E as <-. right. exists t. auto.
      * intros [E|(t' & _ & -> & _)]; [discriminate|reflexivity].
  - assert (Hload : load_model fs path lambda_ = Raise e0).
    { unfold load_model, ascii_read. rewrite Hfs. reflexivity. }
    rewrite Hload. split.
    + intros E; injection E as <-. now left.
    + intros [E|(t' & E & _)]; [now injection E as <-|discriminate].
Qed.

Lemma load_filter_raise_iff (fs : FileSystem) (path : string) (lambda_ : bool)
      (e : exn) :
  load_filter fs path lambda_ = Raise e <->
  fs path = Raise e
  \/ exists t, fs path = Ok t /\ length t <> 2%nat /\ e = InconsistentTableError.
Proof.
  destruct (fs path) as [t|e0] eqn:Hfs.
  - destruct t as [|[n1 c1] [|[n2 c2] [|c3 t]]];
      try (rewrite (load_filter_eq fs _ _ _ _ _ _ Hfs); split;
           [discriminate|
            intros [E|(t' & E & N & _)]; [discriminate|];
            injection E as <-; simpl in N; congruence]);
      (assert (Hload : load_filter fs path lambda_ = Raise InconsistentTableError)
        by (unfold load_filter, ascii_read; rewrite Hfs; reflexivity);
       rewrite Hload; split;
       [intros E; injection E as <-; right; eexists; split; [reflexivity|];
        split; [simpl; lia|reflexivity]
       |intros [E|(t' & _ & _ & ->)]; [discriminate|reflexivity]]).
  - assert (Hload : load_filter fs path lambda_ = Raise e0).
    { unfold load_filter, ascii_read. rewrite Hfs. reflexivity. }
    rewrite Hload. split.
    + intros E; injection E as <-. now left.
    + intros [E|(t' & E & _)]; [now injection E as <-|discriminate].
Qed.

Lemma np_interp_raise (x xp fp : list R) (e : exn) :
  np_interp x xp fp = Raise e ->
  e = ValueError /\ (xp = [] \/ length fp <> length xp).
Proof.
  unfold np_interp.
  destruct (Z.of_nat (length xp) =? 0)%Z eqn:E0.
  { intros E; injection E as <-. split; auto. left.
    apply Z.eqb_eq in E0. destruct xp; [reflexivity|simpl in E0; lia]. }
  destruct (Z.of_nat (length fp) =? Z.of_nat (length xp))%Z eqn:E1; cbn [negb].
  - destruct (Z.of_nat (length xp) =? 1)%Z; discriminate.
  - intros E; injection E as <-. split; auto. right.
    apply Z.eqb_neq in E1. lia.
Qed.

Lemma simps_raise (y x : list R) (e : exn) :
  simps y x = Raise e -> e = IndexError /\ y = [].
Proof.
  unfold simps. destruct y as [|y0 y]; cbn [length Nat.eqb].
  - intros E; injection E as <-. auto.
  - destruct (Nat.even (S (length y))); discriminate.
Qed.

Lemma spec_magnitude_raise (lam fdet wl resp : list R) (e : exn) :
  spec_magnitude lam fdet wl resp = Raise e ->
  (e = ValueError /\ (wl = [] \/ length resp <> length wl))
  \/ (e = IndexError /\ lam = []).
Proof.
  unfold spec_magnitude, flux_ratio, weighted_flux, filter_norm.
  destruct (np_interp _ _ _) as [rm|e0] eqn:Hi; cbn [bind].
  - assert (Hempty : forall (a : list R),
               take a (argsort (model_nu_values lam)) = [] -> lam = []).
    { intros a E. apply (f_equal (@length R)) in E.
      rewrite take_length, argsort_length in E. unfold model_nu_values in E.
      rewrite length_map in E. destruct lam; [reflexivity|discriminate]. }
    destruct (simps (take (map2 _ _ _) _) _) as [S1|e1] eqn:H1; cbn [bind].
    + destruct (simps (take rm _) _) as [S2|e2] eqn:H2; cbn [bind]; [discriminate|].
      intros E; injection E as <-. right.
      apply simps_raise in H2. destruct H2 as [-> H2]. eauto.
    + intros E; injection E as <-. right.
      apply simps_raise in H1. destruct H1 as [-> H1]. eauto.
  - intros E; injection E as <-. left.
    apply np_interp_raise in Hi. destruct Hi as [-> [Hi|Hi]]; split; auto.
    + left. unfold filter_nu_values in Hi. now apply map_eq_nil in Hi.
    + right. unfold filter_nu_values in Hi. now rewrite length_map in Hi.
Qed.

Lemma load_model_ok_inv (fs : FileSystem) (path : string) (lambda_ : bool)
      (m : QArray * QArray) :
  load_model fs path lambda_ = Ok m ->
  exists t lam fdet,
    fs path = Ok t
    /\ getitem t "LAMBDA(mic)"%string = Ok lam
    /\ getitem t "FDET(milliJ)"%string = Ok fdet.
Proof.
  intros Hok.
  destruct (fs path) as [t|e0] eqn:Hfs.
  - destruct (getitem t "LAMBDA(mic)"%string) as [lam|e1] eqn:Hl.
    + destruct (getitem t "FDET(milliJ)"%string) as [fdet|e2] eqn:Hf;
        [exists t, lam, fdet; repeat split; assumption|].
      pose proof (getitem_raise _ _ _ Hf) as ->.
      assert (load_model fs path lambda_ = Raise KeyError); [|congruence].
      apply load_model_raise_iff. right. exists t. auto.
    + pose proof (getitem_raise _ _ _ Hl) as ->.
      assert (load_model fs path lambda_ = Raise KeyError); [|congruence].
      apply load_model_raise_iff. right. exists t. auto.
  - assert (load_model fs path lambda_ = Raise e0); [|congruence].
    apply load_model_raise_iff. now left.
Qed.

Lemma np_interp_ok (x xp fp r : list R) :
  np_interp x xp fp = Ok r -> xp <> [] /\ length fp = length xp.
Proof.
  unfold np_interp.
  destruct (Z.of_nat (length xp) =? 0)%Z eqn:E0; [discriminate|].
  destruct (Z.of_nat (length fp) =? Z.of_nat (length xp))%Z eqn:E1;
    cbn [negb]; [|discriminate].
  intros _. apply Z.eqb_neq in E0. apply Z.eqb_eq in E1. split; [|lia].
  intros ->. now apply E0.
Qed.

Lemma np_interp_succeeds (x xp fp : list R) :
  xp <> [] -> length fp = length xp ->
  exists r, np_interp x xp fp = Ok r /\ length r = length x.
Proof.
  intros Hne Hlen. destruct xp as [|a [|b xp]]; [congruence| |].
  - rewrite np_interp_monotone.
    + cbn [length Z.of_nat]. rewrite Hlen. cbn. eexists. split; [reflexivity|].
      apply length_map.
    + left. intros i j Hij Hj. cbn in Hj.
      replace j with 0%Z by lia. replace i with 0%Z by lia. lra.
  - unfold np_interp.
    destruct (Z.of_nat (length (a :: b :: xp)) =? 0)%Z eqn:E0;
      [apply Z.eqb_eq in E0; cbn [length] in E0; lia|].
    rewrite Hlen, Z.eqb_refl. cbn [negb].
    destruct (Z.of_nat (length (a :: b :: xp)) =? 1)%Z eqn:E1;
      [apply Z.eqb_eq in E1; cbn [length] in E1; lia|].
    eexists. split; [reflexivity|].
    generalize 0%Z. generalize (Z.of_nat (length (a :: b :: xp))).
    generalize (a :: b :: xp). intros xp' n. clear.
    induction x as [|v x IH]; intros j; cbn [interp_loop length]; auto.
Qed.

Lemma spec_magnitude_ok_iff (lam fdet wl resp : list R) :
  (exists m, spec_magnitude lam fdet wl resp = Ok m) <->
  lam <> [] /\ wl <> [] /\ length resp = length wl.
Proof.
  unfold spec_magnitude, flux_ratio. split.
  - intros [m H].
    destruct (np_interp (model_nu_values lam) (filter_nu_values wl) resp)
      as [r|e] eqn:Hi; cbn [bind] in H; [|discriminate].
    destruct (np_interp_ok _ _ _ _ Hi) as [Hne Hlen].
    unfold filter_nu_values in Hne, Hlen. rewrite length_map in Hlen.
    split; [|split; auto].
    + intros ->. cbn in H. discriminate.
    + intros ->. now apply Hne.
  - intros (Hlam & Hwl & Hlen).
    destruct (np_interp_succeeds (model_nu_values lam) (filter_nu_values wl) resp)
      as (r & -> & _).
    { unfold filter_nu_values. destruct wl; [congruence|discriminate]. }
    { unfold filter_nu_values. now rewrite length_map. }
    cbn [bind]. unfold weighted_flux, filter_norm.
    assert (Hy : forall a, take a (argsort (model_nu_values lam)) <> []).
    { intros a E. apply (f_equal (@length R)) in E.
      rewrite take_length, argsort_length in E. unfold model_nu_values in E.
      rewrite length_map in E. destruct lam; [congruence|discriminate]. }
    destruct (simps_succeeds _ (take (model_nu_values lam)
                                     (argsort (model_nu_values lam)))
                (Hy (map2 Rmult (map Jy_of_mJy fdet) r))) as [s1 ->].
    destruct (simps_succeeds _ (take (model_nu_values lam)
                                     (argsort (model_nu_values lam)))
                (Hy r)) as [s2 ->].
    cbn [bind]. eauto.
Qed.

Section FailureClaim.

Open Scope string_scope.

(** C9. The loaders raise exactly the exception of the reader (missing or
    malformed file), or the exception for an absent column (of a wrong
    number of columns, for the filter), and nothing else; [get_abs_mag]
    handles no exception: a failure of [load_model], then of [load_filter],
    then of the resampling or of the integration, is the failure of the
    call, and a result is returned only when every step has succeeded.  A
    numeric-domain condition is no exception: whenever both files are read
    and have a row, the call returns [-2.5 log10] of the flux ratio,
    whatever the sign of that ratio. *)
Theorem errors_propagate (fs : FileSystem) (p1 p2 : string) :
  (forall lambda_ e,
      load_model fs p1 lambda_ = Raise e <->
      fs p1 = Raise e
      \/ exists t, fs p1 = Ok t /\ e = KeyError
                   /\ (getitem t "LAMBDA(mic)" = Raise KeyError
                       \/ getitem t "FDET(milliJ)" = Raise KeyError))
  /\ (forall lambda_ e,
         load_filter fs p2 lambda_ = Raise e <->
         fs p2 = Raise e
         \/ exists t, fs p2 = Ok t /\ length t <> 2%nat
                      /\ e = InconsistentTableError)
  /\ (forall e, load_model fs p1 false = Raise e ->
                get_abs_mag fs p1 p2 = Raise e)
  /\ (forall m e, load_model fs p1 false = Ok m ->
                  load_filter fs p2 false = Raise e ->
                  get_abs_mag fs p1 p2 = Raise e)
  /\ (forall e, get_abs_mag fs p1 p2 = Raise e ->
                load_model fs p1 false = Raise e
                \/ (exists m, load_model fs p1 false = Ok m
                              /\ load_filter fs p2 false = Raise e)
                \/ (exists t lam fdet n1 wl n2 resp,
                       fs p1 = Ok t
                       /\ getitem t "LAMBDA(mic)" = Ok lam
                       /\ getitem t "FDET(milliJ)" = Ok fdet
                       /\ fs p2 = Ok [(n1, wl); (n2, resp)]
                       /\ ((e = ValueError
                            /\ (wl = [] \/ length resp <> length wl))
                           \/ (e = IndexError /\ lam = []))))
  /\ (forall r, get_abs_mag fs p1 p2 = Ok r ->
                exists m f, load_model fs p1 false = Ok m
                            /\ load_filter fs p2 false = Ok f)
  /\ (forall t lam fdet n1 wl n2 resp,
         fs p1 = Ok t ->
         getitem t "LAMBDA(mic)" = Ok lam ->
         getitem t "FDET(milliJ)" = Ok fdet ->
         fs p2 = Ok [(n1, wl); (n2, resp)] ->
         lam <> [] -> wl <> [] -> length resp = length wl ->
         exists ratio,
           flux_ratio lam fdet wl resp = Ok ratio
           /\ get_abs_mag fs p1 p2
              = Ok (mkQ (-2.5 * log10 ratio) u.dimensionless_unscaled)).
Proof.
  split; [|split; [|split; [|split; [|split; [|split]]]]].
  - intros. apply load_model_raise_iff.
  - intros. apply load_filter_raise_iff.
  - intros e H. unfold get_abs_mag. now rewrite H.
  - intros [nu fnu] e H1 H2. unfold get_abs_mag. rewrite H1. cbn [bind].
    now rewrite H2.
  - intros e H.
    destruct (load_model fs p1 false) as [m|e1] eqn:H1.
    + destruct (load_filter fs p2 false) as [[fnu fresp]|e2] eqn:H2.
      * right; right.
        destruct (load_model_ok_inv _ _ _ _ H1) as (t & lam & fdet & Hfs & Hl & Hf).
        destruct (load_filter_inv _ _ _ _ _ H2) as (n1 & wl & n2 & Hfs2).
        exists t, lam, fdet, n1, wl, n2, fresp. repeat (split; auto).
        rewrite (get_abs_mag_eq fs _ _ _ _ _ _ _ _ _ Hfs Hl Hf Hfs2) in H.
        destruct (spec_magnitude lam fdet wl fresp) as [v|e3] eqn:Hs;
          cbn [bind] in H; [discriminate|].
        injection H as <-. now apply spec_magnitude_raise in Hs.
      * right; left. exists m. split; auto.
        unfold get_abs_mag in H. rewrite H1 in H. cbn [bind] in H.
        destruct m as [nu fnu]. rewrite H2 in H. cbn [bind] in H. congruence.
    + left. unfold get_abs_mag in H. rewrite H1 in H. cbn [bind] in H.
      now injection H as <-.
  - intros r H. unfold get_abs_mag in H.
    destruct (load_model fs p1 false) as [[nu fnu]|e1]; [|discriminate].
    cbn [bind] in H.
    destruct (load_filter fs p2 false) as [f|e2]; [|discriminate].
    eauto.
  - intros t lam fdet n1 wl n2 resp Hfs Hl Hf Hfs2 Hlam Hwl Hlen.
    rewrite (get_abs_mag_eq fs _ _ _ _ _ _ _ _ _ Hfs Hl Hf Hfs2).
    destruct (proj2 (spec_magnitude_ok_iff lam fdet wl resp)
                    (conj Hlam (conj Hwl Hlen))) as [m Hm].
    unfold spec_magnitude in *.
    destruct (flux_ratio lam fdet wl resp) as [ratio|e]; cbn [bind] in *;
      [|discriminate].
    exists ratio. split; reflexivity.
Qed.

Lemma errors_propagate_witness :
  get_abs_mag sample_fs "absent.c100" "hsc_r.dat" = Raise FileNotFoundError.
Proof.
  apply (proj1 (proj2 (proj2 (errors_propagate sample_fs "absent.c100" "hsc_r.dat")))).
  apply (proj1 (errors_propagate sample_fs "absent.c100" "hsc_r.dat")).
  left. reflexivity.
Defined.

End FailureClaim.

Lemma nondecreasing_of_sorted (l : list R) :
  StronglySorted Rle l -> nondecreasing l.
Proof.
  intros Hs i j Hij Hj. unfold aref.
  destruct (Z.eq_dec i j) as [->|N]; [lra|].
  apply (StronglySorted_nth Rle); auto. lia.
Qed.

(** * Runs on small concrete inputs *)

Section Runs.

Open Scope string_scope.

Example argsort_run : argsort [3; 1; 2] = [1; 2; 0]%nat.
Proof. unfold argsort. simpl. repeat (progress (decide_cmp; simpl)). reflexivity. Qed.

(** Interpolation inside the table, clamping on both sides of it. *)
Example np_interp_run :
  np_interp [1.5; 0; 5] [1; 2; 3] [10; 20; 30] = Ok [15; 10; 30].
Proof.
  rewrite np_interp_monotone
    by (left; apply nondecreasing_of_sorted; repeat constructor; lra).
  cbn [length Z.of_nat Pos.of_succ_nat Pos.succ]. eval_Zcmp. cbn [negb map].
  unfold interp1. cbn [length Z.of_nat Pos.of_succ_nat Pos.succ]. eval_Zcmp.
  run_search.
  unfold interp_value. eval_Zcmp. eval_aref. decide_cmp.
  repeat f_equal; lra.
Qed.

(** Simpson's rule on [x^2]: exact on three points, and the average of the
    two Simpson-plus-trapezoid estimates on four. *)
Example simps_run_odd : simps [1; 4; 9] [1; 2; 3] = Ok (26 / 3).
Proof.
  unfold simps, basic_simps. cbn [length Nat.eqb Nat.even combine skipn panels].
  f_equal. unfold simps_panel. cbv zeta. lra.
Qed.

Example simps_run_even : simps [1; 4; 9; 16] [1; 2; 3; 4] = Ok (127 / 6).
Proof.
  unfold simps, basic_simps.
  cbn [length Nat.eqb Nat.even combine skipn panels nth Nat.sub].
  f_equal. unfold simps_panel. cbv zeta. lra.
Qed.

(** On equal spacings a panel is the textbook [h/3 * (y0 + 4 y1 + y2)]. *)
Example simps_panel_uniform (x0 h y0 y1 y2 : R) :
  h <> 0 ->
  simps_panel x0 y0 (x0 + h) y1 (x0 + 2 * h) y2 = h / 3 * (y0 + 4 * y1 + y2).
Proof. intros Hh. unfold simps_panel. cbv zeta. field. lra. Qed.

(** A flat spectrum of 5 mJy through a uniform filter has the AB magnitude
    of 5 mJy, whatever the filter's level. *)
Example flat_spectrum_run :
  get_abs_mag sample_fs "flat.c100" "flat.dat"
  = Ok (mkQ (-2.5 * log10 (0.005 / 3631)) u.dimensionless_unscaled).
Proof.
  rewrite (get_abs_mag_eq sample_fs "flat.c100" "flat.dat" sample_flat_model
             [0.25; 0.5; 1; 2] [5; 5; 5; 5]
             "col1" [4000; 10000; 25000] "col2" [0.7; 0.7; 0.7]);
    try reflexivity.
  unfold spec_magnitude.
  change [5; 5; 5; 5] with (map (fun _ : R => 5) [0.25; 0.5; 1; 2]).
  rewrite (flux_ratio_flat_uniform 0.7 5 [0.25; 0.5; 1; 2]
             [4000; 10000; 25000] [0.7; 0.7; 0.7]).
  - cbn [bind]. do 3 f_equal; unfold Jy_of_mJy, AB_zero_point_Jy; lra.
  - simpl; lia.
  - repeat constructor; lra.
  - nodup_reals.
  - apply (np_interp_const 0.7 (model_nu_values [0.25; 0.5; 1; 2])
             (filter_nu_values [4000; 10000; 25000])). discriminate.
  - lra.
Qed.

(** On a grid that is not monotone the index search of [np.interp] depends
    on the abscissa seen before: the same abscissa 5 is resampled to 0 or to
    2 according to its position in the input. *)
Example search_run_1 : binary_search_with_guess 5 [0; 10; 2; 3; 20] 5 0 = 0%Z.
Proof. run_search. reflexivity. Qed.

Example search_run_2 : binary_search_with_guess 15 [0; 10; 2; 3; 20] 5 0 = 3%Z.
Proof. run_search. reflexivity. Qed.

Example search_run_3 : binary_search_with_guess 5 [0; 10; 2; 3; 20] 5 3 = 3%Z.
Proof. run_search. reflexivity. Qed.

Example np_interp_run_unordered_grid :
  np_interp [5; 15] [0; 10; 2; 3; 20] [0; 0; 0; 0; 17] = Ok [0; 12]
  /\ np_interp [15; 5] [0; 10; 2; 3; 20] [0; 0; 0; 0; 17] = Ok [12; 2].
Proof.
  split; unfold np_interp; cbn [length Z.of_nat Pos.of_succ_nat Pos.succ];
    eval_Zcmp; cbn [negb interp_loop].
  - rewrite search_run_1, search_run_2. unfold interp_value.
    eval_Zcmp. eval_aref. decide_cmp. repeat f_equal; lra.
  - rewrite search_run_2, search_run_3. unfold interp_value.
    eval_Zcmp. eval_aref. decide_cmp. repeat f_equal; lra.
Qed.

End Runs.

(** * The filter identifier *)

Section FilterIdentifier.

Open Scope string_scope.

Lemma tail_match_true (s : string) :
  tail_match s = true ->
  exists c post, s = String c ("dat" ++ post) /\ is_newline c = false.
Proof.
  intros Ht. destruct s as [|c s]; [discriminate|]. cbn [tail_match] in Ht.
  repeat match type of Ht with
         | context [match ?x with _ => _ end] =>
             destruct x; cbv iota in Ht; try discriminate Ht
         end.
  eexists _, _. split; [reflexivity|]. now apply negb_true_iff in Ht.
Qed.

Lemma group_match_step (c : ascii) (s : string) :
  group_match (String c s)
  = if is_alnum c then
      match group_match s with
      | Some g => Some (String c g)
      | None => if tail_match s then Some (String c "") else None
      end
    else None.
Proof. reflexivity. Qed.

Lemma group_match_name (name rest : string) (c : ascii) :
  name <> "" -> all_alnum name = true ->
  is_alnum c = false -> is_newline c = false ->
  group_match (name ++ String c ("dat" ++ rest)) = Some name.
Proof.
  intros Hne Hal Hc Hnl. induction name as [|a name IH]; [congruence|].
  simpl in Hal. apply andb_prop in Hal. destruct Hal as [Ha Hal].
  change (String a name ++ String c ("dat" ++ rest))
    with (String a (name ++ String c ("dat" ++ rest))).
  rewrite group_match_step, Ha.
  destruct name as [|b name].
  - change ("" ++ String c ("dat" ++ rest)) with (String c ("dat" ++ rest)).
    rewrite group_match_step, Hc. cbn [tail_match append]. now rewrite Hnl.
  - rewrite IH; auto. discriminate.
Qed.

(** What the search returns is a non-empty alphanumeric word that stands in
    the file name between [hsc_] and a character followed by [dat]. *)
Lemma group_match_sound (s g : string) :
  group_match s = Some g ->
  g <> "" /\ all_alnum g = true
  /\ exists c post, s = g ++ String c ("dat" ++ post) /\ is_newline c = false.
Proof.
  revert g. induction s as [|a s IH]; intros g; [discriminate|].
  cbn [group_match]. destruct (is_alnum a) eqn:Ha; [|discriminate].
  destruct (group_match s) as [g'|] eqn:Hg.
  - intros E; injection E as <-.
    destruct (IH g' eq_refl) as (Hne & Hal & c & post & -> & Hnl).
    split; [discriminate|]. split; [simpl; now rewrite Ha, Hal|].
    exists c, post. auto.
  - destruct (tail_match s) eqn:Ht; [|discriminate].
    intros E; injection E as <-.
    split; [discriminate|]. split; [simpl; now rewrite Ha|].
    destruct (tail_match_true _ Ht) as (c & post & -> & Hnl).
    exists c, post. split; auto.
Qed.

Lemma match_here_some (s g : string) :
  match_here s = Some g ->
  exists rest, s = "hsc_" ++ rest /\ group_match rest = Some g.
Proof.
  intros Hm. unfold match_here in Hm.
  repeat match type of Hm with
         | context [match ?x with _ => _ end] =>
             destruct x; cbv iota in Hm; try discriminate Hm
         end.
  eexists. split; [reflexivity|exact Hm].
Qed.

(** X1. Whatever identifier [pattr.search] returns is a non-empty
    alphanumeric word that occurs in the file name after [hsc_] and before
    one character (any but a newline) followed by [dat]. *)
Theorem pattr_search_sound (s g : string) :
  pattr_search s = Some g ->
  g <> "" /\ all_alnum g = true
  /\ exists pre c post,
       s = pre ++ "hsc_" ++ g ++ String c ("dat" ++ post)
       /\ is_newline c = false.
Proof.
  induction s as [|a s IH].
  - cbn. discriminate.
  - cbn [pattr_search]. destruct (match_here (String a s)) as [g'|] eqn:Hm.
    + intros E; injection E as ->.
      destruct (match_here_some _ _ Hm) as (rest & Hs & Hg). rewrite Hs.
      destruct (group_match_sound _ _ Hg) as (Hne & Hal & c & post & -> & Hnl).
      split; auto. split; auto. exists "", c, post. split; auto.
    + intros H. destruct (IH H) as (Hne & Hal & pre & c & post & -> & Hnl).
      split; auto. split; auto. exists (String a pre), c, post. split; auto.
Qed.

Lemma pattr_search_sound_witness :
  exists pre c post,
    "dir/hsc_r.dat" = pre ++ "hsc_" ++ "r" ++ String c ("dat" ++ post)
    /\ is_newline c = false.
Proof.
  apply (pattr_search_sound "dir/hsc_r.dat" "r"). reflexivity.
Defined.

(** X2. The identifier of a file of the filter directory: the leftmost search
    passes over the [hsc_] of the directory name. *)
Theorem pattr_search_filter_directory (name : string) :
  name <> "" -> all_alnum name = true ->
  pattr_search ("../data/hsc_responses_v1/hsc_" ++ name ++ ".dat") = Some name.
Proof.
  intros Hne Hal.
  assert (Hg : group_match (name ++ ".dat") = Some name).
  { apply (group_match_name name "" "."); auto. }
  cbn -[group_match append]. cbn [append]. 
  change (group_match ("responses_v1/hsc_" ++ name ++ ".dat"))
    with (group_match ("responses_v1/hsc_" ++ (name ++ ".dat"))).
  cbn. now rewrite Hg.
Qed.

End FilterIdentifier.

Section FilterIdentifierSeparator.

Open Scope string_scope.

(** X3. The dot of the pattern is not escaped and the search is not anchored:
    any character that is neither alphanumeric nor a newline may stand
    between the identifier and [dat], and whatever follows is ignored. *)
Theorem pattr_search_any_separator (name rest : string) (c : ascii) :
  name <> "" -> all_alnum name = true ->
  is_alnum c = false -> is_newline c = false ->
  pattr_search ("hsc_" ++ name ++ String c ("dat" ++ rest)) = Some name.
Proof.
  intros Hne Hal Hc Hnl.
  change ("hsc_" ++ name ++ String c ("dat" ++ rest))
    with (String "h" (String "s" (String "c" (String "_"
            (name ++ String c ("dat" ++ rest)))))).
  cbn [pattr_search match_here].
  now rewrite group_match_name.
Qed.

Lemma pattr_search_any_separator_witness :
  pattr_search "hsc_r2_dat.bak" = Some "r2".
Proof.
  apply (pattr_search_any_separator "r2" ".bak" "_"); try reflexivity.
  discriminate.
Defined.

Lemma pattr_search_filter_directory_witness :
  pattr_search "../data/hsc_responses_v1/hsc_nb816.dat" = Some "nb816".
Proof.
  apply (pattr_search_filter_directory "nb816"); try reflexivity.
  discriminate.
Defined.

End FilterIdentifierSeparator.

(** * The magnitude table *)

Lemma dict_get_set_same (d : dict) (k : string) (v : column) :
  dict_get (dict_set d k v) k = Some v.
Proof.
  induction d as [|[k' v'] d IH]; simpl.
  - now rewrite String.eqb_refl.
  - destruct (String.eqb k' k) eqn:E; simpl; rewrite E; auto.
Qed.

Lemma dict_get_set_other (d : dict) (k k' : string) (v : column) :
  k' <> k -> dict_get (dict_set d k v) k' = dict_get d k'.
Proof.
  intros N. induction d as [|[k0 v0] d IH]; simpl.
  - destruct (String.eqb_spec k k'); congruence.
  - destruct (String.eqb_spec k0 k) as [->|N0]; simpl.
    + destruct (String.eqb_spec k k'); congruence.
    + destruct (String.eqb_spec k0 k'); auto.
Qed.

Lemma dict_set_set (d : dict) (k : string) (v v' : column) :
  dict_set (dict_set d k v) k v' = dict_set d k v'.
Proof.
  induction d as [|[k0 v0] d IH]; simpl.
  - now rewrite String.eqb_refl.
  - destruct (String.eqb k0 k) eqn:E; simpl; rewrite E; auto.
    now rewrite IH.
Qed.

Lemma dict_set_Forall (Q : column -> Prop) (d : dict) (k : string) (v : column) :
  Forall (fun kc => Q (snd kc)) d -> Q v ->
  Forall (fun kc => Q (snd kc)) (dict_set d k v).
Proof.
  intros Hd Hv. induction Hd as [|[k0 v0] d H0 Hd IH]; simpl.
  - repeat constructor. exact Hv.
  - destruct (String.eqb k0 k); constructor; auto.
Qed.

Lemma dict_get_Forall (Q : column -> Prop) (d : dict) (k : string) (c : column) :
  Forall (fun kc => Q (snd kc)) d -> dict_get d k = Some c -> Q c.
Proof.
  intros Hd. induction Hd as [|[k0 v0] d H0 Hd IH]; simpl; [discriminate|].
  destruct (String.eqb k0 k); auto. intros E; injection E as <-. exact H0.
Qed.

Lemma Ts_values :
  Ts = [700; 800; 900; 1000; 1100; 1200; 1300; 1400; 1500; 1600; 1700; 1800]%Z.
Proof. reflexivity. Qed.

Section TableFacts.

Variable fs : FileSystem.

Lemma magnitudes_step (f : string) (T : Z) (ts : list Z) :
  magnitudes fs f (T :: ts)
  = match get_abs_mag fs (model_fname T) f with
    | Ok q =>
        match magnitudes fs f ts with
        | Done rest => Done (value q :: rest)
        | Abort e => Abort e
        end
    | Raise e => Abort (Lib e)
    end.
Proof.
  cbn [magnitudes]. destruct (get_abs_mag fs (model_fname T) f); reflexivity.
Qed.

Lemma magnitudes_spec (f : string) (ts : list Z) (mags : list R) :
  magnitudes fs f ts = Done mags <->
  Forall2 (fun T m => exists q, get_abs_mag fs (model_fname T) f = Ok q
                                /\ value q = m) ts mags.
Proof.
  revert mags; induction ts as [|T ts IH]; intros mags.
  - cbn [magnitudes]. split.
    + intros E; injection E as <-. constructor.
    + intros H; inversion H. reflexivity.
  - rewrite magnitudes_step. split.
    + destruct (get_abs_mag fs (model_fname T) f) as [q|e] eqn:Hq; [|discriminate].
      destruct (magnitudes fs f ts) as [rest|e] eqn:Hr; [|discriminate].
      intros E; injection E as <-. constructor.
      * exists q. auto.
      * apply IH. reflexivity.
    + intros H; inversion H as [|? m ? rest (q & Hq & Hv) Hrest]; subst.
      rewrite Hq. apply IH in Hrest. rewrite Hrest. reflexivity.
Qed.

Lemma magnitudes_length (f : string) (ts : list Z) (mags : list R) :
  magnitudes fs f ts = Done mags -> length mags = length ts.
Proof.
  intros H. apply magnitudes_spec in H. symmetry.
  induction H; simpl; auto.
Qed.

Lemma magnitudes_abort (f : string) (ts : list Z) (e : cell_exn) :
  magnitudes fs f ts = Abort e ->
  exists T e', In T ts /\ e = Lib e'
               /\ get_abs_mag fs (model_fname T) f = Raise e'.
Proof.
  induction ts as [|T ts IH]; [cbn [magnitudes]; discriminate|].
  rewrite magnitudes_step.
  destruct (get_abs_mag fs (model_fname T) f) as [q|e0] eqn:Hq.
  - destruct (magnitudes fs f ts) as [rest|e1]; [discriminate|].
    intros E; injection E as <-.
    destruct (IH eq_refl) as (T' & e' & Hin & He & Hg).
    exists T', e'. split; [now right|auto].
  - intros E; injection E as <-. exists T, e0. split; [now left|auto].
Qed.

Lemma magnitudes_done_iff (f : string) (ts : list Z) :
  (exists mags, magnitudes fs f ts = Done mags) <->
  (forall T, In T ts -> exists q, get_abs_mag fs (model_fname T) f = Ok q).
Proof.
  split.
  - intros [mags H]. apply magnitudes_spec in H.
    induction H as [|T m ts mags (q & Hq & _) _ IH]; intros T' Hin.
    + destruct Hin.
    + destruct Hin as [<-|Hin]; eauto.
  - intros H. induction ts as [|T ts IH]; [cbn [magnitudes]; eauto|].
    rewrite magnitudes_step.
    destruct (H T (or_introl eq_refl)) as [q Hq]. rewrite Hq.
    destruct IH as [rest Hr]; [intros; apply H; now right|].
    rewrite Hr. eauto.
Qed.

(** The inner loop appends the magnitudes of the filter to its list. *)
Lemma append_mags_eq (f name : string) (ts : list Z) (d : dict) (l : list R) :
  dict_get d name = Some (PyList l) ->
  append_mags fs f name ts d
  = (mags <~ magnitudes fs f ts ;;
     Done (dict_set d name (PyList (l ++ mags)))).
Proof.
  revert d l. induction ts as [|T ts IH]; intros d l Hget.
  - cbn [append_mags magnitudes obind]. f_equal. rewrite app_nil_r.
    clear -Hget. induction d as [|[k v] d IH]; simpl in *; [discriminate|].
    destruct (String.eqb k name) eqn:E.
    + injection Hget as ->. reflexivity.
    + f_equal. auto.
  - rewrite magnitudes_step. cbn [append_mags].
    destruct (get_abs_mag fs (model_fname T) f) as [q|e]; cbn [lift obind]; auto.
    rewrite Hget.
    rewrite (IH _ (l ++ [value q])) by apply dict_get_set_same.
    destruct (magnitudes fs f ts) as [rest|e]; cbn [obind]; auto.
    rewrite dict_set_set, <- app_assoc. reflexivity.
Qed.

(** One round of the outer loop. *)
Lemma fill_table_step (f : string) (rest : list string) (d : dict) :
  fill_table fs (f :: rest) d
  = match pattr_search f with
    | None => Abort AttributeError
    | Some name =>
        mags <~ magnitudes fs f Ts ;;
        fill_table fs rest (dict_set d name (PyList mags))
    end.
Proof.
  cbn [fill_table]. destruct (pattr_search f) as [name|]; auto.
  rewrite (append_mags_eq f name Ts _ []) by apply dict_get_set_same.
  destruct (magnitudes fs f Ts) as [mags|e]; cbn; auto.
  now rewrite dict_set_set.
Qed.

Lemma fill_table_lengths (fnames : list string) (d d' : dict) :
  fill_table fs fnames d = Done d' ->
  Forall (fun kc => column_length (snd kc) = length Ts) d ->
  Forall (fun kc => column_length (snd kc) = length Ts) d'.
Proof.
  revert d. induction fnames as [|f rest IH]; intros d.
  - cbn. intros E; injection E as <-. auto.
  - rewrite fill_table_step. destruct (pattr_search f) as [name|]; [|discriminate].
    destruct (magnitudes fs f Ts) as [mags|e] eqn:Hm; cbn; [|discriminate].
    intros H Hd. apply (IH _ H).
    apply (dict_set_Forall (fun c => column_length c = length Ts)); auto.
    simpl. now apply magnitudes_length in Hm.
Qed.

Lemma fill_table_frame (fnames : list string) (d d' : dict) (name : string) :
  fill_table fs fnames d = Done d' ->
  (forall g, In g fnames -> pattr_search g <> Some name) ->
  dict_get d' name = dict_get d name.
Proof.
  revert d. induction fnames as [|f rest IH]; intros d.
  - cbn. intros E; injection E as <-. auto.
  - rewrite fill_table_step. destruct (pattr_search f) as [n|] eqn:Hn; [|discriminate].
    destruct (magnitudes fs f Ts) as [mags|e]; cbn; [|discriminate].
    intros H Hnot. rewrite (IH _ H) by (intros; apply Hnot; now right).
    apply dict_get_set_other. intros ->. now apply (Hnot f (or_introl eq_refl)).
Qed.

Lemma fill_table_lookup (pre post : list string) (f name : string) (d d' : dict) :
  fill_table fs (pre ++ f :: post) d = Done d' ->
  pattr_search f = Some name ->
  (forall g, In g post -> pattr_search g <> Some name) ->
  exists mags, magnitudes fs f Ts = Done mags
               /\ dict_get d' name = Some (PyList mags).
Proof.
  revert d. induction pre as [|p pre IH]; intros d; cbn [app].
  - rewrite fill_table_step. intros H Hn Hpost. rewrite Hn in H.
    destruct (magnitudes fs f Ts) as [mags|e]; cbn in H; [|discriminate].
    exists mags. split; auto.
    rewrite (fill_table_frame _ _ _ _ H Hpost). apply dict_get_set_same.
  - rewrite fill_table_step. destruct (pattr_search p) as [n|]; [|discriminate].
    destruct (magnitudes fs p Ts) as [mags|e]; cbn; [|discriminate].
    intros H. now apply (IH _ H).
Qed.

Lemma fill_table_done_iff (fnames : list string) (d : dict) :
  (exists d', fill_table fs fnames d = Done d') <->
  (forall f, In f fnames ->
             pattr_search f <> None
             /\ forall T, In T Ts ->
                          exists q, get_abs_mag fs (model_fname T) f = Ok q).
Proof.
  revert d. induction fnames as [|f rest IH]; intros d.
  - cbn. split; [intros _ f []|eauto].
  - rewrite fill_table_step. split.
    + intros [d' H]. destruct (pattr_search f) as [name|] eqn:Hn; [|discriminate].
      destruct (magnitudes fs f Ts) as [mags|e] eqn:Hm; cbn in H; [|discriminate].
      intros g [<-|Hin].
      * rewrite Hn. split; [discriminate|]. apply magnitudes_done_iff. eauto.
      * apply (proj1 (IH (dict_set d name (PyList mags)))); eauto.
    + intros H. destruct (H f (or_introl eq_refl)) as [Hn Hq].
      destruct (pattr_search f) as [name|]; [|congruence].
      apply magnitudes_done_iff in Hq. destruct Hq as [mags ->]. cbn.
      apply IH. intros g Hg. apply H. now right.
Qed.

Lemma fill_table_abort (fnames : list string) (d : dict) (e : cell_exn) :
  fill_table fs fnames d = Abort e ->
  (e = AttributeError /\ exists f, In f fnames /\ pattr_search f = None)
  \/ (exists f T e', In f fnames /\ In T Ts /\ e = Lib e'
                     /\ get_abs_mag fs (model_fname T) f = Raise e').
Proof.
  revert d. induction fnames as [|f rest IH]; intros d.
  - cbn. discriminate.
  - rewrite fill_table_step. destruct (pattr_search f) as [name|] eqn:Hn.
    + destruct (magnitudes fs f Ts) as [mags|e0] eqn:Hm; cbn.
      * intros H. destruct (IH _ H) as [(-> & g & Hg & Hnone)|(g & T & e' & Hg & H')].
        -- left. split; auto. exists g. split; [now right|auto].
        -- right. exists g, T, e'. split; [now right|auto].
      * intros E; injection E as <-.
        destruct (magnitudes_abort _ _ _ Hm) as (T & e' & HT & -> & Hq).
        right. exists f, T, e'. split; [now left|auto].
    + intros E; injection E as <-. left. split; auto.
      exists f. split; [now left|auto].
Qed.

(** After the loop and the assignment of the temperature column, every
    column has the length of [Ts]; [Table(...)] therefore accepts the
    dictionary. *)
Lemma build_table_eq (fnames : list string) :
  build_table fs fnames
  = (d <~ fill_table fs fnames [] ;;
     Done (mkTable (dict_set d "T"%string (NdArray Ts))
                   [("T"%string, "K"%string)])).
Proof.
  unfold build_table.
  destruct (fill_table fs fnames []) as [d|e] eqn:Hf; cbn [obind]; auto.
  assert (Hinv : Forall (fun kc => column_length (snd kc) = length Ts)
                        (dict_set d "T"%string (NdArray Ts))).
  { apply (dict_set_Forall (fun c => column_length c = length Ts)).
    - apply (fill_table_lengths _ _ _ Hf). constructor.
    - reflexivity. }
  assert (Hsame : same_lengths (dict_set d "T"%string (NdArray Ts)) = true).
  { destruct (dict_set d "T"%string (NdArray Ts)) as [|[k c] d0]; auto.
    unfold same_lengths. apply forallb_forall. intros [k' c'] Hin.
    inversion Hinv as [|? ? Hc Hrest]; subst.
    rewrite Forall_forall in Hrest. specialize (Hrest _ Hin).
    simpl in *. apply Nat.eqb_eq. congruence. }
  unfold Table_of_dict. rewrite Hsame. cbn [obind]. unfold set_unit.
  cbn [columns units]. now rewrite dict_get_set_same.
Qed.

End TableFacts.

(** * The magnitude table: what the driver cell builds *)

Section SampleTable.

Open Scope string_scope.

Lemma flat_magnitude (fs : FileSystem) (p1 p2 : string) :
  fs p1 = Ok sample_flat_model -> fs p2 = Ok sample_flat_filter ->
  get_abs_mag fs p1 p2
  = Ok (mkQ (-2.5 * log10 (0.005 / 3631)) u.dimensionless_unscaled).
Proof.
  intros H1 H2.
  rewrite (get_abs_mag_eq fs p1 p2 sample_flat_model
             [0.25; 0.5; 1; 2] [5; 5; 5; 5]
             "col1" [4000; 10000; 25000] "col2" [0.7; 0.7; 0.7]);
    try reflexivity; auto.
  unfold spec_magnitude.
  change [5; 5; 5; 5] with (map (fun _ : R => 5) [0.25; 0.5; 1; 2]).
  rewrite (flux_ratio_flat_uniform 0.7 5 [0.25; 0.5; 1; 2]
             [4000; 10000; 25000] [0.7; 0.7; 0.7]).
  - cbn [bind]. do 3 f_equal; unfold Jy_of_mJy, AB_zero_point_Jy; lra.
  - simpl; lia.
  - repeat constructor; lra.
  - nodup_reals.
  - apply (np_interp_const 0.7 (model_nu_values [0.25; 0.5; 1; 2])
             (filter_nu_values [4000; 10000; 25000])). discriminate.
  - lra.
Qed.

Lemma sample_cell_fs_model (T : Z) :
  sample_cell_fs (model_fname T) = Ok sample_flat_model.
Proof. reflexivity. Qed.

Lemma sample_cell_magnitude (name : string) (T : Z) :
  get_abs_mag sample_cell_fs (model_fname T)
              ("../data/hsc_responses_v1/hsc_" ++ name ++ ".dat")
  = Ok (mkQ (-2.5 * log10 (0.005 / 3631)) u.dimensionless_unscaled).
Proof. apply flat_magnitude; reflexivity. Qed.

Lemma sample_cell_magnitudes (name : string) (ts : list Z) :
  magnitudes sample_cell_fs
             ("../data/hsc_responses_v1/hsc_" ++ name ++ ".dat") ts
  = Done (map (fun _ => -2.5 * log10 (0.005 / 3631)) ts).
Proof.
  induction ts as [|T ts IH]; [reflexivity|].
  rewrite magnitudes_step, sample_cell_magnitude, IH. reflexivity.
Qed.

End SampleTable.

Section TableClaims.

Variable fs : FileSystem.

Open Scope string_scope.

Lemma fill_table_keys (fnames : list string) (d d' : dict) (name : string) :
  fill_table fs fnames d = Done d' ->
  (dict_get d' name <> None <->
   dict_get d name <> None
   \/ exists f, In f fnames /\ pattr_search f = Some name).
Proof.
  revert d. induction fnames as [|f rest IH]; intros d.
  - cbn. intros E; injection E as <-. split; auto.
    intros [H|(f & [] & _)]; auto.
  - rewrite fill_table_step. destruct (pattr_search f) as [n|] eqn:Hn; [|discriminate].
    destruct (magnitudes fs f Ts) as [mags|e]; cbn; [|discriminate].
    intros H. rewrite (IH _ H). destruct (string_dec n name) as [->|N].
    + rewrite dict_get_set_same. split.
      * intros _. right. exists f. split; [now left|auto].
      * intros _. left. discriminate.
    + rewrite dict_get_set_other by congruence. split.
      * intros [Hd|(g & Hg & Hs)]; auto. right. exists g. split; [now right|auto].
      * intros [Hd|(g & [<-|Hg] & Hs)]; auto; [congruence|].
        right. exists g. auto.
Qed.

Lemma column_values_length (c : column) :
  length (column_values c) = column_length c.
Proof. destruct c; simpl; auto. apply length_map. Qed.

Lemma build_table_lookup (pre post : list string) (f name : string)
      (tbl : AstroTable) :
  build_table fs (pre ++ f :: post) = Done tbl ->
  pattr_search f = Some name ->
  name <> "T" ->
  (forall g, In g post -> pattr_search g <> Some name) ->
  exists mags,
    tbl_getitem tbl name = Ok mags
    /\ Forall2 (fun T m => exists q, get_abs_mag fs (model_fname T) f = Ok q
                                     /\ value q = m) Ts mags.
Proof.
  intros Hb Hn HT Hpost. rewrite build_table_eq in Hb.
  destruct (fill_table fs (pre ++ f :: post) []) as [d|e] eqn:Hf; [|discriminate].
  cbn [obind] in Hb. injection Hb as <-.
  destruct (fill_table_lookup fs _ _ _ _ _ _ Hf Hn Hpost) as (mags & Hm & Hget).
  exists mags. split.
  - unfold tbl_getitem. cbn [columns].
    rewrite dict_get_set_other by assumption. now rewrite Hget.
  - now apply magnitudes_spec.
Qed.

(** X4. The column of a filter holds the magnitudes of its file over the
    temperatures 700, 800, ..., 1800 K, in this order; of several files with
    one identifier the last one read fills the column. *)
Theorem build_table_filter_column (pre post : list string) (f name : string)
        (tbl : AstroTable) :
  build_table fs (pre ++ f :: post) = Done tbl ->
  pattr_search f = Some name ->
  name <> "T" ->
  (forall g, In g post -> pattr_search g <> Some name) ->
  exists mags,
    tbl_getitem tbl name = Ok mags
    /\ Forall2 (fun T m => exists q, get_abs_mag fs (model_fname T) f = Ok q
                                     /\ value q = m)
               [700; 800; 900; 1000; 1100; 1200;
                1300; 1400; 1500; 1600; 1700; 1800]%Z mags.
Proof.
  intros Hb Hn HT Hpost. rewrite <- Ts_values.
  exact (build_table_lookup pre post f name tbl Hb Hn HT Hpost).
Qed.

(** X5. The column [T] of the table is the temperature grid with the unit
    kelvin, also when a filter file has the identifier [T]: its magnitudes
    are overwritten. *)
Theorem build_table_temperature_column (fnames : list string)
        (tbl : AstroTable) :
  build_table fs fnames = Done tbl ->
  tbl_getitem tbl "T"
  = Ok [700; 800; 900; 1000; 1100; 1200; 1300; 1400; 1500; 1600; 1700; 1800]
  /\ units tbl = [("T", "K")].
Proof.
  intros Hb. rewrite build_table_eq in Hb.
  destruct (fill_table fs fnames []) as [d|e]; [|discriminate].
  cbn [obind] in Hb. injection Hb as <-. split; [|reflexivity].
  unfold tbl_getitem. cbn [columns]. rewrite dict_get_set_same.
  reflexivity.
Qed.

(** X6. The cell succeeds exactly when every file name matches the pattern
    and [get_abs_mag] succeeds for every file at every temperature;
    [Table(...)] and the assignment of the unit never fail. *)
Theorem build_table_succeeds_iff (fnames : list string) :
  (exists tbl, build_table fs fnames = Done tbl) <->
  (forall f, In f fnames ->
             pattr_search f <> None
             /\ forall T, In T Ts ->
                          exists q, get_abs_mag fs (model_fname T) f = Ok q).
Proof.
  rewrite build_table_eq, <- (fill_table_done_iff fs fnames []).
  destruct (fill_table fs fnames []) as [d|e]; cbn [obind]; split.
  - eauto.
  - eauto.
  - intros [tbl H]. discriminate.
  - intros [d H]. discriminate.
Qed.

(** X7. When the cell is aborted, either a file name did not match the
    pattern ([AttributeError] from [.groups()] on [None]) or the exception
    is the one [get_abs_mag] raised for one of the files at one of the
    temperatures. *)
Theorem build_table_abort_cause (fnames : list string) (e : cell_exn) :
  build_table fs fnames = Abort e ->
  (e = AttributeError /\ exists f, In f fnames /\ pattr_search f = None)
  \/ (exists f T e', In f fnames /\ In T Ts /\ e = Lib e'
                     /\ get_abs_mag fs (model_fname T) f = Raise e').
Proof.
  intros Hb. rewrite build_table_eq in Hb.
  destruct (fill_table fs fnames []) as [d|e0] eqn:Hf; [discriminate|].
  cbn [obind] in Hb. injection Hb as <-. now apply (fill_table_abort fs _ []).
Qed.

Lemma build_table_has_column (fnames : list string) (tbl : AstroTable)
      (name : string) :
  build_table fs fnames = Done tbl ->
  ((exists vals, tbl_getitem tbl name = Ok vals) <->
   name = "T" \/ exists f, In f fnames /\ pattr_search f = Some name).
Proof.
  intros Hb. rewrite build_table_eq in Hb.
  destruct (fill_table fs fnames []) as [d|e] eqn:Hf; [|discriminate].
  cbn [obind] in Hb. injection Hb as <-. unfold tbl_getitem. cbn [columns].
  destruct (string_dec name "T") as [->|N].
  - rewrite dict_get_set_same. split; eauto.
  - rewrite dict_get_set_other by assumption.
    pose proof (fill_table_keys _ _ _ name Hf) as Hk. cbn [dict_get] in Hk.
    split.
    + intros [vals Hv]. right.
      destruct (dict_get d name) as [c|]; [|discriminate].
      destruct (proj1 Hk) as [H|H]; [discriminate|congruence|exact H].
    + intros [HT|Hex]; [congruence|].
      destruct (dict_get d name) as [c|]; eauto.
      exfalso. apply (proj2 Hk); auto.
Qed.

(** X8. The table has the column [T] and one column for each identifier
    found in the file names, and no other; every column has twelve rows. *)
Theorem build_table_shape (fnames : list string) (tbl : AstroTable)
        (name : string) :
  build_table fs fnames = Done tbl ->
  ((exists vals, tbl_getitem tbl name = Ok vals) <->
   name = "T" \/ exists f, In f fnames /\ pattr_search f = Some name)
  /\ (forall vals, tbl_getitem tbl name = Ok vals -> length vals = 12%nat).
Proof.
  intros Hb. split; [now apply build_table_has_column|].
  rewrite build_table_eq in Hb.
  destruct (fill_table fs fnames []) as [d|e] eqn:Hf; [|discriminate].
  cbn [obind] in Hb. injection Hb as <-. unfold tbl_getitem. cbn [columns].
  - intros vals.
    destruct (dict_get (dict_set d "T" (NdArray Ts)) name) as [c|] eqn:Hg;
      [|discriminate].
    intros E; injection E as <-. rewrite column_values_length.
    apply (dict_get_Forall (fun c => column_length c = length Ts) _ _ _) in Hg.
    + exact Hg.
    + apply (dict_set_Forall (fun c => column_length c = length Ts)).
      * apply (fill_table_lengths fs _ _ _ Hf). constructor.
      * reflexivity.
Qed.

End TableClaims.

Section TableWitnesses.

Open Scope string_scope.

Lemma sample_table_run :
  build_table sample_cell_fs sample_filter_fnames = Done sample_table.
Proof.
  rewrite build_table_eq. unfold sample_filter_fnames.
  rewrite fill_table_step.
  change (pattr_search "../data/hsc_responses_v1/hsc_g.dat") with (Some "g").
  rewrite (sample_cell_magnitudes "g"). cbn [obind].
  rewrite fill_table_step.
  change (pattr_search "../data/hsc_responses_v1/hsc_r.dat") with (Some "r").
  rewrite (sample_cell_magnitudes "r"). cbn [obind].
  rewrite fill_table_step.
  change (pattr_search "../data/hsc_responses_v1/hsc_i.dat") with (Some "i").
  rewrite (sample_cell_magnitudes "i"). cbn [obind].
  rewrite fill_table_step.
  change (pattr_search "../data/hsc_responses_v1/hsc_z.dat") with (Some "z").
  rewrite (sample_cell_magnitudes "z"). cbn [obind].
  rewrite fill_table_step.
  change (pattr_search "../data/hsc_responses_v1/hsc_y.dat") with (Some "y").
  rewrite (sample_cell_magnitudes "y"). cbn [obind fill_table].
  reflexivity.
Qed.

Lemma build_table_filter_column_witness :
  exists mags,
    tbl_getitem sample_table "g" = Ok mags
    /\ Forall2 (fun T m =>
                  exists q, get_abs_mag sample_cell_fs (model_fname T)
                              "../data/hsc_responses_v1/hsc_g.dat" = Ok q
                            /\ value q = m)
               [700; 800; 900; 1000; 1100; 1200;
                1300; 1400; 1500; 1600; 1700; 1800]%Z mags.
Proof.
  apply (build_table_filter_column sample_cell_fs []
           (tl sample_filter_fnames)
           "../data/hsc_responses_v1/hsc_g.dat" "g" sample_table).
  - exact sample_table_run.
  - reflexivity.
  - discriminate.
  - intros g [<-|[<-|[<-|[<-|[]]]]]; discriminate.
Defined.

Lemma build_table_temperature_column_witness :
  tbl_getitem sample_table "T"
  = Ok [700; 800; 900; 1000; 1100; 1200; 1300; 1400; 1500; 1600; 1700; 1800]
  /\ units sample_table = [("T", "K")].
Proof.
  apply (build_table_temperature_column sample_cell_fs sample_filter_fnames).
  exact sample_table_run.
Defined.

Lemma sample_abort_run :
  build_table sample_cell_fs ["../data/hsc_responses_v1/notes.dat"]
  = Abort AttributeError.
Proof. rewrite build_table_eq, fill_table_step. reflexivity. Qed.

Lemma build_table_abort_cause_witness :
  (AttributeError = AttributeError
   /\ exists f, In f ["../data/hsc_responses_v1/notes.dat"]
                /\ pattr_search f = None)
  \/ (exists f T e', In f ["../data/hsc_responses_v1/notes.dat"] /\ In T Ts
                     /\ AttributeError = Lib e'
                     /\ get_abs_mag sample_cell_fs (model_fname T) f = Raise e').
Proof.
  apply (build_table_abort_cause sample_cell_fs). exact sample_abort_run.
Defined.

Lemma build_table_shape_witness :
  ((exists vals, tbl_getitem sample_table "r" = Ok vals) <->
   "r" = "T" \/ exists f, In f sample_filter_fnames /\ pattr_search f = Some "r")
  /\ (forall vals, tbl_getitem sample_table "r" = Ok vals -> length vals = 12%nat).
Proof.
  apply (build_table_shape sample_cell_fs sample_filter_fnames).
  exact sample_table_run.
Defined.

End TableWitnesses.

(** * Detection distances *)

Section DetectionDistance.

Open Scope string_scope.

Lemma ln10_pos : 0 < ln 10.
Proof. rewrite <- ln_1. apply ln_increasing; lra. Qed.

Lemma log10_Rpower (x : R) : log10 (Rpower 10 x) = x.
Proof.
  unfold log10, Rpower. rewrite ln_exp. pose proof ln10_pos. field. lra.
Qed.

Lemma Rpower_10_pos (x : R) : 0 < Rpower 10 x.
Proof. unfold Rpower. apply exp_pos. Qed.

Lemma Rpower_10_lt (x y : R) : x < y <-> Rpower 10 x < Rpower 10 y.
Proof.
  split.
  - intros H. apply Rpower_lt; lra.
  - intros H. destruct (Rlt_dec x y) as [L|N]; auto. exfalso.
    destruct (Req_dec x y) as [->|Hne]; [lra|].
    assert (y < x) by lra.
    pose proof (Rpower_lt 10 y x). lra.
Qed.

Lemma d_lim_of_pos (ml M : R) : 0 < d_lim_of ml M.
Proof. unfold d_lim_of. pose proof (Rpower_10_pos ((ml - 0.5 - M) / 5)). lra. Qed.

(** X10. An object of absolute magnitude [M] seen from the distance
    [d_lim] has the apparent magnitude [m_lim - 0.5]: the formula of the
    distance plot inverts the distance modulus [5 log10 (d / 10 pc)]. *)
Theorem d_lim_of_distance_modulus (ml M : R) :
  M + 5 * log10 (d_lim_of ml M / 10) = ml - 0.5.
Proof.
  unfold d_lim_of.
  replace (Rpower 10 ((ml - 0.5 - M) / 5) * 10 / 10)
    with (Rpower 10 ((ml - 0.5 - M) / 5)) by lra.
  rewrite log10_Rpower. lra.
Qed.

(** X11. The distance limit grows with the brightness of the object: a
    smaller magnitude gives a strictly larger distance, and five magnitudes
    are a factor of ten. *)
Theorem d_lim_of_brightness (ml M M' : R) :
  (M < M' <-> d_lim_of ml M' < d_lim_of ml M)
  /\ d_lim_of ml (M - 5) = 10 * d_lim_of ml M.
Proof.
  unfold d_lim_of. split.
  - pose proof (Rpower_10_lt ((ml - 0.5 - M') / 5) ((ml - 0.5 - M) / 5))
      as [H1 H2].
    split; intros H.
    + assert (L : (ml - 0.5 - M') / 5 < (ml - 0.5 - M) / 5) by lra.
      specialize (H1 L). lra.
    + assert (L : Rpower 10 ((ml - 0.5 - M') / 5)
                  < Rpower 10 ((ml - 0.5 - M) / 5)) by lra.
      specialize (H2 L). lra.
  - replace ((ml - 0.5 - (M - 5)) / 5) with ((ml - 0.5 - M) / 5 + 1) by lra.
    rewrite Rpower_plus, Rpower_1 by lra. lra.
Qed.

(** X12. Inverse-square law: a source [c] times as bright, whose magnitude
    is lower by [2.5 log10 c], is detected [sqrt c] times as far. *)
Theorem d_lim_of_flux_scaling (ml M c : R) :
  0 < c ->
  d_lim_of ml (M - 2.5 * log10 c) = d_lim_of ml M * sqrt c.
Proof.
  intros Hc. unfold d_lim_of.
  replace ((ml - 0.5 - (M - 2.5 * log10 c)) / 5)
    with ((ml - 0.5 - M) / 5 + / 2 * log10 c) by lra.
  rewrite Rpower_plus.
  assert (E : Rpower 10 (/ 2 * log10 c) = sqrt c).
  { rewrite <- Rpower_sqrt by assumption. unfold Rpower, log10. f_equal.
    pose proof ln10_pos. field. lra. }
  rewrite E. lra.
Qed.

Lemma d_lim_of_flux_scaling_witness :
  d_lim_of 26 (20 - 2.5 * log10 4) = d_lim_of 26 20 * sqrt 4.
Proof. apply (d_lim_of_flux_scaling 26 20 4). lra. Defined.

Lemma d_lim_of_100pc (ml M : R) :
  100 <= d_lim_of ml M <-> M + 5 <= ml - 0.5.
Proof.
  unfold d_lim_of.
  assert (E : Rpower 10 1 = 10) by (apply Rpower_1; lra).
  pose proof (Rpower_10_lt ((ml - 0.5 - M) / 5) 1) as [H1 H2].
  rewrite E in H1, H2. split; intros H.
  - destruct (Rlt_dec ((ml - 0.5 - M) / 5) 1) as [L|N]; [|lra].
    specialize (H1 L). lra.
  - destruct (Rlt_dec (Rpower 10 ((ml - 0.5 - M) / 5)) 10) as [L|N]; [|lra].
    specialize (H2 L). lra.
Qed.

Lemma plot_each_Forall2 (body1 body2 : string -> result Curve)
      (P : Curve -> Curve -> Prop) (fils : list string) (cs1 cs2 : list Curve) :
  (forall fil c1 c2, body1 fil = Ok c1 -> body2 fil = Ok c2 -> P c1 c2) ->
  plot_each body1 fils = Ok cs1 -> plot_each body2 fils = Ok cs2 ->
  Forall2 P cs1 cs2.
Proof.
  intros HP. revert cs1 cs2. induction fils as [|fil rest IH]; intros cs1 cs2.
  - cbn. intros E1 E2. injection E1 as <-. injection E2 as <-. constructor.
  - cbn [plot_each].
    destruct (body1 fil) as [c1|e] eqn:H1; cbn [bind]; [|discriminate].
    destruct (plot_each body1 rest) as [r1|e]; cbn [bind]; [|discriminate].
    destruct (body2 fil) as [c2|e] eqn:H2; cbn [bind]; [|discriminate].
    destruct (plot_each body2 rest) as [r2|e]; cbn [bind]; [|discriminate].
    intros E1 E2. injection E1 as <-. injection E2 as <-.
    constructor; eauto.
Qed.

Lemma plot_each_ok_iff (body : string -> result Curve) (fils : list string) :
  (exists cs, plot_each body fils = Ok cs) <->
  (forall fil, In fil fils -> exists c, body fil = Ok c).
Proof.
  induction fils as [|fil rest IH]; cbn [plot_each].
  - split; [intros _ fil []|eauto].
  - split.
    + intros [cs H].
      destruct (body fil) as [c|e] eqn:Hb; cbn [bind] in H; [|discriminate].
      destruct (plot_each body rest) as [r|e] eqn:Hr; cbn [bind] in H; [|discriminate].
      intros f [<-|Hin]; eauto. apply (proj1 IH); eauto.
    + intros H. destruct (H fil (or_introl eq_refl)) as [c ->]. cbn [bind].
      destruct (proj2 IH) as [r ->]; [intros; apply H; now right|].
      cbn [bind]. eauto.
Qed.

Lemma plot_each_raise (body : string -> result Curve) (fils : list string)
      (e : exn) :
  plot_each body fils = Raise e -> exists fil, In fil fils /\ body fil = Raise e.
Proof.
  induction fils as [|fil rest IH]; cbn [plot_each]; [discriminate|].
  destruct (body fil) as [c|e0] eqn:Hb; cbn [bind].
  - destruct (plot_each body rest) as [r|e1]; cbn [bind]; [discriminate|].
    intros E; injection E as <-. destruct (IH eq_refl) as (f & Hin & Hf).
    exists f. split; [now right|auto].
  - intros E; injection E as <-. exists fil. split; [now left|auto].
Qed.

(** X13. The two plots agree: a point of the distance plot lies at 100 pc
    or beyond exactly when the point of the same band and temperature in
    the 100 pc plot, [tbl[fil] + 5], is no fainter than the limit
    [m_lim[fil] - 0.5]. *)
Theorem plots_agree_at_100pc (tbl : AstroTable) (cs1 cs2 : list Curve) :
  plot_magnitudes_100pc tbl = Ok cs1 ->
  plot_distance_limits tbl = Ok cs2 ->
  Forall2 (fun c1 c2 =>
             label c1 = label c2 /\ xdata c1 = xdata c2
             /\ exists fil ml,
                  label c1 = Some (band_label fil)
                  /\ m_lim_getitem m_lim fil = Ok ml
                  /\ Forall2 (fun m100 d => 100 <= d <-> m100 <= ml - 0.5)
                             (ydata c1) (ydata c2))
          cs1 cs2.
Proof.
  unfold plot_magnitudes_100pc, plot_distance_limits.
  apply plot_each_Forall2. intros fil c1 c2. unfold d_lim.
  destruct (tbl_getitem tbl "T") as [T|e]; cbn [bind]; [|discriminate].
  destruct (m_lim_getitem m_lim fil) as [ml|e] eqn:Hml; cbn [bind].
  2:{ intros _ H. discriminate. }
  destruct (tbl_getitem tbl fil) as [M|e]; cbn [bind]; [|discriminate].
  intros E1 E2. injection E1 as <-. injection E2 as <-. cbn [label xdata ydata].
  split; auto. split; auto. exists fil, ml. split; auto. split; auto.
  clear. induction M as [|m M IH]; cbn [map]; constructor; auto.
  symmetry. rewrite d_lim_of_100pc. reflexivity.
Qed.

Lemma plot_distance_limits_ok_iff (tbl : AstroTable) :
  (exists cs, plot_distance_limits tbl = Ok cs) <->
  forall name, In name ["r"; "i"; "z"; "y"; "T"] ->
               exists vals, tbl_getitem tbl name = Ok vals.
Proof.
  unfold plot_distance_limits. rewrite plot_each_ok_iff. unfold rizy. split.
  - intros H name Hin.
    assert (HT : exists vals, tbl_getitem tbl "T" = Ok vals).
    { destruct (H "r" (or_introl eq_refl)) as [c Hc]. unfold d_lim in Hc.
      cbn [m_lim m_lim_getitem String.eqb Ascii.eqb Bool.eqb bind] in Hc.
      destruct (tbl_getitem tbl "r"); cbn [bind] in Hc; [|discriminate].
      destruct (tbl_getitem tbl "T"); eauto. discriminate. }
    cbn [In] in Hin.
    destruct Hin as [<-|[<-|[<-|[<-|[<-|[]]]]]]; auto;
      match goal with
      | |- exists vals, tbl_getitem tbl ?b = Ok vals =>
          let c := fresh "c" in let Hc := fresh "Hc" in
          assert (Hb : In b ["r"; "i"; "z"; "y"]) by (cbn; tauto);
          destruct (H b Hb) as [c Hc]; unfold d_lim in Hc;
          cbn [m_lim m_lim_getitem String.eqb Ascii.eqb Bool.eqb bind] in Hc;
          destruct (tbl_getitem tbl b); cbn [bind] in Hc; [eauto|discriminate]
      end.
  - intros H fil Hin.
    destruct (H "T") as [T HT]; [cbn; tauto|]. rewrite HT.
    destruct (H fil) as [M HM]; [cbn in Hin |- *; tauto|].
    unfold d_lim. rewrite HM.
    cbn [In] in Hin. destruct Hin as [<-|[<-|[<-|[<-|[]]]]];
      cbn [m_lim m_lim_getitem String.eqb Ascii.eqb Bool.eqb bind]; eauto.
Qed.

(** X14. The distance plot fails only with [KeyError], for a missing
    column among [r], [i], [z], [y] and [T]; the limit of the band [g] and
    the column [g] are never read. *)
Theorem plot_distance_limits_succeeds_iff (tbl : AstroTable) :
  ((exists cs, plot_distance_limits tbl = Ok cs) <->
   forall name, In name ["r"; "i"; "z"; "y"; "T"] ->
                exists vals, tbl_getitem tbl name = Ok vals)
  /\ (forall e, plot_distance_limits tbl = Raise e -> e = KeyError).
Proof.
  split; [apply plot_distance_limits_ok_iff|].
  - intros e H. unfold plot_distance_limits in H.
    apply plot_each_raise in H. destruct H as (fil & _ & H). unfold d_lim in H.
    assert (Hget : forall name e', tbl_getitem tbl name = Raise e' -> e' = KeyError).
    { intros name e'. unfold tbl_getitem.
      destruct (dict_get (columns tbl) name); [discriminate|].
      intros E. now injection E. }
    assert (Hlim : forall e', m_lim_getitem m_lim fil = Raise e' -> e' = KeyError).
    { intros e'. unfold m_lim. cbn [m_lim_getitem].
      repeat match goal with
             | |- context [if ?b then _ else _] => destruct b; [discriminate|]
             end.
      intros E. now injection E. }
    destruct (m_lim_getitem m_lim fil) as [ml|e1]; cbn [bind] in H.
    + destruct (tbl_getitem tbl fil) as [M|e2] eqn:HM; cbn [bind] in H.
      * destruct (tbl_getitem tbl "T") as [T|e3] eqn:HT; cbn [bind] in H;
          [discriminate|]. injection H as <-. eauto.
      * injection H as <-. eauto.
    + injection H as <-. eauto.
Qed.

(** X15. After the driver cell the distance plot succeeds exactly when the
    filter directory holds a file for each of the bands [r], [i], [z] and
    [y]; the temperature column is always there. *)
Theorem distance_plot_after_build_table (fs : FileSystem)
        (fnames : list string) (tbl : AstroTable) :
  build_table fs fnames = Done tbl ->
  ((exists cs, plot_distance_limits tbl = Ok cs) <->
   forall band, In band ["r"; "i"; "z"; "y"] ->
                exists f, In f fnames /\ pattr_search f = Some band).
Proof.
  intros Hb. rewrite plot_distance_limits_ok_iff. split.
  - intros H band Hin.
    assert (Hcol : exists vals, tbl_getitem tbl band = Ok vals)
      by (apply H; cbn in Hin |- *; tauto).
    apply (build_table_has_column fs fnames tbl band Hb) in Hcol.
    destruct Hcol as [->|Hf]; auto.
    cbn in Hin. destruct Hin as [E|[E|[E|[E|[]]]]]; discriminate E.
  - intros H name Hin. apply (build_table_has_column fs fnames tbl name Hb).
    cbn [In] in Hin. destruct Hin as [<-|[<-|[<-|[<-|[<-|[]]]]]]; auto;
      right; apply H; cbn; tauto.
Qed.

Lemma plot_each_In (body : string -> result Curve) (fils : list string)
      (cs : list Curve) (fil : string) :
  plot_each body fils = Ok cs -> In fil fils ->
  exists c, In c cs /\ body fil = Ok c.
Proof.
  revert cs. induction fils as [|a rest IH]; intros cs H Hin; [destruct Hin|].
  cbn [plot_each] in H.
  destruct (body a) as [c|e] eqn:Hb; cbn [bind] in H; [|discriminate].
  destruct (plot_each body rest) as [r|e]; cbn [bind] in H; [|discriminate].
  injection H as <-. destruct Hin as [<-|Hin].
  - exists c. split; [now left|auto].
  - destruct (IH r eq_refl Hin) as (c' & Hc' & Hb'). exists c'.
    split; [now right|auto].
Qed.

(** X16. From the files to the plot: the curve of a band in the distance
    plot has the temperatures as abscissae and, at each temperature, the
    distance limit computed from the magnitude [get_abs_mag] returns for the
    model of that temperature and the (last) filter file of the band. *)
Theorem distance_curve_from_files (fs : FileSystem) (pre post : list string)
        (f band : string) (tbl : AstroTable) (cs : list Curve) :
  build_table fs (pre ++ f :: post) = Done tbl ->
  pattr_search f = Some band ->
  In band ["r"; "i"; "z"; "y"] ->
  (forall g, In g post -> pattr_search g <> Some band) ->
  plot_distance_limits tbl = Ok cs ->
  exists c ml,
    In c cs
    /\ label c = Some (band_label band)
    /\ m_lim_getitem m_lim band = Ok ml
    /\ xdata c = map IZR Ts
    /\ Forall2 (fun T d =>
                  exists q, get_abs_mag fs (model_fname T) f = Ok q
                            /\ d = Rpower 10 ((ml - 0.5 - value q) / 5) * 10)
               Ts (ydata c).
Proof.
  intros Hb Hn Hband Hpost Hplot.
  assert (HT : band <> "T").
  { cbn in Hband. destruct Hband as [E|[E|[E|[E|[]]]]]; rewrite <- E; discriminate. }
  destruct (build_table_lookup fs pre post f band tbl Hb Hn HT Hpost)
    as (mags & Hget & Hmags).
  assert (HgetT : tbl_getitem tbl "T" = Ok (map IZR Ts)).
  { rewrite build_table_eq in Hb.
    destruct (fill_table fs (pre ++ f :: post) []) as [d|e]; [|discriminate].
    cbn [obind] in Hb. injection Hb as <-. unfold tbl_getitem. cbn [columns].
    now rewrite dict_get_set_same. }
  unfold plot_distance_limits in Hplot.
  destruct (plot_each_In _ _ _ band Hplot Hband) as (c & Hc & Hbody).
  unfold d_lim in Hbody. rewrite Hget, HgetT in Hbody.
  destruct (m_lim_getitem m_lim band) as [ml|e] eqn:Hml; cbn [bind] in Hbody;
    [|discriminate].
  injection Hbody as <-. exists (mkCurve (Some (band_label band)) (map IZR Ts)
                                          (map (d_lim_of ml) mags)), ml.
  cbn [label xdata ydata]. repeat (split; [auto|]).
  clear - Hmags. induction Hmags as [|T m ts ms (q & Hq & <-) _ IH]; cbn [map];
    constructor; auto.
  exists q. split; auto.
Qed.

Lemma distance_curve_from_files_witness :
  exists cs,
    plot_distance_limits sample_table = Ok cs
    /\ exists c ml,
         In c cs
         /\ label c = Some (band_label "r")
         /\ m_lim_getitem m_lim "r" = Ok ml
         /\ xdata c = map IZR Ts
         /\ Forall2 (fun T d =>
                       exists q, get_abs_mag sample_cell_fs (model_fname T)
                                   "../data/hsc_responses_v1/hsc_r.dat" = Ok q
                                 /\ d = Rpower 10 ((ml - 0.5 - value q) / 5) * 10)
                    Ts (ydata c).
Proof.
  eexists. split; [reflexivity|].
  apply (distance_curve_from_files sample_cell_fs
           ["../data/hsc_responses_v1/hsc_g.dat"]
           (tl (tl sample_filter_fnames))
           "../data/hsc_responses_v1/hsc_r.dat" "r" sample_table).
  - exact sample_table_run.
  - reflexivity.
  - cbn; tauto.
  - intros g [<-|[<-|[<-|[]]]]; discriminate.
  - reflexivity.
Defined.

Lemma plots_agree_at_100pc_witness :
  exists cs1 cs2,
    plot_magnitudes_100pc sample_table = Ok cs1
    /\ plot_distance_limits sample_table = Ok cs2
    /\ Forall2 (fun c1 c2 =>
                  label c1 = label c2 /\ xdata c1 = xdata c2
                  /\ exists fil ml,
                       label c1 = Some (band_label fil)
                       /\ m_lim_getitem m_lim fil = Ok ml
                       /\ Forall2 (fun m100 d => 100 <= d <-> m100 <= ml - 0.5)
                                  (ydata c1) (ydata c2))
               cs1 cs2.
Proof.
  eexists. eexists. split; [reflexivity|]. split; [reflexivity|].
  apply (plots_agree_at_100pc sample_table); reflexivity.
Defined.

Lemma distance_plot_after_build_table_witness :
  (exists cs, plot_distance_limits sample_table = Ok cs) <->
  forall band, In band ["r"; "i"; "z"; "y"] ->
               exists f, In f sample_filter_fnames /\ pattr_search f = Some band.
Proof.
  apply (distance_plot_after_build_table sample_cell_fs).
  exact sample_table_run.
Defined.

End DetectionDistance.

(** * The spectrum plot *)

Section SpectrumPlotFacts.

Open Scope string_scope.

Lemma compress_map (g : R -> R) (b : R -> bool) (l : list R) :
  compress (map g l) (map b l) = map g (filter b l).
Proof.
  induction l as [|x l IH]; simpl; auto.
  destruct (b x); simpl; now rewrite IH.
Qed.

Lemma compress_map2 (h : R -> R -> R) (b : R -> bool) (a l : list R) :
  compress (map2 h a l) (map b l)
  = map (fun r => h (fst r) (snd r))
        (filter (fun r => b (snd r)) (combine a l)).
Proof.
  revert l; induction a as [|x a IH]; intros [|y l]; simpl; auto.
  destruct (b y); simpl; now rewrite IH.
Qed.

Lemma window_mask (lam : list R) :
  map2 andb
       (map (fun x => Rltb (3800 * (1e-10 / 1e-10)) x) (map angstrom_of_micron lam))
       (map (fun x => Rltb x (11000 * (1e-10 / 1e-10))) (map angstrom_of_micron lam))
  = map in_window_micron lam.
Proof.
  induction lam as [|l lam IH]; simpl; auto. rewrite IH. f_equal.
  unfold in_window_micron, angstrom_of_micron, Rltb.
  destruct (Rlt_dec (3800 * (1e-10 / 1e-10)) (l * 1e4));
    destruct (Rlt_dec 0.38 l); try (exfalso; lra);
    destruct (Rlt_dec (l * 1e4) (11000 * (1e-10 / 1e-10)));
    destruct (Rlt_dec l 1.1); try (exfalso; lra); reflexivity.
Qed.

Lemma select_window_eq (fs : FileSystem) (p : string) (t : Table)
      (lam fdet : list R) :
  fs p = Ok t ->
  getitem t "LAMBDA(mic)" = Ok lam ->
  getitem t "FDET(milliJ)" = Ok fdet ->
  length fdet = length lam ->
  select_window fs p
  = Ok (mkQ (map angstrom_of_micron (filter in_window_micron lam)) u.angstrom,
        mkQ (map (fun r => cgs_of_mJy (fst r)
                           * fla_factor (angstrom_of_micron (snd r)))
                 (filter (fun r => in_window_micron (snd r)) (combine fdet lam)))
            (u.erg / u.s / u.cm ^ 2 / u.angstrom)%U).
Proof.
  intros Hfs Hl Hf Hlen. unfold select_window.
  rewrite (load_model_lambda_eq fs _ _ _ _ Hfs Hl Hf). cbn [bind].
  unfold q_gt, q_lt. cbn [unit value]. unfold unit_to.
  change (dim_eqb u.angstrom u.angstrom) with true. cbv iota. cbn [bind].
  change (scale u.angstrom) with 1e-10.
  rewrite window_mask. unfold bool_index. cbn [value unit].
  rewrite !length_map.
  rewrite (map2_length _ fdet lam Hlen), Hlen, Nat.eqb_refl.
  cbn [bind]. rewrite compress_map, compress_map2. reflexivity.
Qed.

(** X17. For a model file none of whose wavelengths lies within 1e-9
    micron of 0.38 or of 1.1 micron, the spectrum plot keeps exactly the
    rows whose wavelength lies between 0.38 and 1.1 micron (3800 and 11000
    angstrom), in file order, and wavelengths and flux densities stay
    aligned row by row. *)
Theorem select_window_rows (fs : FileSystem) (p : string) (t : Table)
        (lam fdet : list R) :
  fs p = Ok t ->
  getitem t "LAMBDA(mic)" = Ok lam ->
  getitem t "FDET(milliJ)" = Ok fdet ->
  length fdet = length lam ->
  Forall clear_of_window_edges lam ->
  exists rows,
    rows = filter (fun r => Rltb 0.38 (snd r) && Rltb (snd r) 1.1)
                  (combine fdet lam)
    /\ select_window fs p
       = Ok (mkQ (map (fun r => angstrom_of_micron (snd r)) rows) u.angstrom,
             mkQ (map (fun r => cgs_of_mJy (fst r)
                                * fla_factor (angstrom_of_micron (snd r))) rows)
                 (u.erg / u.s / u.cm ^ 2 / u.angstrom)%U).
Proof.
  intros Hfs Hl Hf Hlen _. eexists. split; [reflexivity|].
  rewrite (select_window_eq fs p t lam fdet Hfs Hl Hf Hlen).
  do 3 f_equal.
  clear - Hlen. revert fdet Hlen.
  induction lam as [|l lam IH]; intros [|f fdet] Hlen; simpl in *;
    try discriminate; auto.
  fold (in_window_micron l). destruct (in_window_micron l); simpl; auto.
  f_equal. apply IH. lia.
Qed.

Lemma fold_max_ge (l : list R) (x : R) :
  x <= fold_left Rmax l x /\ Forall (fun y => y <= fold_left Rmax l x) l.
Proof.
  revert x; induction l as [|a l IH]; intros x; simpl.
  - split; [lra|constructor].
  - destruct (IH (Rmax x a)) as [H1 H2].
    pose proof (Rmax_l x a). pose proof (Rmax_r x a).
    split; [lra|]. constructor; [lra|exact H2].
Qed.

Lemma fold_max_in (l : list R) (x : R) : In (fold_left Rmax l x) (x :: l).
Proof.
  revert x; induction l as [|a l IH]; intros x; simpl; auto.
  destruct (IH (Rmax x a)) as [H|H].
  - unfold Rmax in H at 1. destruct (Rle_dec x a); rewrite <- H; auto.
  - auto.
Qed.

(** X18. Where the spectrum has a positive sample, the normalised spectrum
    [f_lam / f_lam.max()] has as many samples as [f_lam], none above 1,
    and it reaches 1. *)
Theorem normalise_peak (q q' : QArray) :
  normalise q = Ok q' ->
  Exists (fun x => 0 < x) (value q) ->
  length (value q') = length (value q)
  /\ Forall (fun y => y <= 1) (value q')
  /\ In 1 (value q').
Proof.
  unfold normalise. destruct (value q) as [|x a] eqn:Hv; cbn [array_max bind];
    [discriminate|].
  intros E Hpos.
  set (m := fold_left Rmax a x) in *.
  assert (Hq : value q' = map (fun y => y / m) (x :: a))
    by (injection E as <-; reflexivity).
  rewrite Hq. clear E Hq.
  destruct (fold_max_ge a x) as [Hx Ha]. fold m in Hx, Ha.
  assert (Hall : Forall (fun y => y <= m) (x :: a)) by (constructor; auto).
  assert (Hm : 0 < m).
  { apply Exists_exists in Hpos. destruct Hpos as (y & Hy & Hy0).
    rewrite Forall_forall in Hall. specialize (Hall y Hy). lra. }
  split; [apply length_map|]. split.
  - apply Forall_map. revert Hall. apply Forall_impl. intros y Hy.
    apply (Rmult_le_reg_r m); auto. unfold Rdiv. rewrite Rmult_assoc.
    rewrite Rinv_l by lra. lra.
  - apply in_map_iff. exists m. split; [field; lra|]. apply fold_max_in.
Qed.

Lemma plot_filters_step (fs : FileSystem) (f : string) (rest : list string) :
  plot_filters fs (f :: rest)
  = match pattr_search f with
    | None => Abort AttributeError
    | Some _ =>
        if is_plotted f then
          match load_filter fs f true with
          | Ok (filter_lam, filter_resp) =>
              match plot_filters fs rest with
              | Done cs => Done (mkCurve None (value filter_lam) filter_resp :: cs)
              | Abort e => Abort e
              end
          | Raise e => Abort (Lib e)
          end
        else plot_filters fs rest
    end.
Proof.
  cbn [plot_filters]. unfold is_plotted.
  destruct (pattr_search f) as [name|]; auto.
  destruct (String.prefix "nb" name); cbn [negb]; auto.
  destruct (load_filter fs f true) as [[fl fr]|e]; reflexivity.
Qed.

(** X19. The curves of the filter loop are, in the order of the file
    names, the two columns of every file whose identifier does not begin
    with [nb], unchanged: wavelengths in angstrom as abscissae, responses
    as ordinates. *)
Theorem plot_filters_curves (fs : FileSystem) (fnames : list string)
        (cs : list Curve) :
  plot_filters fs fnames = Done cs ->
  Forall2 (fun f c => exists n1 n2, fs f = Ok [(n1, xdata c); (n2, ydata c)])
          (filter is_plotted fnames) cs.
Proof.
  revert cs. induction fnames as [|f rest IH]; intros cs.
  - cbn. intros E; injection E as <-. constructor.
  - rewrite plot_filters_step. cbn [filter].
    destruct (pattr_search f) as [name|]; [|discriminate].
    destruct (is_plotted f); [|apply IH].
    destruct (load_filter fs f true) as [[fl fr]|e] eqn:Hl; [|discriminate].
    destruct (plot_filters fs rest) as [cs'|e]; [|discriminate].
    intros E; injection E as <-. constructor; [|now apply IH].
    cbn [xdata ydata].
    destruct (load_filter_inv fs _ _ _ _ Hl) as (n1 & c1 & n2 & Hfs).
    rewrite (load_filter_eq fs _ _ _ _ _ true Hfs) in Hl.
    injection Hl as <-. cbn [value]. eauto.
Qed.

(** X20. The filter loop never opens a narrow-band file: its outcome is the
    same on two file systems that agree on the files whose identifier does
    not begin with [nb]. *)
Theorem plot_filters_skips_narrow_band (fs fs' : FileSystem)
        (fnames : list string) :
  (forall f, In f fnames -> is_plotted f = true -> fs f = fs' f) ->
  plot_filters fs fnames = plot_filters fs' fnames.
Proof.
  induction fnames as [|f rest IH]; intros H; [reflexivity|].
  rewrite !plot_filters_step.
  rewrite IH by (intros; apply H; auto; now right).
  destruct (pattr_search f); auto.
  destruct (is_plotted f) eqn:Hp; auto.
  unfold load_filter, ascii_read. rewrite (H f (or_introl eq_refl) Hp).
  reflexivity.
Qed.

(** X21. A model all of whose samples lie outside the window, by more than
    1e-9 micron, makes the cell fail with [ValueError] (the maximum of an
    empty array), but only after the filter loop has run without an
    exception. *)
Theorem plot_spectrum_empty_window (fs : FileSystem) (p : string) (t : Table)
        (lam fdet : list R) (fnames : list string) :
  fs p = Ok t ->
  getitem t "LAMBDA(mic)" = Ok lam ->
  getitem t "FDET(milliJ)" = Ok fdet ->
  length fdet = length lam ->
  Forall (fun l => l <= 0.38 - window_margin \/ 1.1 + window_margin <= l) lam ->
  plot_spectrum fs p fnames
  = match plot_filters fs fnames with
    | Done _ => Abort (Lib ValueError)
    | Abort e => Abort e
    end.
Proof.
  intros Hfs Hl Hf Hlen Hout. unfold plot_spectrum.
  rewrite (select_window_eq fs p t lam fdet Hfs Hl Hf Hlen). cbn [lift obind].
  assert (E : filter (fun r => in_window_micron (snd r)) (combine fdet lam) = []).
  { clear - Hout. revert fdet. induction Hout as [|l lam H _ IH]; intros [|f fdet];
      simpl; auto.
    rewrite IH. unfold in_window_micron. unfold window_margin in H.
    destruct H as [H|H].
    - assert (H' : l <= 0.38) by lra. apply Rltb_false in H'. now rewrite H'.
    - assert (H' : 1.1 <= l) by lra. apply Rltb_false in H'. rewrite H'.
      now rewrite andb_false_r. }
  rewrite E. destruct (plot_filters fs fnames); reflexivity.
Qed.

End SpectrumPlotFacts.

(** * More on the loaders and the magnitude *)

Section LoaderExtras.

Open Scope string_scope.

(** X22. The two outputs of [load_model] describe one spectrum: row by row
    [lambda * f_lambda = nu * f_nu], as numbers and in one unit. *)
Theorem load_model_flux_consistency (fs : FileSystem) (p : string) (t : Table)
        (lam fdet : list R) :
  fs p = Ok t ->
  getitem t "LAMBDA(mic)" = Ok lam ->
  getitem t "FDET(milliJ)" = Ok fdet ->
  Forall (fun l => 0 < l) lam ->
  exists nu fnu la fla,
    load_model fs p false = Ok (nu, fnu)
    /\ load_model fs p true = Ok (la, fla)
    /\ (unit la * unit fla)%U = (unit nu * unit fnu)%U
    /\ map2 Rmult (value la) (value fla) = map2 Rmult (value nu) (value fnu).
Proof.
  intros Hfs Hl Hf Hpos.
  rewrite (load_model_nu_eq fs _ _ _ _ Hfs Hl Hf).
  rewrite (load_model_lambda_eq fs _ _ _ _ Hfs Hl Hf).
  eexists _, _, _, _. split; [reflexivity|]. split; [reflexivity|].
  cbn [value unit]. split.
  - unfold unit_mul. f_equal; try reflexivity.
    cbn [scale unit_div unit_pow u.angstrom u.Hz u.erg u.s u.cm].
    simpl pow. lra.
  - clear Hl Hf. revert fdet.
    induction Hpos as [|l lam Hl0 _ IH]; intros [|f fdet]; cbn [map map2]; auto.
    f_equal; [|apply IH].
    unfold fla_factor, Hz_of_angstrom, angstrom_of_micron, cgs_of_mJy, c_Aps.
    pose proof c_SI_pos. field. split; lra.
Qed.

(** X23. [get_abs_mag] returns a magnitude exactly when both files are
    read, the model has its two columns and at least one row, and the
    filter file has two columns with at least one row. *)
Theorem get_abs_mag_succeeds_iff (fs : FileSystem) (p1 p2 : string) :
  (exists q, get_abs_mag fs p1 p2 = Ok q) <->
  (exists t lam fdet n1 wl n2 resp,
      fs p1 = Ok t
      /\ getitem t "LAMBDA(mic)" = Ok lam
      /\ getitem t "FDET(milliJ)" = Ok fdet
      /\ fs p2 = Ok [(n1, wl); (n2, resp)]
      /\ lam <> [] /\ wl <> [] /\ length resp = length wl).
Proof.
  split.
  - intros [q H].
    destruct (load_model fs p1 false) as [[nu fnu]|e] eqn:Hm.
    2:{ unfold get_abs_mag in H. rewrite Hm in H. discriminate. }
    destruct (load_filter fs p2 false) as [[fnu' resp]|e] eqn:Hfl.
    2:{ unfold get_abs_mag in H. rewrite Hm, Hfl in H. discriminate. }
    destruct (load_model_ok_inv _ _ _ _ Hm) as (t & lam & fdet & Hfs & Hl & Hf).
    destruct (load_filter_inv _ _ _ _ _ Hfl) as (n1 & wl & n2 & Hfs2).
    rewrite (get_abs_mag_eq fs _ _ _ _ _ _ _ _ _ Hfs Hl Hf Hfs2) in H.
    exists t, lam, fdet, n1, wl, n2, resp. repeat (split; [assumption|]).
    apply (proj1 (spec_magnitude_ok_iff lam fdet wl resp)).
    destruct (spec_magnitude lam fdet wl resp) as [m|e]; [eauto|discriminate].
  - intros (t & lam & fdet & n1 & wl & n2 & resp & Hfs & Hl & Hf & Hfs2 & Hc).
    rewrite (get_abs_mag_eq fs _ _ _ _ _ _ _ _ _ Hfs Hl Hf Hfs2).
    apply (proj2 (spec_magnitude_ok_iff lam fdet wl resp)) in Hc.
    destruct Hc as [m ->]. cbn [bind]. eauto.
Qed.

(** X24. On a filter file whose rows descend in wavelength the resampling
    is the intended one: a model frequency below the filter's range gets the
    first response, one at or above the last filter frequency the last
    response, and one between two neighbouring filter frequencies the value
    of the straight line through their responses. *)
Theorem resampling_on_descending_wavelength_filter (lam wl resp : list R) :
  Forall (fun w => 0 < w) wl -> StronglySorted Rgt wl ->
  wl <> [] -> length resp = length wl ->
  exists r,
    np_interp (model_nu_values lam) (filter_nu_values wl) resp = Ok r
    /\ length r = length lam
    /\ forall i, (i < length lam)%nat ->
         let x := nth i (model_nu_values lam) 0 in
         let xp := filter_nu_values wl in
         let n := Z.of_nat (length wl) in
         (x < aref xp 0 -> nth i r 0 = aref resp 0)
         /\ (aref xp (n - 1) <= x -> nth i r 0 = aref resp (n - 1))
         /\ (forall j, (0 <= j < n - 1)%Z ->
                       aref xp j <= x < aref xp (j + 1) ->
                       nth i r 0
                       = aref resp j
                         + (aref resp (j + 1) - aref resp j)
                           / (aref xp (j + 1) - aref xp j) * (x - aref xp j)).
Proof.
  intros Hpos Hs Hne Hlen.
  pose proof (filter_grid_ascending wl Hpos Hs) as Hnd.
  assert (Hn : length (filter_nu_values wl) = length wl)
    by (unfold filter_nu_values; apply length_map).
  assert (H1 : (1 <= Z.of_nat (length (filter_nu_values wl)))%Z).
  { rewrite Hn. destruct wl; [congruence|cbn [length]; lia]. }
  rewrite np_interp_monotone by (left; exact Hnd).
  destruct (Z.of_nat (length (filter_nu_values wl)) =? 0)%Z eqn:E0;
    [apply Z.eqb_eq in E0; lia|].
  rewrite Hn, Hlen, Z.eqb_refl. cbn [negb].
  eexists. split; [reflexivity|]. split.
  { unfold model_nu_values. now rewrite !length_map. }
  intros i Hi.
  set (x := nth i (model_nu_values lam) 0).
  set (xp := filter_nu_values wl) in *.
  set (n := Z.of_nat (length wl)).
  assert (Er : nth i (map (interp1 xp resp) (model_nu_values lam)) 0
               = interp1 xp resp x).
  { apply nth_map_in. unfold model_nu_values. now rewrite length_map. }
  rewrite Er.
  assert (Hnn : Z.of_nat (length xp) = n) by (unfold n; now rewrite Hn).
  pose proof (interp1_sorted_spec xp resp x Hnd H1) as Hspec.
  rewrite Hnn in Hspec. unfold nondecreasing in Hnd. rewrite Hnn in Hnd.
  assert (Hlast : forall j, (0 <= j <= n - 1)%Z -> aref xp j <= aref xp (n - 1))
    by (intros j Hj; apply Hnd; lia).
  assert (Hfirst : forall j, (0 <= j <= n - 1)%Z -> aref xp 0 <= aref xp j)
    by (intros j Hj; apply Hnd; lia).
  rewrite Hnn in H1.
  split; [|split].
  - intros Hx. destruct Hspec as [[_ E]|[[Hx' _]|(j & Hcut & Hj & _)]]; auto.
    + pose proof (Hlast 0%Z ltac:(lia)). lra.
    + destruct Hcut as (_ & Hle & _). specialize (Hle 0%Z ltac:(lia)). lra.
  - intros Hx. destruct Hspec as [[Hx' _]|[[_ E]|(j & Hcut & Hj & Hc)]]; auto.
    + pose proof (Hlast 0%Z ltac:(lia)). lra.
    + destruct Hc as [[-> E]|(Hjn & [_ Hx'] & _)]; auto.
      pose proof (Hlast (j + 1)%Z ltac:(lia)). lra.
  - intros j Hj [Hlo Hhi].
    destruct Hspec as [[Hx' _]|[[Hx' _]|(j' & Hcut & Hj' & Hc)]].
    + pose proof (Hfirst j ltac:(lia)). lra.
    + pose proof (Hlast (j + 1)%Z ltac:(lia)). lra.
    + assert (j' = j).
      { destruct Hcut as (Hr & Hle & Hgt). rewrite Hnn in Hr, Hgt.
        destruct (Z.lt_trichotomy j' j) as [L|[E|G]]; auto.
        - specialize (Hgt j ltac:(lia)). lra.
        - specialize (Hle (j + 1)%Z ltac:(lia)). lra. }
      subst j'. destruct Hc as [[-> _]|(_ & _ & E)]; [lia|exact E].
Qed.

Lemma combine_take (a b : list R) (idx : list nat) :
  combine (take a idx) (take b idx) = take_rows a b idx.
Proof. induction idx as [|i idx IH]; simpl; auto. now rewrite IH. Qed.

(** X25. What [get_abs_mag] hands to [simps] are the rows of the model in
    ascending frequency: indexing with [np.argsort(model_nu)] keeps each
    flux density with its frequency, loses and repeats no row, and leaves
    the frequencies in nondecreasing order. *)
Theorem integration_rows_sorted (model_nu model_fnu : QArray) :
  length (value model_nu) = length (value model_fnu) ->
  Sorted Rle (value (qtake model_nu (argsort (value model_nu))))
  /\ Permutation
       (combine (value (qtake model_nu (argsort (value model_nu))))
                (value (qtake model_fnu (argsort (value model_nu)))))
       (combine (value model_nu) (value model_fnu)).
Proof.
  intros Hlen. cbn [qtake value]. split; [apply take_sorted|].
  rewrite combine_take. now apply take_rows_perm.
Qed.

(** X26. The magnitude does not depend on the order of the rows of the
    model file: any rearrangement of the rows gives the same result, as
    long as no wavelength occurs twice and the filter grid is monotone. *)
Theorem magnitude_invariant_under_row_order
        (fs : FileSystem) p p' p2 t t' lam fdet lam' fdet' n1 wl n2 resp :
  fs p = Ok t ->
  getitem t "LAMBDA(mic)" = Ok lam ->
  getitem t "FDET(milliJ)" = Ok fdet ->
  fs p' = Ok t' ->
  getitem t' "LAMBDA(mic)" = Ok lam' ->
  getitem t' "FDET(milliJ)" = Ok fdet' ->
  fs p2 = Ok [(n1, wl); (n2, resp)] ->
  length lam = length fdet ->
  length lam' = length fdet' ->
  Forall (fun l => 0 < l) lam ->
  NoDup lam ->
  Permutation (combine lam fdet) (combine lam' fdet') ->
  monotone_grid (filter_nu_values wl) ->
  get_abs_mag fs p' p2 = get_abs_mag fs p p2.
Proof.
  intros Hfs Hl Hf Hfs' Hl' Hf' Hfs2 Elen Elen' Hpos Hnd Hperm Hm.
  destruct (flux_ratio_order_free lam fdet lam' fdet' wl resp) as [Hr _]; auto.
  rewrite (get_abs_mag_eq fs _ _ _ _ _ _ _ _ _ Hfs Hl Hf Hfs2).
  rewrite (get_abs_mag_eq fs _ _ _ _ _ _ _ _ _ Hfs' Hl' Hf' Hfs2).
  unfold spec_magnitude. now rewrite Hr.
Qed.

Lemma append_inv_head (s a b : string) : s ++ a = s ++ b -> a = b.
Proof.
  induction s as [|c s IH]; cbn [append]; auto.
  intros E. injection E as E. auto.
Qed.

Lemma append_length (a b : string) :
  String.length (a ++ b) = (String.length a + String.length b)%nat.
Proof. induction a as [|c a IH]; cbn; auto. Qed.

Lemma append_inv_tail (a b s : string) : a ++ s = b ++ s -> a = b.
Proof.
  revert b. induction a as [|c a IH]; intros [|d b] E; auto.
  - apply (f_equal String.length) in E. cbn [append] in E.
    change (String.length (String d (b ++ s)))
      with (S (String.length (b ++ s))) in E.
    rewrite append_length in E. lia.
  - apply (f_equal String.length) in E. cbn [append] in E.
    change (String.length (String c (a ++ s)))
      with (S (String.length (a ++ s))) in E.
    rewrite append_length in E. lia.
  - cbn [append] in E. injection E as -> E. f_equal. auto.
Qed.

Lemma format_d_injective (T T' : Z) : format_d T = format_d T' -> T = T'.
Proof.
  unfold format_d. intros E. apply DecimalZ.to_int_inj.
  assert (Hnz : forall z, Z.to_int z <> Decimal.Pos Decimal.Nil
                          /\ Z.to_int z <> Decimal.Neg Decimal.Nil).
  { intros [|q|q]; cbn; split; try discriminate; intros [= H];
      now apply (DecimalPos.Unsigned.to_uint_nonnil q). }
  destruct (Hnz T) as [H1 H2]. destruct (Hnz T') as [H1' H2'].
  pose proof (NilZero.isi _ H1 H2) as I. pose proof (NilZero.isi _ H1' H2') as I'.
  rewrite E in I. congruence.
Qed.

(** X9. Different temperatures name different model files. *)
Theorem model_fname_injective (T T' : Z) :
  model_fname T = model_fname T' -> T = T'.
Proof.
  unfold model_fname. intros E.
  apply append_inv_head, append_inv_tail in E.
  now apply format_d_injective.
Qed.

End LoaderExtras.

(** * The statements above on the sample files *)

Section ExtraWitnesses.

Open Scope string_scope.

Lemma select_window_rows_witness :
  exists rows,
    rows = filter (fun r => Rltb 0.38 (snd r) && Rltb (snd r) 1.1)
                  (combine [3; 6; 9; 12] [0.25; 0.5; 1; 2])
    /\ select_window sample_fs "T1800_g50_d2f0.c100"
       = Ok (mkQ (map (fun r => angstrom_of_micron (snd r)) rows) u.angstrom,
             mkQ (map (fun r => cgs_of_mJy (fst r)
                                * fla_factor (angstrom_of_micron (snd r))) rows)
                 (u.erg / u.s / u.cm ^ 2 / u.angstrom)%U).
Proof.
  apply (select_window_rows sample_fs "T1800_g50_d2f0.c100" sample_model);
    try reflexivity.
  unfold clear_of_window_edges, window_margin.
  repeat (apply Forall_cons; [split; lra|]). apply Forall_nil.
Defined.

Lemma normalise_peak_witness :
  length (value (mkQ [2 / Rmax 2 4; 4 / Rmax 2 4] (u.Hz / u.Hz)%U))
  = length (value (mkQ [2; 4] u.Hz))
  /\ Forall (fun y => y <= 1)
            (value (mkQ [2 / Rmax 2 4; 4 / Rmax 2 4] (u.Hz / u.Hz)%U))
  /\ In 1 (value (mkQ [2 / Rmax 2 4; 4 / Rmax 2 4] (u.Hz / u.Hz)%U)).
Proof.
  apply (normalise_peak (mkQ [2; 4] u.Hz)).
  - reflexivity.
  - apply Exists_cons_hd. cbn [value]. lra.
Defined.

Lemma plot_filters_curves_witness :
  Forall2 (fun f c => exists n1 n2,
               sample_cell_fs f = Ok [(n1, xdata c); (n2, ydata c)])
          (filter is_plotted ["../data/hsc_responses_v1/hsc_r.dat";
                              "../data/hsc_responses_v1/hsc_nb816.dat"])
          [mkCurve None [4000; 10000; 25000] [0.7; 0.7; 0.7]].
Proof.
  apply (plot_filters_curves sample_cell_fs). reflexivity.
Defined.

Lemma plot_filters_skips_narrow_band_witness :
  plot_filters sample_cell_fs
               ["../data/hsc_responses_v1/hsc_r.dat";
                "../data/hsc_responses_v1/hsc_nb816.dat"]
  = plot_filters (fs_update sample_cell_fs
                            "../data/hsc_responses_v1/hsc_nb816.dat" [])
                 ["../data/hsc_responses_v1/hsc_r.dat";
                  "../data/hsc_responses_v1/hsc_nb816.dat"].
Proof.
  apply (plot_filters_skips_narrow_band sample_cell_fs).
  intros f [<-|[<-|[]]] Hp.
  - reflexivity.
  - vm_compute in Hp. discriminate Hp.
Defined.

Lemma plot_spectrum_empty_window_witness :
  plot_spectrum (fs_update sample_cell_fs "infrared.c100" sample_infrared_model)
                "infrared.c100" ["../data/hsc_responses_v1/hsc_r.dat"]
  = match plot_filters
            (fs_update sample_cell_fs "infrared.c100" sample_infrared_model)
            ["../data/hsc_responses_v1/hsc_r.dat"] with
    | Done _ => Abort (Lib ValueError)
    | Abort e => Abort e
    end.
Proof.
  apply (plot_spectrum_empty_window _ "infrared.c100" sample_infrared_model
           [2; 4] [3; 6]); try reflexivity.
  unfold window_margin.
  repeat (apply Forall_cons; [right; lra|]). apply Forall_nil.
Defined.

Lemma load_model_flux_consistency_witness :
  exists nu fnu la fla,
    load_model sample_fs "T1800_g50_d2f0.c100" false = Ok (nu, fnu)
    /\ load_model sample_fs "T1800_g50_d2f0.c100" true = Ok (la, fla)
    /\ (unit la * unit fla)%U = (unit nu * unit fnu)%U
    /\ map2 Rmult (value la) (value fla) = map2 Rmult (value nu) (value fnu).
Proof.
  apply (load_model_flux_consistency sample_fs "T1800_g50_d2f0.c100"
           sample_model [0.25; 0.5; 1; 2] [3; 6; 9; 12]); try reflexivity.
  repeat constructor; lra.
Defined.

Lemma resampling_on_descending_wavelength_filter_witness :
  exists r,
    np_interp (model_nu_values [0.25; 0.5; 1; 2])
              (filter_nu_values [25000; 10000; 4000]) [0.1; 0.8; 0.2] = Ok r
    /\ length r = length [0.25; 0.5; 1; 2]
    /\ forall i, (i < 4)%nat ->
         let x := nth i (model_nu_values [0.25; 0.5; 1; 2]) 0 in
         let xp := filter_nu_values [25000; 10000; 4000] in
         let n := Z.of_nat (length [25000; 10000; 4000]) in
         (x < aref xp 0 -> nth i r 0 = aref [0.1; 0.8; 0.2] 0)
         /\ (aref xp (n - 1) <= x -> nth i r 0 = aref [0.1; 0.8; 0.2] (n - 1))
         /\ (forall j, (0 <= j < n - 1)%Z ->
                       aref xp j <= x < aref xp (j + 1) ->
                       nth i r 0
                       = aref [0.1; 0.8; 0.2] j
                         + (aref [0.1; 0.8; 0.2] (j + 1) - aref [0.1; 0.8; 0.2] j)
                           / (aref xp (j + 1) - aref xp j) * (x - aref xp j)).
Proof.
  apply (resampling_on_descending_wavelength_filter [0.25; 0.5; 1; 2]
           [25000; 10000; 4000] [0.1; 0.8; 0.2]).
  - repeat constructor; lra.
  - repeat constructor; unfold Rgt; lra.
  - discriminate.
  - reflexivity.
Defined.

Lemma integration_rows_sorted_witness :
  Sorted Rle (value (qtake (mkQ [3; 1; 2] u.Hz) (argsort [3; 1; 2])))
  /\ Permutation
       (combine (value (qtake (mkQ [3; 1; 2] u.Hz) (argsort [3; 1; 2])))
                (value (qtake (mkQ [30; 10; 20] u.Jansky) (argsort [3; 1; 2]))))
       (combine [3; 1; 2] [30; 10; 20]).
Proof.
  apply (integration_rows_sorted (mkQ [3; 1; 2] u.Hz)
                                 (mkQ [30; 10; 20] u.Jansky)).
  reflexivity.
Defined.

Lemma magnitude_invariant_under_row_order_witness :
  get_abs_mag (fs_update sample_fs "shuffled.c100" sample_model_shuffled)
              "shuffled.c100" "hsc_r.dat"
  = get_abs_mag (fs_update sample_fs "shuffled.c100" sample_model_shuffled)
                "T1800_g50_d2f0.c100" "hsc_r.dat".
Proof.
  apply (magnitude_invariant_under_row_order
           (fs_update sample_fs "shuffled.c100" sample_model_shuffled)
           "T1800_g50_d2f0.c100" "shuffled.c100" "hsc_r.dat"
           sample_model sample_model_shuffled
           [0.25; 0.5; 1; 2] [3; 6; 9; 12] [0.5; 2; 0.25; 1] [6; 12; 3; 9]
           "col1" [4000; 10000; 25000] "col2" [0.2; 0.8; 0.1]);
    try reflexivity.
  - repeat constructor; lra.
  - nodup_reals.
  - cbn [combine].
    apply (Permutation_cons_app [(0.5, 6); (2, 12)] [(1, 9)]). cbn [app].
    apply perm_skip, perm_swap.
  - right. apply filter_grid_descending; repeat constructor; lra.
Defined.

Lemma model_fname_injective_witness : 700%Z = 700%Z.
Proof. apply (model_fname_injective 700 700). reflexivity. Defined.

End ExtraWitnesses.

(** * Where the statements of the specification stop

    Three runs on concrete files: a filter file whose rows are out of
    order, on which the order of the model rows changes the magnitude, and
    a model whose band-averaged flux density is negative although every
    sample is positive. *)

Section UnorderedGrid.

Variable K : R.
Hypothesis HK : 0 < K.





End UnorderedGrid.

Section Refutations.

Open Scope string_scope.





Lemma ln_nonpos (x : R) : x <= 0 -> ln x = 0.
Proof.
  intros H. unfold ln. destruct (Rlt_dec 0 x); [exfalso; lra|reflexivity].
Qed.

Lemma log10_nonpos (x : R) : x <= 0 -> log10 x = 0.
Proof. intros H. unfold log10. rewrite ln_nonpos by assumption. lra. Qed.


Lemma log10_2_pos : 0 < log10 2.
Proof.
  unfold log10. pose proof ln10_pos as H10.
  assert (H2 : 0 < ln 2) by (rewrite <- ln_1; apply ln_increasing; lra).
  apply Rdiv_lt_0_compat; assumption.
Qed.


Lemma steep_grid :
  model_nu_values [1; 0.5; 0.125]
  = [c_SI * 1e6 * 1; c_SI * 1e6 * 2; c_SI * 1e6 * 8].
Proof.
  unfold model_nu_values, Hz_of_angstrom, angstrom_of_micron.
  cbn [map]. pose proof c_SI_pos.
  repeat (apply f_equal2; [lra|]); reflexivity.
Qed.

(** The Simpson weight of the first of three unequally spaced samples is
    negative here: the band mean of 100, 1, 1 mJy is -65 mJy. *)
Lemma steep_band_mean (c : R) :
  band_mean_flux (map Jy_of_mJy (map (fun f => c * f) [100; 1; 1]))
                 (model_nu_values [1; 0.5; 0.125])
  = Ok (c * (-65 / 1000)).
Proof.
  assert (Hs : StronglySorted Rlt (model_nu_values [1; 0.5; 0.125])).
  { apply model_nu_ascending; repeat constructor; unfold Rgt; lra. }
  unfold band_mean_flux. cbv zeta. rewrite (take_argsort_ascending _ Hs).
  rewrite (take_ascending (model_nu_values [1; 0.5; 0.125])
             (map Jy_of_mJy (map (fun f => c * f) [100; 1; 1])) eq_refl Hs).
  rewrite steep_grid.
  assert (HK : 0 < c_SI * 1e6) by (pose proof c_SI_pos; lra).
  clear Hs. generalize dependent (c_SI * 1e6). intros K HK.
  unfold simps, basic_simps.
  cbn [map length Nat.eqb Nat.even combine skipn panels nth Nat.sub bind].
  f_equal. unfold simps_panel, Jy_of_mJy. cbv zeta. field. lra.
Qed.

Lemma steep_flux_ratio (c : R) :
  flux_ratio [1; 0.5; 0.125] (map (fun f => c * f) [100; 1; 1])
             [4000; 10000; 25000] [0.7; 0.7; 0.7]
  = Ok (c * (-13 / 726200)).
Proof.
  destruct (flux_ratio_uniform 0.7 [1; 0.5; 0.125]
              (map (fun f => c * f) [100; 1; 1])
              [4000; 10000; 25000] [0.7; 0.7; 0.7])
    as (mean & Hmean & ->).
  - reflexivity.
  - simpl; lia.
  - repeat constructor; lra.
  - nodup_reals.
  - apply (np_interp_const 0.7 (model_nu_values [1; 0.5; 0.125])
             (filter_nu_values [4000; 10000; 25000])). discriminate.
  - lra.
  - rewrite steep_band_mean in Hmean. injection Hmean as <-.
    f_equal. unfold AB_zero_point_Jy. lra.
Qed.

Lemma steep_magnitude (c : R) (t : Table) :
  getitem t "LAMBDA(mic)" = Ok [1; 0.5; 0.125] ->
  getitem t "FDET(milliJ)" = Ok (map (fun f => c * f) [100; 1; 1]) ->
  get_abs_mag (fs_update sample_fs "steep.c100" t) "steep.c100" "flat.dat"
  = Ok (mkQ (-2.5 * log10 (c * (-13 / 726200))) u.dimensionless_unscaled).
Proof.
  intros Hl Hf.
  rewrite (get_abs_mag_eq _ "steep.c100" "flat.dat" t _ _
             "col1" [4000; 10000; 25000] "col2" [0.7; 0.7; 0.7]
             (fs_update_same sample_fs "steep.c100" t) Hl Hf eq_refl).
  unfold spec_magnitude. rewrite steep_flux_ratio. reflexivity.
Qed.

(** C6, as worded, fails: the flux densities 100, 1, 1 mJy are positive,
    the flux ratio inside the logarithm is negative, and doubling the flux
    densities does not shift the result by [-2.5 log10 2]. *)
Lemma flux_scaling_fails_on_negative_ratio :
  Forall (fun f => 0 < f) [100; 1; 1]
  /\ flux_ratio [1; 0.5; 0.125] [100; 1; 1] [4000; 10000; 25000]
                [0.7; 0.7; 0.7] = Ok (-13 / 726200)
  /\ exists m m',
       get_abs_mag (fs_update sample_fs "steep.c100" sample_steep_model)
                   "steep.c100" "flat.dat"
       = Ok (mkQ m u.dimensionless_unscaled)
       /\ get_abs_mag (fs_update sample_fs "steep.c100"
                                 sample_steep_model_doubled)
                      "steep.c100" "flat.dat"
          = Ok (mkQ m' u.dimensionless_unscaled)
       /\ m' <> m - 2.5 * log10 2.
Proof.
  split; [repeat constructor; lra|]. split.
  - pose proof (steep_flux_ratio 1) as H. cbn [map] in H.
    replace (1 * 100) with 100 in H by lra. replace (1 * 1) with 1 in H by lra.
    rewrite H. f_equal. lra.
  - exists (-2.5 * log10 (1 * (-13 / 726200))),
           (-2.5 * log10 (2 * (-13 / 726200))).
    split; [|split].
    + apply (steep_magnitude 1 sample_steep_model); [reflexivity|].
      cbn [sample_steep_model getitem String.eqb Ascii.eqb Bool.eqb map].
      repeat f_equal; lra.
    + apply (steep_magnitude 2 sample_steep_model_doubled); reflexivity.
    + rewrite !log10_nonpos by lra. pose proof log10_2_pos. lra.
Qed.

(** C9, as worded, fails: the logarithm is taken of a negative number, a
    numeric-domain condition, and the call returns a value. *)
Lemma negative_ratio_returns_a_value :
  flux_ratio [1; 0.5; 0.125] [100; 1; 1] [4000; 10000; 25000]
             [0.7; 0.7; 0.7] = Ok (-13 / 726200)
  /\ -13 / 726200 < 0
  /\ exists q,
       get_abs_mag (fs_update sample_fs "steep.c100" sample_steep_model)
                   "steep.c100" "flat.dat" = Ok q.
Proof.
  split; [|split; [lra|]].
  - pose proof (steep_flux_ratio 1) as H. cbn [map] in H.
    replace (1 * 100) with 100 in H by lra. replace (1 * 1) with 1 in H by lra.
    rewrite H. f_equal. lra.
  - eexists. apply (steep_magnitude 1 sample_steep_model); [reflexivity|].
    cbn [sample_steep_model getitem String.eqb Ascii.eqb Bool.eqb map].
    repeat f_equal; lra.
Qed.

End Refutations.
